(** * Mach-O image introspection (macho.c): shallow embedding and properties

    The embedding follows [src/macho.c] function by function.

    Conventions of the model.
    - The image is the byte content of memory seen from [macho->mh]: a pointer
      is the integer offset of its target from [macho->mh], [NULL] is [None].
      Pointer arithmetic on [uintptr_t] is done in [Z]; it is assumed not to
      leave the 64-bit address space.  The exception is the search of
      [macho_gadgets.c], which adds a size read from the image to a pointer:
      there pointers are machine addresses, [macho->mh] is a given address,
      and the wrap-around of the sum is written out.
    - Integers are little-endian (the host order of the only recognised
      magics, [MH_MAGIC] and [MH_MAGIC_64]); [size_t] and [uint64_t] are 64
      bits wide, [uint32_t] 32 bits, and their wrap-around is written out.
    - [MACHO_STRUCT_FIELD] yields the field of the 32-bit or of the 64-bit
      layout, converted to the common (64-bit) type; each field read by the
      code has one accessor below, with both layouts spelled out.
    - The struct layouts and constants come from the platform headers
      [<mach-o/loader.h>] and [<mach-o/nlist.h>].
    - [macho_error] is the client's diagnostic hook; the library returns
      [MACHO_ERROR] after calling it, and that return value is what is
      modelled.
    - Loops whose exit depends on the image ([for (;;)] over load commands)
      take a [fuel] argument and return [None] when it runs out; counted
      loops are structural. *)

From Stdlib Require Import ZArith List Lia Bool.
From Stdlib Require Import Strings.Byte.
Import ListNotations.
Open Scope Z_scope.

(** ** Memory and machine integers *)

Definition memory := Z -> byte.

Definition load8 (mem : memory) (a : Z) : Z := Z.of_N (Byte.to_N (mem a)).

Definition load32 (mem : memory) (a : Z) : Z :=
  load8 mem a + 2 ^ 8 * load8 mem (a + 1)
  + 2 ^ 16 * load8 mem (a + 2) + 2 ^ 24 * load8 mem (a + 3).

Definition load64 (mem : memory) (a : Z) : Z :=
  load32 mem a + 2 ^ 32 * load32 mem (a + 4).

Definition u32 (z : Z) : Z := z mod 2 ^ 32.
Definition u64 (z : Z) : Z := z mod 2 ^ 64.

(** [(uint32_t)-1] and [(uint64_t)-1], [(size_t)-1]. *)
Definition UINT32_MAX : Z := 2 ^ 32 - 1.
Definition UINT64_MAX : Z := 2 ^ 64 - 1.

(** [int] read from a 32-bit field. *)
Definition signed32 (z : Z) : Z := if z <? 2 ^ 31 then z else z - 2 ^ 32.

(** ** Constants of the platform headers *)

Definition MH_MAGIC : Z := 0xfeedface.
Definition MH_MAGIC_64 : Z := 0xfeedfacf.
Definition LC_SEGMENT : Z := 0x1.
Definition LC_SEGMENT_64 : Z := 0x19.
Definition N_STAB : Z := 0xe0.
Definition N_TYPE : Z := 0x0e.
Definition N_UNDF : Z := 0x0.
Definition N_SECT : Z := 0xe.
Definition NO_SECT : Z := 0.
Definition VM_PROT_EXECUTE : Z := 0x04.

Definition sizeof_mach_header : Z := 28.
Definition sizeof_mach_header_64 : Z := 32.
Definition sizeof_segment_command : Z := 56.
Definition sizeof_segment_command_64 : Z := 72.
Definition sizeof_section : Z := 68.
Definition sizeof_section_64 : Z := 80.
Definition sizeof_nlist : Z := 12.
Definition sizeof_nlist_64 : Z := 16.

(** ** macho.h *)

Record macho := { mh : memory; size : Z }.

Inductive macho_result := MACHO_SUCCESS | MACHO_ERROR | MACHO_NOT_FOUND.

(** ** Width dispatch *)

Definition macho_is_32 (m : macho) : bool := load32 (mh m) 0 =? MH_MAGIC.

Definition macho_is_64 (m : macho) : bool := load32 (mh m) 0 =? MH_MAGIC_64.

Definition macho_header_size (m : macho) : Z :=
  if macho_is_64 m then sizeof_mach_header_64 else sizeof_mach_header.

(** [MACHO_STRUCT_FIELD(macho, struct mach_header, macho->mh, sizeofcmds)] *)
Definition mach_header_sizeofcmds (m : macho) : Z :=
  if macho_is_64 m then load32 (mh m) 20 else load32 (mh m) 20.

(** [struct load_command] *)
Definition lc_cmd (m : macho) (lc : Z) : Z := load32 (mh m) lc.
Definition lc_cmdsize (m : macho) (lc : Z) : Z := load32 (mh m) (lc + 4).

(** [struct segment_command] and [struct segment_command_64] *)
Definition segment_vmaddr (m : macho) (sc : Z) : Z :=
  if macho_is_64 m then load64 (mh m) (sc + 24) else load32 (mh m) (sc + 24).
Definition segment_vmsize (m : macho) (sc : Z) : Z :=
  if macho_is_64 m then load64 (mh m) (sc + 32) else load32 (mh m) (sc + 28).
Definition segment_fileoff (m : macho) (sc : Z) : Z :=
  if macho_is_64 m then load64 (mh m) (sc + 40) else load32 (mh m) (sc + 32).
Definition segment_filesize (m : macho) (sc : Z) : Z :=
  if macho_is_64 m then load64 (mh m) (sc + 48) else load32 (mh m) (sc + 36).
Definition segment_initprot (m : macho) (sc : Z) : Z :=
  if macho_is_64 m then signed32 (load32 (mh m) (sc + 60))
  else signed32 (load32 (mh m) (sc + 44)).
Definition segment_nsects (m : macho) (sc : Z) : Z :=
  if macho_is_64 m then load32 (mh m) (sc + 64) else load32 (mh m) (sc + 48).

(** [struct section] and [struct section_64] *)
Definition section_addr (m : macho) (sect : Z) : Z :=
  if macho_is_64 m then load64 (mh m) (sect + 32) else load32 (mh m) (sect + 32).
Definition section_size (m : macho) (sect : Z) : Z :=
  if macho_is_64 m then load64 (mh m) (sect + 40) else load32 (mh m) (sect + 36).

(** [struct symtab_command], read through the caller's pointer *)
Definition symtab_symoff (m : macho) (symtab : Z) : Z := load32 (mh m) (symtab + 8).
Definition symtab_nsyms (m : macho) (symtab : Z) : Z := load32 (mh m) (symtab + 12).
Definition symtab_stroff (m : macho) (symtab : Z) : Z := load32 (mh m) (symtab + 16).
Definition symtab_strsize (m : macho) (symtab : Z) : Z := load32 (mh m) (symtab + 20).

(** [struct nlist] and [struct nlist_64] *)
Definition nlist_n_strx (m : macho) (nl : Z) : Z :=
  if macho_is_64 m then load32 (mh m) nl else load32 (mh m) nl.
Definition nlist_n_type (m : macho) (nl : Z) : Z :=
  if macho_is_64 m then load8 (mh m) (nl + 4) else load8 (mh m) (nl + 4).
Definition nlist_n_sect (m : macho) (nl : Z) : Z :=
  if macho_is_64 m then load8 (mh m) (nl + 5) else load8 (mh m) (nl + 5).
Definition nlist_n_value (m : macho) (nl : Z) : Z :=
  if macho_is_64 m then load64 (mh m) (nl + 8) else load32 (mh m) (nl + 8).

(** ** macho_get_nlist *)

Definition macho_get_nlist (m : macho) (symtab : Z) (idx : Z) : Z :=
  symtab_symoff m symtab
  + idx * (if macho_is_64 m then sizeof_nlist_64 else sizeof_nlist).

(** ** macho_validate *)

Definition macho_validate_32 (mem : memory) (size : Z) : macho_result :=
  if negb (load32 mem 0 =? MH_MAGIC) then MACHO_ERROR
  else if size <? sizeof_mach_header then MACHO_ERROR
  else if size <? load32 mem 20 then MACHO_ERROR
  else MACHO_SUCCESS.

Definition macho_validate_64 (mem : memory) (size : Z) : macho_result :=
  if negb (load32 mem 0 =? MH_MAGIC_64) then MACHO_ERROR
  else if size <? sizeof_mach_header_64 then MACHO_ERROR
  else if size <? load32 mem 20 then MACHO_ERROR
  else MACHO_SUCCESS.

Definition macho_validate (mem : memory) (size : Z) : macho_result :=
  if size <? sizeof_mach_header then MACHO_ERROR
  else if load32 mem 0 =? MH_MAGIC then macho_validate_32 mem size
  else if load32 mem 0 =? MH_MAGIC_64 then macho_validate_64 mem size
  else MACHO_ERROR.

(** ** Load commands *)

Definition macho_next_load_command (m : macho) (lc : option Z) : option Z :=
  let lc_start := macho_header_size m in
  let lc' := match lc with
             | None => lc_start
             | Some p => p + lc_cmdsize m p
             end in
  let sizeofcmds := mach_header_sizeofcmds m in
  if lc_start + sizeofcmds <=? lc' then None else Some lc'.

Fixpoint macho_find_load_command (fuel : nat) (m : macho) (lc : option Z)
    (cmd : Z) : option (option Z) :=
  match fuel with
  | O => None
  | S fuel' =>
      match macho_next_load_command m lc with
      | None => Some None
      | Some lc' =>
          if lc_cmd m lc' =? cmd then Some (Some lc')
          else macho_find_load_command fuel' m (Some lc') cmd
      end
  end.

Definition macho_next_segment (fuel : nat) (m : macho) (sc : option Z)
    : option (option Z) :=
  let cmd := if macho_is_64 m then LC_SEGMENT_64 else LC_SEGMENT in
  macho_find_load_command fuel m sc cmd.

(** Repeated application of [macho_next_load_command] from [lc] until it
    returns [NULL]: the commands returned, in order. *)
Fixpoint commands_from (fuel : nat) (m : macho) (lc : option Z)
    : option (list Z) :=
  match fuel with
  | O => None
  | S fuel' =>
      match macho_next_load_command m lc with
      | None => Some []
      | Some lc' => option_map (cons lc') (commands_from fuel' m (Some lc'))
      end
  end.

(** The commands some chain of [macho_next_load_command] calls returns. *)
Inductive lc_reachable (m : macho) : Z -> Prop :=
| lc_reach_first lc :
    macho_next_load_command m None = Some lc -> lc_reachable m lc
| lc_reach_next lc lc' :
    lc_reachable m lc ->
    macho_next_load_command m (Some lc) = Some lc' -> lc_reachable m lc'.

Definition sum_cmdsize (m : macho) (l : list Z) : Z :=
  fold_right (fun lc acc => lc_cmdsize m lc + acc) 0 l.

(** Where the cursor stands after the call sequence started at [lc]. *)
Definition cursor_after (m : macho) (lc : option Z) : Z :=
  match lc with
  | None => macho_header_size m
  | Some p => p + lc_cmdsize m p
  end.

(** ** Segments and sections containing an address *)

Definition segment_contains (m : macho) (lc : Z) (addr : Z) : bool :=
  let vmaddr := segment_vmaddr m lc in
  let vmsize := segment_vmsize m lc in
  (vmaddr <=? addr) && (addr <? u64 (vmaddr + vmsize)).

Fixpoint segment_containing_loop (fuel k : nat) (m : macho) (addr : Z)
    (lc : option Z) : option (option Z) :=
  match k with
  | O => None
  | S k' =>
      match macho_next_segment fuel m lc with
      | None => None
      | Some None => Some None
      | Some (Some lc') =>
          if segment_contains m lc' addr then Some (Some lc')
          else segment_containing_loop fuel k' m addr (Some lc')
      end
  end.

Definition macho_segment_containing_address (fuel : nat) (m : macho)
    (addr : Z) : option (option Z) :=
  segment_containing_loop fuel fuel m addr None.

Definition section_contains (m : macho) (sect : Z) (addr : Z) : bool :=
  let sectaddr := section_addr m sect in
  let sectsize := section_size m sect in
  (sectaddr <=? addr) && (addr <? u64 (sectaddr + sectsize)).

Fixpoint section_containing_loop (m : macho) (addr : Z) (n : nat) (sect : Z)
    : option Z :=
  match n with
  | O => None
  | S n' =>
      if section_contains m sect addr then Some sect
      else section_containing_loop m addr n'
             (sect + (if macho_is_64 m then sizeof_section_64 else sizeof_section))
  end.

Definition macho_section_containing_address (m : macho) (lc : Z) (addr : Z)
    : option Z :=
  let nsects := segment_nsects m lc in
  let lc_size := if macho_is_64 m then sizeof_segment_command_64
                 else sizeof_segment_command in
  section_containing_loop m addr (Z.to_nat nsects) (lc + lc_size).

(** ** guess_symbol_size *)

Definition guess_symbol_size (fuel : nat) (m : macho) (addr next : Z)
    : option Z :=
  let size0 := UINT64_MAX in
  let size1 := if negb (next =? UINT64_MAX) then u64 (next - addr) else size0 in
  match macho_segment_containing_address fuel m addr with
  | None => None
  | Some None => Some (if size1 =? UINT64_MAX then 0 else size1)
  | Some (Some sc) =>
      let size2 :=
        match macho_section_containing_address m sc addr with
        | Some sect =>
            let sect_limited_size :=
              u64 (section_addr m sect + section_size m sect - addr) in
            if sect_limited_size <? size1 then sect_limited_size else size1
        | None => size1
        end in
      let segment_limited_size :=
        u64 (segment_vmaddr m sc + segment_vmsize m sc - addr) in
      let size3 :=
        if segment_limited_size <? size2 then segment_limited_size else size2 in
      Some (if size3 =? UINT64_MAX then 0 else size3)
  end.

(** ** String table *)

Definition macho_symtab_string (m : macho) (symtab : Z) (strx : Z) : option Z :=
  let base := symtab_stroff m symtab in
  if (strx <? 4) || (symtab_strsize m symtab <=? strx) then None
  else Some (base + strx).

(** [*p] for a C string given by its characters before the terminator. *)
Definition name_char (name : list byte) (p : nat) : byte := nth p name x00.

(** [while (str < end && *str != 0) str++;] with [n = end - str]. *)
Fixpoint skip_string (mem : memory) (str : Z) (n : nat) : Z :=
  match n with
  | O => str
  | S n' =>
      if negb (Byte.eqb (mem str) x00) then skip_string mem (str + 1) n'
      else str
  end.

Inductive scan_step := ScanReturn (strx : Z) | ScanBreak (str : Z).

(** The inner [for (;;)] of [macho_symtab_string_index], with
    [n = end - str] ([0] when [str >= end]). *)
Fixpoint match_candidate (mem : memory) (name : list byte) (strx : Z)
    (p : nat) (str : Z) (n : nat) : scan_step :=
  match n with
  | O => ScanReturn 0
  | S n' =>
      if negb (Byte.eqb (name_char name p) (mem str))
      then ScanBreak (skip_string mem str n)
      else if Byte.eqb (name_char name p) x00 then ScanReturn strx
      else match_candidate mem name strx (S p) (str + 1) n'
  end.

Fixpoint string_index_loop (fuel : nat) (mem : memory) (name : list byte)
    (base str end_ : Z) : option Z :=
  match fuel with
  | O => None
  | S fuel' =>
      let strx := u32 (str - base) in
      match match_candidate mem name strx 0 str (Z.to_nat (end_ - str)) with
      | ScanReturn r => Some r
      | ScanBreak str' =>
          string_index_loop fuel' mem name base (str' + 1) end_
      end
  end.

Definition macho_symtab_string_index_fuel (fuel : nat) (m : macho)
    (symtab : Z) (name : list byte) : option Z :=
  let base := symtab_stroff m symtab in
  string_index_loop fuel (mh m) name base (base + 4)
    (base + symtab_strsize m symtab).

(** The scan advances by at least one byte per candidate, so
    [strsize + 1] candidates are enough (lemma [string_index_fuel_enough]). *)
Definition macho_symtab_string_index (m : macho) (symtab : Z)
    (name : list byte) : Z :=
  match macho_symtab_string_index_fuel
          (S (Z.to_nat (symtab_strsize m symtab))) m symtab name with
  | Some strx => strx
  | None => 0
  end.

(** [strcmp(mem + ptr, name) == 0] for a [name] without embedded NUL. *)
Fixpoint cstring_eqb (mem : memory) (ptr : Z) (name : list byte) : bool :=
  match name with
  | [] => Byte.eqb (mem ptr) x00
  | c :: rest =>
      negb (Byte.eqb c x00) && Byte.eqb (mem ptr) c
      && cstring_eqb mem (ptr + 1) rest
  end.

(** ** Symbols *)

Fixpoint for_each_symbol_loop {C : Type} (m : macho) (symtab : Z)
    (callback : C -> Z -> Z -> C * bool) (n : nat) (i : Z) (context : C) : C :=
  match n with
  | O => context
  | S n' =>
      let nl_i := macho_get_nlist m symtab i in
      let n_strx := nlist_n_strx m nl_i in
      let n_type := nlist_n_type m nl_i in
      if negb (Z.land n_type N_STAB =? 0) || negb (Z.land n_type N_TYPE =? N_SECT)
      then for_each_symbol_loop m symtab callback n' (i + 1) context
      else
        match macho_symtab_string m symtab n_strx with
        | None => for_each_symbol_loop m symtab callback n' (i + 1) context
        | Some symbol =>
            let address := nlist_n_value m nl_i in
            let '(context', stop) := callback context symbol address in
            if stop then context'
            else for_each_symbol_loop m symtab callback n' (i + 1) context'
        end
  end.

Definition macho_for_each_symbol {C : Type} (m : macho) (symtab : Z)
    (callback : C -> Z -> Z -> C * bool) (context : C) : C :=
  for_each_symbol_loop m symtab callback (Z.to_nat (symtab_nsyms m symtab)) 0
    context.

Fixpoint next_symbol_loop (m : macho) (symtab : Z) (addr : Z) (n : nat)
    (i : Z) (next : Z) : Z :=
  match n with
  | O => next
  | S n' =>
      let nl_i := macho_get_nlist m symtab i in
      let n_value := nlist_n_value m nl_i in
      next_symbol_loop m symtab addr n' (i + 1)
        (if (addr <? n_value) && (n_value <? next) then n_value else next)
  end.

Definition macho_next_symbol (m : macho) (symtab : Z) (addr : Z) : Z :=
  next_symbol_loop m symtab addr (Z.to_nat (symtab_nsyms m symtab)) 0 UINT64_MAX.

(** State of the scan of [macho_resolve_symbol] when the loop is left:
    an early [return], or [addr0] and [symidx]. *)
Inductive symbol_scan :=
| SymReturn (r : macho_result)
| SymBreak (addr0 symidx : Z).

Fixpoint resolve_symbol_loop (m : macho) (symtab : Z) (strx : Z) (n : nat)
    (i : Z) : symbol_scan :=
  match n with
  | O => SymBreak 0 UINT32_MAX
  | S n' =>
      let nl_i := macho_get_nlist m symtab i in
      let n_strx := nlist_n_strx m nl_i in
      if n_strx =? strx then
        let n_type := nlist_n_type m nl_i in
        if Z.land n_type N_TYPE =? N_UNDF then SymReturn MACHO_NOT_FOUND
        else if negb (Z.land n_type N_TYPE =? N_SECT) then SymReturn MACHO_ERROR
        else SymBreak (nlist_n_value m nl_i) i
      else resolve_symbol_loop m symtab strx n' (i + 1)
  end.

(** Result and out-parameters ([None]: not written). *)
Record symbol_resolution := {
  sr_result : macho_result;
  sr_addr : option Z;
  sr_size : option Z
}.

Definition macho_resolve_symbol (fuel : nat) (m : macho) (symtab : Z)
    (symbol : list byte) (want_addr want_size : bool)
    : option symbol_resolution :=
  let strx := macho_symtab_string_index m symtab symbol in
  if strx =? 0 then Some (Build_symbol_resolution MACHO_NOT_FOUND None None)
  else
    match resolve_symbol_loop m symtab strx
            (Z.to_nat (symtab_nsyms m symtab)) 0 with
    | SymReturn r => Some (Build_symbol_resolution r None None)
    | SymBreak addr0 symidx =>
        if symidx =? UINT32_MAX
        then Some (Build_symbol_resolution MACHO_NOT_FOUND None None)
        else
          let addr := if want_addr then Some addr0 else None in
          if want_size then
            let next := macho_next_symbol m symtab addr0 in
            match guess_symbol_size fuel m addr0 next with
            | None => None
            | Some sz => Some (Build_symbol_resolution MACHO_SUCCESS addr (Some sz))
            end
          else Some (Build_symbol_resolution MACHO_SUCCESS addr None)
    end.

Definition macho_guess_symbol_size (fuel : nat) (m : macho)
    (symtab : option Z) (addr : Z) : option Z :=
  let next := match symtab with
              | Some st => macho_next_symbol m st addr
              | None => UINT64_MAX
              end in
  guess_symbol_size fuel m addr next.

(** The loop of [macho_resolve_address]; [best] is [(sym, symidx, sym_addr)],
    [None] while [sym == NULL]. *)
Fixpoint resolve_address_loop (m : macho) (symtab : Z) (addr : Z) (n : nat)
    (i : Z) (best : option (Z * Z * Z)) : option (Z * Z * Z) :=
  match n with
  | O => best
  | S n' =>
      let nl_i := macho_get_nlist m symtab i in
      let n_type := nlist_n_type m nl_i in
      if negb (Z.land n_type N_TYPE =? N_SECT)
      then resolve_address_loop m symtab addr n' (i + 1) best
      else
        let n_value := nlist_n_value m nl_i in
        let sym_null_or_less :=
          match best with
          | None => true
          | Some (_, _, sym_addr) => sym_addr <? n_value
          end in
        if sym_null_or_less && (n_value <=? addr)
        then resolve_address_loop m symtab addr n' (i + 1)
               (Some (nl_i, i, n_value))
        else resolve_address_loop m symtab addr n' (i + 1) best
  end.

(** Result and out-parameters ([None]: not written; [ar_name = Some None]:
    [*name] set to [NULL]). *)
Record address_resolution := {
  ar_result : macho_result;
  ar_name : option (option Z);
  ar_size : option Z;
  ar_offset : option Z
}.

Definition macho_resolve_address (fuel : nat) (m : macho) (symtab : Z)
    (addr : Z) (want_name want_size want_offset : bool)
    : option address_resolution :=
  match resolve_address_loop m symtab addr
          (Z.to_nat (symtab_nsyms m symtab)) 0 None with
  | None => Some (Build_address_resolution MACHO_NOT_FOUND None None None)
  | Some (sym, symidx, sym_addr) =>
      let sym_sect := nlist_n_sect m sym in
      if sym_sect =? NO_SECT
      then Some (Build_address_resolution MACHO_ERROR None None None)
      else
        let name :=
          if want_name
          then Some (macho_symtab_string m symtab (nlist_n_strx m sym))
          else None in
        let offset := if want_offset then Some (u64 (addr - sym_addr)) else None in
        if want_size then
          let next_addr := macho_next_symbol m symtab sym_addr in
          match guess_symbol_size fuel m sym_addr next_addr with
          | None => None
          | Some sz =>
              Some (Build_address_resolution MACHO_SUCCESS name (Some sz) offset)
          end
        else Some (Build_address_resolution MACHO_SUCCESS name None offset)
  end.

(** ** Pattern search *)

Fixpoint bytes_at (mem : memory) (a : Z) (data : list byte) : bool :=
  match data with
  | [] => true
  | b :: rest => Byte.eqb (mem a) b && bytes_at mem (a + 1) rest
  end.

Fixpoint memmem_loop (mem : memory) (a : Z) (n : nat) (data : list byte)
    : option Z :=
  match n with
  | O => None
  | S n' =>
      if bytes_at mem a data then Some a
      else memmem_loop mem (a + 1) n' data
  end.

(** The C library's [memmem]: the first occurrence of [data] in the [len]
    bytes at [base] (an empty [data] occurs at [base]). *)
Definition memmem (mem : memory) (base : Z) (len : Z) (data : list byte)
    : option Z :=
  let size := Z.of_nat (length data) in
  if len <? size then None
  else memmem_loop mem base (Z.to_nat (len - size + 1)) data.

Fixpoint search_data_loop (fuel k : nat) (m : macho) (data : list byte)
    (minprot : Z) (lc : option Z) : option (macho_result * option Z) :=
  match k with
  | O => None
  | S k' =>
      match macho_next_segment fuel m lc with
      | None => None
      | Some None => Some (MACHO_NOT_FOUND, None)
      | Some (Some lc') =>
          let initprot := segment_initprot m lc' in
          if negb (Z.land initprot minprot =? minprot)
          then search_data_loop fuel k' m data minprot (Some lc')
          else
            let fileoff := segment_fileoff m lc' in
            let filesize := segment_filesize m lc' in
            let base := fileoff in
            match memmem (mh m) base filesize data with
            | None => search_data_loop fuel k' m data minprot (Some lc')
            | Some found =>
                let offset := found - base in
                let vmaddr := segment_vmaddr m lc' in
                Some (MACHO_SUCCESS, Some (u64 (vmaddr + offset)))
            end
      end
  end.

Definition macho_search_data (fuel : nat) (m : macho) (data : list byte)
    (minprot : Z) : option (macho_result * option Z) :=
  search_data_loop fuel fuel m data minprot None.

(** ** Building images *)

Definition byte_of_Z (z : Z) : byte :=
  match Byte.of_N (Z.to_N (z mod 256)) with
  | Some b => b
  | None => x00
  end.

(** [n] bytes of [v], least significant first. *)
Fixpoint le_bytes (n : nat) (v : Z) : list byte :=
  match n with
  | O => []
  | S n' => byte_of_Z v :: le_bytes n' (v / 256)
  end.

Definition memory_of (bytes : list byte) : memory :=
  fun a => if a <? 0 then x00 else nth (Z.to_nat a) bytes x00.

Definition image_of (bytes : list byte) : macho :=
  {| mh := memory_of bytes; size := Z.of_nat (length bytes) |}.

(** ** Sample images *)

(** A 32-bit image whose only command is longer than the table the header
    declares: [sizeofcmds = 8], [cmdsize = 16]. *)
Definition image_overlong_command : macho :=
  image_of
    (le_bytes 4 MH_MAGIC ++ le_bytes 4 7 ++ le_bytes 4 3 ++ le_bytes 4 2
     ++ le_bytes 4 1 ++ le_bytes 4 8 ++ le_bytes 4 0
     ++ le_bytes 4 0x1b ++ le_bytes 4 16 ++ le_bytes 8 0).

(** Sixteen bytes of a name field. *)
Definition name16 (s : list byte) : list byte :=
  firstn 16 (s ++ repeat x00 16).

(** [struct segment_command_64] *)
Definition segment_command_64_bytes (cmdsize : Z) (segname : list byte)
    (vmaddr vmsize fileoff filesize maxprot initprot nsects : Z) : list byte :=
  le_bytes 4 LC_SEGMENT_64 ++ le_bytes 4 cmdsize ++ name16 segname
  ++ le_bytes 8 vmaddr ++ le_bytes 8 vmsize ++ le_bytes 8 fileoff
  ++ le_bytes 8 filesize ++ le_bytes 4 maxprot ++ le_bytes 4 initprot
  ++ le_bytes 4 nsects ++ le_bytes 4 0.

(** [struct section_64] *)
Definition section_64_bytes (sectname segname : list byte) (addr size : Z)
    : list byte :=
  name16 sectname ++ name16 segname ++ le_bytes 8 addr ++ le_bytes 8 size
  ++ le_bytes 4 0 ++ le_bytes 4 0 ++ le_bytes 4 0 ++ le_bytes 4 0
  ++ le_bytes 4 0 ++ le_bytes 4 0 ++ le_bytes 4 0 ++ le_bytes 4 0.

(** [struct symtab_command] *)
Definition symtab_command_bytes (symoff nsyms stroff strsize : Z) : list byte :=
  le_bytes 4 0x2 ++ le_bytes 4 24 ++ le_bytes 4 symoff ++ le_bytes 4 nsyms
  ++ le_bytes 4 stroff ++ le_bytes 4 strsize.

(** [struct nlist_64] *)
Definition nlist_64_bytes (n_strx n_type n_sect n_value : Z) : list byte :=
  le_bytes 4 n_strx ++ le_bytes 1 n_type ++ le_bytes 1 n_sect ++ le_bytes 2 0
  ++ le_bytes 8 n_value.

(** [struct mach_header_64] *)
Definition mach_header_64_bytes (ncmds sizeofcmds : Z) : list byte :=
  le_bytes 4 MH_MAGIC_64 ++ le_bytes 4 0x01000007 ++ le_bytes 4 3
  ++ le_bytes 4 2 ++ le_bytes 4 ncmds ++ le_bytes 4 sizeofcmds
  ++ le_bytes 4 0 ++ le_bytes 4 0.

(** A 64-bit image with one segment ([vmaddr = 0x1000], [vmsize = 0x2000],
    [fileoff = 0], [filesize = 0x2000], read and execute) holding one section
    ([addr = 0x1000], [size = sect_size]), and a symbol table with the given
    [(n_strx, n_type, n_sect, n_value)] entries over the strings [_a] (index
    4) and [_b] (index 7).  The segment command is at offset 32, the symtab
    command at 184, the symbols at 208, the strings after them. *)
Definition sample_image_of (sect_size : Z) (entries : list (Z * Z * Z * Z))
    : macho :=
  let nsyms := Z.of_nat (length entries) in
  image_of
    (mach_header_64_bytes 2 176
     ++ segment_command_64_bytes 152 [x5f; x5f; x54; x45; x58; x54]
          0x1000 0x2000 0 0x2000 7 5 1
     ++ section_64_bytes [x5f; x5f; x74; x65; x78; x74]
          [x5f; x5f; x54; x45; x58; x54] 0x1000 sect_size
     ++ symtab_command_bytes 208 nsyms (208 + 16 * nsyms) 10
     ++ flat_map (fun '(n_strx, n_type, n_sect, n_value) =>
                    nlist_64_bytes n_strx n_type n_sect n_value) entries
     ++ [x00; x00; x00; x00; x5f; x61; x00; x5f; x62; x00]).

(** [_a] at [0x1000] and [_b] at [0x1050], both in section 1. *)
Definition sample_image_with (sect_size : Z) : macho :=
  sample_image_of sect_size [(4, 0xf, 1, 0x1000); (7, 0xf, 1, 0x1050)].

Definition sample_image : macho := sample_image_with 0x100.

(** [_a] is section-relative by type but names no section. *)
Definition image_symbol_without_section : macho :=
  sample_image_of 0x100 [(4, 0xf, NO_SECT, 0x1000); (7, 0xf, 1, 0x1050)].



Definition sample_symtab : Z := 184.

(** ** Reading of the size guess *)

(** [lc] is a segment command of the image's width. *)
Definition is_segment_command (m : macho) (lc : Z) : bool :=
  lc_cmd m lc =? (if macho_is_64 m then LC_SEGMENT_64 else LC_SEGMENT).

(** The segment the size guess uses, given the commands [l] of the image. *)
Definition containing_segment (m : macho) (l : list Z) (addr : Z) : option Z :=
  find (fun x => is_segment_command m x && segment_contains m x addr) l.

(** The bounds on a symbol at [addr]: (a) the next symbol, when [next] is not
    the "none" value [(uint64_t)-1]; (b) the end of the section of [sc] that
    contains [addr]; (c) the end of the containing segment [sc]. *)
Definition size_bounds (m : macho) (sc : option Z) (addr next : Z) : list Z :=
  (if next =? UINT64_MAX then [] else [u64 (next - addr)])
  ++ match sc with
     | None => []
     | Some sc =>
         match macho_section_containing_address m sc addr with
         | Some sect => [section_addr m sect + section_size m sect - addr]
         | None => []
         end
         ++ [segment_vmaddr m sc + segment_vmsize m sc - addr]
     end.

(** The minimum of the bounds, 0 when there is none. *)
Definition min_of_bounds (bounds : list Z) : Z :=
  match bounds with
  | [] => 0
  | b :: bs => fold_right Z.min b bs
  end.

(** The same, with a minimum equal to [(size_t)-1] read as "no bound". *)
Definition guessed_size (bounds : list Z) : Z :=
  if min_of_bounds bounds =? UINT64_MAX then 0 else min_of_bounds bounds.

(** A 64-bit image whose only segment covers [0 .. 2^64 - 2]
    ([vmaddr = 0], [vmsize = 2^64 - 1]) and has no section. *)
Definition image_huge_segment : macho :=
  image_of
    (mach_header_64_bytes 1 72
     ++ segment_command_64_bytes 72 [x5f; x5f; x58] 0 (2 ^ 64 - 1) 0 0 7 5 0).

(** ** Observing the callback of macho_for_each_symbol *)

(** [callback], with the [(symbol, address)] arguments of every call
    appended to a log kept next to the client's context. *)
Definition traced_callback {C : Type} (callback : C -> Z -> Z -> C * bool)
    : C * list (Z * Z) -> Z -> Z -> (C * list (Z * Z)) * bool :=
  fun st symbol address =>
    let '(context', stop) := callback (fst st) symbol address in
    ((context', snd st ++ [(symbol, address)]), stop).

(** Entry [i] of the symbol table is passed to the callback with these
    arguments. *)
Definition visited_entry (m : macho) (symtab : Z) (i : Z) (call : Z * Z)
    : Prop :=
  let nl_i := macho_get_nlist m symtab i in
  0 <= i < symtab_nsyms m symtab
  /\ Z.land (nlist_n_type m nl_i) N_STAB = 0
  /\ Z.land (nlist_n_type m nl_i) N_TYPE = N_SECT
  /\ 4 <= nlist_n_strx m nl_i < symtab_strsize m symtab
  /\ macho_symtab_string m symtab (nlist_n_strx m nl_i) = Some (fst call)
  /\ fst call = symtab_stroff m symtab + nlist_n_strx m nl_i
  /\ snd call = nlist_n_value m nl_i.

(** ** Reading of the address resolution *)

(** Entry [j] is section-relative and not above [addr]. *)
Definition address_candidate (m : macho) (symtab : Z) (addr : Z) (j : Z)
    : Prop :=
  Z.land (nlist_n_type m (macho_get_nlist m symtab j)) N_TYPE = N_SECT
  /\ nlist_n_value m (macho_get_nlist m symtab j) <= addr.

(** Among the first [k] entries, [w] has the greatest address not above
    [addr], and the lowest index of the entries that share that address. *)
Definition address_winner (m : macho) (symtab : Z) (addr : Z) (k w : Z)
    : Prop :=
  0 <= w < k
  /\ address_candidate m symtab addr w
  /\ (forall j, 0 <= j < k -> address_candidate m symtab addr j ->
        nlist_n_value m (macho_get_nlist m symtab j)
        <= nlist_n_value m (macho_get_nlist m symtab w))
  /\ (forall j, 0 <= j < k -> address_candidate m symtab addr j ->
        nlist_n_value m (macho_get_nlist m symtab j)
        = nlist_n_value m (macho_get_nlist m symtab w) -> w <= j).

(** What the scan of [macho_resolve_address] holds after [k] entries. *)
Definition address_scan_state (m : macho) (symtab : Z) (addr : Z) (k : Z)
    (best : option (Z * Z * Z)) : Prop :=
  match best with
  | None => forall j, 0 <= j < k -> ~ address_candidate m symtab addr j
  | Some (sym, symidx, sym_addr) =>
      sym = macho_get_nlist m symtab symidx
      /\ sym_addr = nlist_n_value m sym
      /\ address_winner m symtab addr k symidx
  end.

(** ** Reading of the string table *)

Definition nul_free (name : list byte) : Prop := Forall (fun c => c <> x00) name.

(** [name], followed by its terminator, lies in the string blob at index [i]. *)
Definition stored_at (m : macho) (symtab : Z) (name : list byte) (i : Z)
    : Prop :=
  4 <= i < symtab_strsize m symtab
  /\ i + Z.of_nat (length name) < symtab_strsize m symtab
  /\ cstring_eqb (mh m) (symtab_stroff m symtab + i) name = true.

(** Index [i] starts a string of the blob: it is the first valid index, or
    it follows a terminator at a valid index. *)
Definition string_start (m : macho) (symtab : Z) (i : Z) : Prop :=
  i = 4 \/ (5 <= i /\ mh m (symtab_stroff m symtab + i - 1) = x00).

(** The blob holds the single string [xab] at index 4, so the name [ab] is
    stored, with its terminator, at index 5.  The symtab command is at
    offset 32. *)
Definition image_suffix_name : macho :=
  image_of
    (mach_header_64_bytes 1 24
     ++ symtab_command_bytes 56 0 56 8
     ++ [x00; x00; x00; x00; x78; x61; x62; x00]).

(** ** Reading of the symbol resolution *)

(** The indices [i], [i + 1], ..., [i + n - 1]. *)
Fixpoint indices (n : nat) (i : Z) : list Z :=
  match n with
  | O => []
  | S n' => i :: indices n' (i + 1)
  end.

(** The first entry of the symbol table, in index order, whose string index
    is [strx]. *)
Definition first_entry_named (m : macho) (symtab : Z) (strx : Z) : option Z :=
  find (fun i => nlist_n_strx m (macho_get_nlist m symtab i) =? strx)
    (indices (Z.to_nat (symtab_nsyms m symtab)) 0).

(** The name occurs nowhere in the string blob. *)
Definition name_absent (m : macho) (symtab : Z) (name : list byte) : Prop :=
  forall i, 4 <= i < symtab_strsize m symtab ->
    cstring_eqb (mh m) (symtab_stroff m symtab + i) name = false.

(** No string of the blob is the name: the name is stored at no index that
    starts a string. *)
Definition no_string_named (m : macho) (symtab : Z) (name : list byte)
    : Prop :=
  forall i, stored_at m symtab name i -> ~ string_start m symtab i.

(** [j] is the index of the first string of the blob that is the name. *)
Definition first_string_named (m : macho) (symtab : Z) (name : list byte)
    (j : Z) : Prop :=
  stored_at m symtab name j /\ string_start m symtab j
  /\ forall i, stored_at m symtab name i -> string_start m symtab i -> j <= i.

(** The blob holds the single string [xab] at index 4.  The only symbol
    entry is section-relative ([n_type = N_SECT | N_EXT], section 1, value
    [0x1000]) and its string index 5 designates [ab], inside that string.
    The symtab command is at offset 32, the entry at 56, the blob at 72. *)
Definition image_suffix_symbol : macho :=
  image_of
    (mach_header_64_bytes 1 24
     ++ symtab_command_bytes 56 1 72 8
     ++ nlist_64_bytes 5 0xf 1 0x1000
     ++ [x00; x00; x00; x00; x78; x61; x62; x00]).

(** ** Reading of the pattern search *)

(** A cursor of the load-command iteration: [NULL], or a command reached. *)
Definition lc_cursor (m : macho) (lc : option Z) : Prop :=
  match lc with
  | None => True
  | Some p => lc_reachable m p
  end.



(** ** Named segments and sections *)

(** [strcmp(mem + ptr, name) == 0]; [name] ends at its first NUL, if any. *)
Fixpoint strcmp_eq (mem : memory) (ptr : Z) (name : list byte) : bool :=
  match name with
  | [] => Byte.eqb (mem ptr) x00
  | c :: rest =>
      if Byte.eqb c x00 then Byte.eqb (mem ptr) x00
      else Byte.eqb (mem ptr) c && strcmp_eq mem (ptr + 1) rest
  end.

(** The [segname] array of a segment command and the [sectname] array of a
    section, as pointers. *)
Definition segment_segname (m : macho) (sc : Z) : Z :=
  if macho_is_64 m then sc + 8 else sc + 8.
Definition section_sectname (m : macho) (sect : Z) : Z :=
  if macho_is_64 m then sect else sect.

Fixpoint find_segment_loop (fuel k : nat) (m : macho) (segname : list byte)
    (lc : option Z) : option (option Z) :=
  match k with
  | O => None
  | S k' =>
      match macho_next_segment fuel m lc with
      | None => None
      | Some None => Some None
      | Some (Some lc') =>
          let lc_segname := segment_segname m lc' in
          if negb (strcmp_eq (mh m) lc_segname segname)
          then find_segment_loop fuel k' m segname (Some lc')
          else Some (Some lc')
      end
  end.

Definition macho_find_segment (fuel : nat) (m : macho) (segname : list byte)
    : option (option Z) :=
  find_segment_loop fuel fuel m segname None.

Definition segment_command_size (m : macho) : Z :=
  if macho_is_64 m then sizeof_segment_command_64 else sizeof_segment_command.

Definition section_struct_size (m : macho) : Z :=
  if macho_is_64 m then sizeof_section_64 else sizeof_section.

(** The loop [for (; sect < end; sect += section_size)]: [sect < end] holds
    for exactly the first [nsects] iterations, which [n] counts. *)
Fixpoint find_section_loop (m : macho) (sectname : list byte) (n : nat)
    (sect : Z) : option Z :=
  match n with
  | O => None
  | S n' =>
      let name := section_sectname m sect in
      if strcmp_eq (mh m) name sectname then Some sect
      else find_section_loop m sectname n' (sect + section_struct_size m)
  end.

Definition macho_find_section (m : macho) (segment : Z) (sectname : list byte)
    : option Z :=
  let segment_size := segment_command_size m in
  let sect := segment + segment_size in
  let nsects := segment_nsects m segment in
  find_section_loop m sectname (Z.to_nat nsects) sect.

(** ** Segment contents *)

(** The out-parameters [( *data, *addr, *size )]; [*data] is written when
    [data != NULL]. *)
Definition macho_segment_data (m : macho) (segment : Z) (want_data : bool)
    : option Z * Z * Z :=
  let fileoff := segment_fileoff m segment in
  let vmaddr := segment_vmaddr m segment in
  let vmsize := segment_vmsize m segment in
  ((if want_data then Some fileoff else None), vmaddr, vmsize).

(** ** macho_find_base *)

Fixpoint find_base_loop (fuel k : nat) (m : macho) (lc : option Z)
    : option (macho_result * option Z) :=
  match k with
  | O => None
  | S k' =>
      match macho_next_segment fuel m lc with
      | None => None
      | Some None => Some (MACHO_NOT_FOUND, None)
      | Some (Some lc') =>
          let fileoff := segment_fileoff m lc' in
          let filesize := segment_filesize m lc' in
          let vmaddr := segment_vmaddr m lc' in
          if negb (fileoff =? 0) || (filesize =? 0)
          then find_base_loop fuel k' m (Some lc')
          else Some (MACHO_SUCCESS, Some vmaddr)
      end
  end.

Definition macho_find_base (fuel : nat) (m : macho)
    : option (macho_result * option Z) :=
  find_base_loop fuel fuel m None.

(** ** macho_section_by_index *)

(** The result is [sectcmd]: [None] while it is 0. *)
Fixpoint section_by_index_loop (fuel k : nat) (m : macho) (sect : Z)
    (lc : option Z) (idx : Z) : option (option Z) :=
  match k with
  | O => None
  | S k' =>
      match macho_next_segment fuel m lc with
      | None => None
      | Some None => Some None
      | Some (Some lc') =>
          let nsects := segment_nsects m lc' in
          if sect <? u32 (idx + nsects) then
            let lc_size := segment_command_size m in
            Some (Some (lc' + lc_size
                        + u32 (sect - idx) * section_struct_size m))
          else section_by_index_loop fuel k' m sect (Some lc') (u32 (idx + nsects))
      end
  end.

Definition macho_section_by_index (fuel : nat) (m : macho) (sect : Z)
    : option (option Z) :=
  if sect <? 1 then Some None
  else section_by_index_loop fuel fuel m sect None 1.

(** ** Reading of the segment scans *)

(** The segment commands among the commands [l], in command order. *)
Definition segments_of (m : macho) (l : list Z) : list Z :=
  filter (is_segment_command m) l.

(** The number of sections the segments [segs] declare. *)
Definition total_sections (m : macho) (segs : list Z) : Z :=
  fold_right (fun sc acc => segment_nsects m sc + acc) 0 segs.

(** The [i]-th section struct (from 0) after the segment command [sc]. *)
Definition section_of_segment (m : macho) (sc : Z) (i : Z) : Z :=
  sc + segment_command_size m + i * section_struct_size m.


(** The shape the scans over the segments share: call [macho_next_segment]
    until [body] yields a result or the segments are exhausted. *)
Fixpoint segment_scan {A : Type} (fuel k : nat) (m : macho)
    (body : Z -> option A) (lc : option Z) : option (option A) :=
  match k with
  | O => None
  | S k' =>
      match macho_next_segment fuel m lc with
      | None => None
      | Some None => Some None
      | Some (Some lc') =>
          match body lc' with
          | Some r => Some (Some r)
          | None => segment_scan fuel k' m body (Some lc')
          end
      end
  end.

(** The first result [body] yields along [l]. *)
Fixpoint first_some {A : Type} (body : Z -> option A) (l : list Z) : option A :=
  match l with
  | [] => None
  | x :: rest =>
      match body x with
      | Some r => Some r
      | None => first_some body rest
      end
  end.

(** The bodies of the scans of [macho.c]. *)
Definition find_segment_body (m : macho) (segname : list byte) (sc : Z)
    : option Z :=
  if negb (strcmp_eq (mh m) (segment_segname m sc) segname) then None
  else Some sc.

Definition find_base_body (m : macho) (sc : Z) : option Z :=
  if negb (segment_fileoff m sc =? 0) || (segment_filesize m sc =? 0) then None
  else Some (segment_vmaddr m sc).

Definition search_data_body (m : macho) (data : list byte) (minprot : Z)
    (sc : Z) : option Z :=
  if negb (Z.land (segment_initprot m sc) minprot =? minprot) then None
  else
    match memmem (mh m) (segment_fileoff m sc) (segment_filesize m sc) data with
    | None => None
    | Some found =>
        Some (u64 (segment_vmaddr m sc + (found - segment_fileoff m sc)))
    end.


(** The shape the scans over the sections of a segment share: the first of
    the [n] section structs from [sect] on that satisfies [p]. *)
Fixpoint section_scan (m : macho) (p : Z -> bool) (n : nat) (sect : Z)
    : option Z :=
  match n with
  | O => None
  | S n' =>
      if p sect then Some sect
      else section_scan m p n' (sect + section_struct_size m)
  end.


(** The section with index [k], counted from 0 across the segments [segs]. *)
Fixpoint nth_section (m : macho) (segs : list Z) (k : Z) : option Z :=
  match segs with
  | [] => None
  | sc :: rest =>
      if k <? segment_nsects m sc then Some (section_of_segment m sc k)
      else nth_section m rest (k - segment_nsects m sc)
  end.


(** The [(name, address)] pairs of the entries [i], ..., [i + n - 1] of the
    symbol table that [macho_for_each_symbol] does not skip, in index order. *)
Definition visible_symbols_from (m : macho) (symtab : Z) (n : nat) (i : Z)
    : list (Z * Z) :=
  flat_map
    (fun j =>
       let nl := macho_get_nlist m symtab j in
       if negb (Z.land (nlist_n_type m nl) N_STAB =? 0)
          || negb (Z.land (nlist_n_type m nl) N_TYPE =? N_SECT)
       then []
       else
         match macho_symtab_string m symtab (nlist_n_strx m nl) with
         | None => []
         | Some symbol => [(symbol, nlist_n_value m nl)]
         end)
    (indices n i).

Definition visible_symbols (m : macho) (symtab : Z) : list (Z * Z) :=
  visible_symbols_from m symtab (Z.to_nat (symtab_nsyms m symtab)) 0.


(** ** Reading of the size guess: the ranges *)

(** [addr] lies in the [size] bytes at [start], and these end below [2^64].
    A range that reaches [2^64] holds no address: the test
    [start <= addr && addr < start + size] adds in 64 bits. *)
Definition in_range (start size addr : Z) : bool :=
  (start <=? addr) && (addr <? start + size) && (start + size <? 2 ^ 64).

(** The first segment, in the order of the commands [l], whose range holds
    [addr]. *)
Definition segment_around (m : macho) (l : list Z) (addr : Z) : option Z :=
  find (fun lc => is_segment_command m lc
                  && in_range (segment_vmaddr m lc) (segment_vmsize m lc) addr)
    l.

(** The first of the [nsects] sections of the segment [sc] whose range holds
    [addr]. *)
Definition section_around (m : macho) (sc : Z) (addr : Z) : option Z :=
  find (fun s => in_range (section_addr m s) (section_size m s) addr)
    (map (section_of_segment m sc)
       (indices (Z.to_nat (segment_nsects m sc)) 0)).

(** The bounds on the size of a symbol at [addr]: (a) the distance to the
    next symbol, in 64 bits, when [next] is not the "none" value
    [(uint64_t)-1]; (b) the distance to the end of the section around
    [addr], in the segment around [addr]; (c) the distance to the end of
    that segment. *)
Definition symbol_size_bounds (m : macho) (l : list Z) (addr next : Z)
    : list Z :=
  (if next =? UINT64_MAX then [] else [(next - addr) mod 2 ^ 64])
  ++ match segment_around m l addr with
     | None => []
     | Some sc =>
         match section_around m sc addr with
         | Some s => [section_addr m s + section_size m s - addr]
         | None => []
         end
         ++ [segment_vmaddr m sc + segment_vmsize m sc - addr]
     end.

(** A 64-bit image whose only segment covers the last [0x1000] bytes of the
    address space ([vmaddr = 2^64 - 0x1000], [vmsize = 0x1000]) and has no
    section. *)
Definition image_top_segment : macho :=
  image_of
    (mach_header_64_bytes 1 72
     ++ segment_command_64_bytes 72 [x5f; x5f; x58] (2 ^ 64 - 0x1000) 0x1000
          0 0 7 5 0).


(* ================================================================== *)
(** * macho_gadgets.c *)

(** [error] prints its message and exits with status 2: a call is the end
    of the run, modelled as the error the function stops with. *)
Inductive gadget_error :=
| BadFormat | MissingData | OddLength | InvalidHex | ZeroLength.

(** A [char] as the [int] it is promoted to. *)
Definition char_to_int (c : byte) : Z :=
  let v := Z.of_N (Byte.to_N c) in
  if v <? 128 then v else v - 256.

Definition hexdigit (ch : Z) : Z :=
  if (48 <=? ch) && (ch <=? 57) then ch - 48
  else if (65 <=? ch) && (ch <=? 70) then ch - 65 + 0xa
  else if (97 <=? ch) && (ch <=? 102) then ch - 97 + 0xa
  else -1.

(** [*chr == 0 || *chr == ','] *)
Definition ends_component (c : byte) : bool :=
  Byte.eqb c x00 || Byte.eqb c x2c.

(** The inner loop of [decode_gadget]: the bytes written at [data] and the
    rest of the string; a string that ends is followed by its NUL. *)
Fixpoint decode_hex (chr : list byte)
    : gadget_error + (list byte * list byte) :=
  match chr with
  | [] => inr ([], [])
  | c1 :: chr1 =>
      if ends_component c1 then inr ([], chr)
      else
        let b_hi := hexdigit (char_to_int c1) in
        match chr1 with
        | [] => inl OddLength
        | c2 :: chr2 =>
            if ends_component c2 then inl OddLength
            else
              let b_lo := hexdigit (char_to_int c2) in
              if (b_hi <? 0) || (b_lo <? 0) then inl InvalidHex
              else
                match decode_hex chr2 with
                | inl e => inl e
                | inr (bytes, rest) =>
                    inr (byte_of_Z (Z.lor (Z.shiftl b_hi 4) b_lo) :: bytes,
                         rest)
                end
        end
  end.

(** [start[i] = v] *)
Fixpoint store_at (i : nat) (v : byte) (start : list byte) : list byte :=
  match start, i with
  | [], _ => []
  | _ :: rest, O => v :: rest
  | b :: rest, S i' => b :: store_at i' v rest
  end.

(** The byte-swapping loop, [n] iterations from index [i] on. *)
Fixpoint swap_loop (n : nat) (i : nat) (start : list byte) : list byte :=
  match n with
  | O => start
  | S n' =>
      let len := length start in
      let byte_i := nth i start x00 in
      let start1 := store_at i (nth (len - i - 1) start x00) start in
      let start2 := store_at (len - i - 1) byte_i start1 in
      swap_loop n' (S i) start2
  end.

Definition reverse_component (start : list byte) : list byte :=
  swap_loop (length start / 2) 0 start.

(** [strncmp(chr, "0x", 2) == 0] *)
Definition starts_with_0x (chr : list byte) : bool :=
  match chr with
  | c1 :: c2 :: _ => Byte.eqb c1 x30 && Byte.eqb c2 x78
  | _ => false
  end.

(** The outer loop of [decode_gadget], one component per turn: the bytes
    written from [data] on. *)
Fixpoint decode_components (fuel : nat) (chr : list byte)
    : option (gadget_error + list byte) :=
  match fuel with
  | O => None
  | S fuel' =>
      let little_endian := starts_with_0x chr in
      let chr := if little_endian then skipn 2 chr else chr in
      match decode_hex chr with
      | inl e => Some (inl e)
      | inr (bytes, rest) =>
          if (length bytes =? 0)%nat then Some (inl ZeroLength)
          else
            let component :=
              if little_endian then reverse_component bytes else bytes in
            match rest with
            | c :: rest' =>
                if Byte.eqb c x2c then
                  match decode_components fuel' rest' with
                  | Some (inr more) => Some (inr (component ++ more))
                  | other => other
                  end
                else Some (inr component)
            | [] => Some (inr component)
            end
      end
  end.

(** [strchr(string, ':')]: the characters before the first colon and those
    after it. *)
Fixpoint split_colon (string : list byte) : option (list byte * list byte) :=
  match string with
  | [] => None
  | c :: rest =>
      if Byte.eqb c x00 then None
      else if Byte.eqb c x3a then Some ([], rest)
      else
        match split_colon rest with
        | Some (name, data) => Some (c :: name, data)
        | None => None
        end
  end.

Fixpoint strlen (string : list byte) : nat :=
  match string with
  | [] => O
  | c :: rest => if Byte.eqb c x00 then O else S (strlen rest)
  end.

(** [decode_gadget]: the name and the data of the gadget ([size] is the
    length of the data). *)
Definition decode_gadget (fuel : nat) (string : list byte)
    : option (gadget_error + (list byte * list byte)) :=
  match split_colon string with
  | None => Some (inl BadFormat)
  | Some (name, string) =>
      let len := strlen string in
      if (len =? 0)%nat then Some (inl MissingData)
      else
        match decode_components fuel string with
        | None => None
        | Some (inl e) => Some (inl e)
        | Some (inr data) => Some (inr (name, data))
        end
  end.

(** [struct gadget]; [size] is the length of [data]. *)
Record gadget := {
  g_name : list byte;
  g_data : list byte;
  g_address : Z
}.

(** The body of the inner loop of [find_gadgets_in_data] for one gadget. *)
Definition find_gadget_at (mem : memory) (data address end_ ins : Z)
    (g : gadget) : gadget :=
  if negb (g_address g =? 0) || (end_ - ins <? Z.of_nat (length (g_data g)))
  then g
  else if negb (bytes_at mem ins (g_data g)) then g
  else {| g_name := g_name g; g_data := g_data g;
          g_address := u64 (address + (ins - data)) |}.

Fixpoint find_gadgets_in_data_loop (mem : memory) (data address end_ : Z)
    (n : nat) (ins : Z) (gadgets : list gadget) : list gadget :=
  match n with
  | O => gadgets
  | S n' =>
      find_gadgets_in_data_loop mem data address end_ n' (ins + 1)
        (map (find_gadget_at mem data address end_ ins) gadgets)
  end.

(** [find_gadgets_in_data] is given any buffer, of a size that
    [find_gadgets] reads from the image: here [data] is the machine address
    of the buffer and [mem] the memory by machine address.  The end pointer
    [ins + size] wraps at [2^64], and [for (; ins < end; ins++)] visits the
    [end - data] addresses from [data] on, none when [end <= data]. *)
Definition find_gadgets_in_data (mem : memory) (data address size : Z)
    (gadgets : list gadget) : list gadget :=
  let end_ := u64 (data + size) in
  find_gadgets_in_data_loop mem data address end_ (Z.to_nat (end_ - data))
    data gadgets.

(** The memory by machine address when [macho->mh] is the address
    [mh_addr]: the byte at the address [a] is the byte of the image at the
    offset [a - mh_addr], taken in 64 bits. *)
Definition machine_memory (m : macho) (mh_addr : Z) : memory :=
  fun a => mh m (u64 (a - mh_addr)).

Definition VM_PROT_READ : Z := 0x01.

(** [find_gadgets] reads [initprot] and [maxprot] through a
    [struct segment_command_64 *], whatever the width of the image.
    [mh_addr] is the machine address [macho->mh]: the pointer
    [macho_segment_data] yields, [(uintptr_t)macho->mh + fileoff], is passed
    on as the machine address it is. *)
Fixpoint find_gadgets_loop (fuel k : nat) (m : macho) (mh_addr : Z)
    (gadgets : list gadget) (lc : option Z) : option (list gadget) :=
  match k with
  | O => None
  | S k' =>
      match macho_next_segment fuel m lc with
      | None => None
      | Some None => Some gadgets
      | Some (Some lc') =>
          let prot := Z.lor VM_PROT_READ VM_PROT_EXECUTE in
          let initprot := signed32 (load32 (mh m) (lc' + 60)) in
          let maxprot := signed32 (load32 (mh m) (lc' + 56)) in
          if negb (Z.land initprot prot =? prot)
             || negb (Z.land maxprot prot =? prot)
          then find_gadgets_loop fuel k' m mh_addr gadgets (Some lc')
          else
            let '(data, address, size) := macho_segment_data m lc' true in
            let data :=
              match data with Some d => u64 (mh_addr + d) | None => 0 end in
            find_gadgets_loop fuel k' m mh_addr
              (find_gadgets_in_data (machine_memory m mh_addr) data address
                 size gadgets)
              (Some lc')
      end
  end.

Definition find_gadgets (fuel : nat) (m : macho) (mh_addr : Z)
    (gadgets : list gadget) : option (list gadget) :=
  find_gadgets_loop fuel fuel m mh_addr gadgets None.


(** ** Reading of the gadget grammar *)

(** A character [hexdigit] accepts. *)
Definition is_hex_char (c : byte) : bool := 0 <=? hexdigit (char_to_int c).

(** The byte two hex digit characters denote, high digit first. *)
Definition hex_pair_value (p : byte * byte) : byte :=
  byte_of_Z (16 * hexdigit (char_to_int (fst p)) + hexdigit (char_to_int (snd p))).

Definition hex_text (pairs : list (byte * byte)) : list byte :=
  flat_map (fun p => [fst p; snd p]) pairs.

(** A component: whether it is written with the [0x] prefix, and its
    digit pairs. *)
Definition component_text (c : bool * list (byte * byte)) : list byte :=
  (if fst c then [x30; x78] else []) ++ hex_text (snd c).

Definition component_bytes (c : bool * list (byte * byte)) : list byte :=
  if fst c then rev (map hex_pair_value (snd c))
  else map hex_pair_value (snd c).

(** The components, separated by commas. *)
Fixpoint data_text (comps : list (bool * list (byte * byte))) : list byte :=
  match comps with
  | [] => []
  | c :: rest =>
      match rest with
      | [] => component_text c
      | _ :: _ => component_text c ++ x2c :: data_text rest
      end
  end.

Definition well_formed_component (c : bool * list (byte * byte)) : Prop :=
  snd c <> []
  /\ Forall (fun p => is_hex_char (fst p) = true /\ is_hex_char (snd p) = true)
       (snd c).


(** ** Reading of the gadget search *)

(** What [find_gadgets_in_data_loop] does to one gadget. *)
Fixpoint gadget_scan (mem : memory) (data address end_ : Z) (n : nat)
    (ins : Z) (g : gadget) : gadget :=
  match n with
  | O => g
  | S n' =>
      gadget_scan mem data address end_ n' (ins + 1)
        (find_gadget_at mem data address end_ ins g)
  end.

(** The gadget with its address set where [memmem] finds its data in the
    [size] bytes at the machine address [data], which are mapped at
    [address]; a gadget already found is left as it is. *)
Definition locate_gadget (mem : memory) (data address size : Z) (g : gadget)
    : gadget :=
  if negb (g_address g =? 0) then g
  else
    match memmem mem data size (g_data g) with
    | Some found =>
        {| g_name := g_name g; g_data := g_data g;
           g_address := address + (found - data) |}
    | None => g
    end.

(** [g'] is [g] with, at most, an address set where there was none. *)
Definition gadget_kept (g g' : gadget) : Prop :=
  g_name g' = g_name g /\ g_data g' = g_data g
  /\ (g_address g <> 0 -> g_address g' = g_address g).

(** The segments [find_gadgets] searches. *)
Definition gadget_segment (m : macho) (sc : Z) : bool :=
  let prot := Z.lor VM_PROT_READ VM_PROT_EXECUTE in
  (Z.land (signed32 (load32 (mh m) (sc + 60))) prot =? prot)
  && (Z.land (signed32 (load32 (mh m) (sc + 56))) prot =? prot).

(** The search of one segment, for [macho->mh] at the address [mh_addr]. *)
Definition search_segment (m : macho) (mh_addr : Z) (gadgets : list gadget)
    (sc : Z) : list gadget :=
  find_gadgets_in_data (machine_memory m mh_addr)
    (u64 (mh_addr + segment_fileoff m sc))
    (segment_vmaddr m sc) (segment_vmsize m sc) gadgets.

(* ================================================================== *)
(** * Properties *)

(** ** Ranges of the loads *)

Lemma load8_range (mem : memory) (a : Z) : 0 <= load8 mem a < 256.
Proof.
  unfold load8. pose proof (Byte.to_N_bounded (mem a)). lia.
Qed.

Lemma load32_range (mem : memory) (a : Z) : 0 <= load32 mem a < 2 ^ 32.
Proof.
  unfold load32.
  pose proof (load8_range mem a). pose proof (load8_range mem (a + 1)).
  pose proof (load8_range mem (a + 2)). pose proof (load8_range mem (a + 3)).
  lia.
Qed.

Lemma load64_range (mem : memory) (a : Z) : 0 <= load64 mem a < 2 ^ 64.
Proof.
  unfold load64.
  pose proof (load32_range mem a). pose proof (load32_range mem (a + 4)).
  lia.
Qed.

Lemma load8_zero_iff (mem : memory) (a : Z) :
  load8 mem a = 0 <-> mem a = x00.
Proof.
  unfold load8. split; intro H.
  - assert (E : Byte.to_N (mem a) = Byte.to_N x00) by (simpl; lia).
    apply (f_equal Byte.of_N) in E. rewrite !Byte.of_to_N in E. congruence.
  - rewrite H. reflexivity.
Qed.

(** ** C1: macho_validate *)

(** C1.  [macho_validate] returns [MACHO_SUCCESS] exactly when the magic at
    offset 0 is one of the two recognised magics, the buffer length is at
    least the header size of the detected width, and the header's
    [sizeofcmds] is at most the buffer length; in every other case it
    returns [MACHO_ERROR]. *)
Theorem macho_validate_success_iff (mem : memory) (sz : Z) :
  let m := {| mh := mem; size := sz |} in
  (macho_validate mem sz = MACHO_SUCCESS <->
     (macho_is_32 m = true \/ macho_is_64 m = true)
     /\ macho_header_size m <= sz
     /\ mach_header_sizeofcmds m <= sz)
  /\ (macho_validate mem sz <> MACHO_SUCCESS ->
      macho_validate mem sz = MACHO_ERROR).
Proof.
  cbv [macho_validate macho_validate_32 macho_validate_64 macho_is_32
       macho_is_64 macho_header_size mach_header_sizeofcmds mh
       sizeof_mach_header sizeof_mach_header_64 MH_MAGIC MH_MAGIC_64].
  destruct (sz <? 28) eqn:E28;
    destruct (load32 mem 0 =? 4277009102) eqn:E32;
    destruct (load32 mem 0 =? 4277009103) eqn:E64;
    destruct (sz <? 32) eqn:Es32;
    destruct (sz <? load32 mem 20) eqn:Ecmds;
    simpl;
    repeat match goal with
           | H : (_ <? _) = true |- _ => apply Z.ltb_lt in H
           | H : (_ <? _) = false |- _ => apply Z.ltb_ge in H
           | H : (_ =? _) = true |- _ => apply Z.eqb_eq in H
           | H : (_ =? _) = false |- _ => apply Z.eqb_neq in H
           end;
    (split; [split | ]);
    try (intro; first [reflexivity | congruence]);
    try (intros _; split; [first [left; reflexivity | right; reflexivity] | lia]);
    try (intros [[? | ?] [? ?]]; first [reflexivity | congruence | lia]).
Qed.

(** ** C2: iterating macho_next_load_command *)

Lemma sizeofcmds_range (m : macho) : 0 <= mach_header_sizeofcmds m < 2 ^ 32.
Proof.
  unfold mach_header_sizeofcmds. destruct (macho_is_64 m); apply load32_range.
Qed.

Lemma lc_cmdsize_range (m : macho) (lc : Z) : 0 <= lc_cmdsize m lc < 2 ^ 32.
Proof. apply load32_range. Qed.

Lemma next_load_command_first (m : macho) :
  macho_next_load_command m None = None <-> mach_header_sizeofcmds m = 0.
Proof.
  unfold macho_next_load_command. pose proof (sizeofcmds_range m).
  destruct (macho_header_size m + mach_header_sizeofcmds m <=? macho_header_size m) eqn:E.
  - apply Z.leb_le in E. split; intros; [lia | reflexivity].
  - apply Z.leb_gt in E. split; intros; [discriminate | lia].
Qed.

Lemma next_load_command_some (m : macho) (lc : option Z) (lc' : Z) :
  macho_next_load_command m lc = Some lc' ->
  lc' = cursor_after m lc
  /\ lc' < macho_header_size m + mach_header_sizeofcmds m.
Proof.
  unfold macho_next_load_command, cursor_after.
  destruct (_ <=? _) eqn:E; [discriminate |].
  apply Z.leb_gt in E. intro H; inversion H; subst. split; [reflexivity | lia].
Qed.

Lemma commands_from_positions (m : macho) :
  forall fuel lc l,
    commands_from fuel m lc = Some l ->
    forall l1 x l2, l = l1 ++ x :: l2 ->
      x = cursor_after m lc + sum_cmdsize m l1
      /\ x < macho_header_size m + mach_header_sizeofcmds m.
Proof.
  induction fuel as [| fuel IH]; intros lc l Hl l1 x l2 E; [discriminate |].
  simpl in Hl.
  destruct (macho_next_load_command m lc) as [lc' |] eqn:Hn.
  - destruct (commands_from fuel m (Some lc')) as [l' |] eqn:Hr; [| discriminate].
    simpl in Hl. injection Hl as Hl. rewrite <- Hl in E. clear Hl.
    apply next_load_command_some in Hn. destruct Hn as [Hpos Hlt].
    destruct l1 as [| y l1]; simpl in E; injection E as E1 E2.
    + simpl. split; lia.
    + destruct (IH _ _ Hr l1 x l2 E2) as [Hx Hb].
      split; [| exact Hb]. subst y. unfold cursor_after in Hx.
      change (sum_cmdsize m (lc' :: l1))
        with (lc_cmdsize m lc' + sum_cmdsize m l1). lia.
  - injection Hl as Hl. rewrite <- Hl in E. destruct l1; discriminate.
Qed.

Lemma commands_from_terminates (m : macho)
    (Hwf : forall lc, lc_reachable m lc -> 0 < lc_cmdsize m lc) :
  forall n p,
    lc_reachable m p ->
    macho_header_size m + mach_header_sizeofcmds m - p <= Z.of_nat n ->
    exists l, commands_from n m (Some p) = Some l /\ (length l < n)%nat.
Proof.
  induction n as [| n IH]; intros p Hp Hn.
  - exfalso. inversion Hp as [? H | ? ? ? H]; subst;
      apply next_load_command_some in H; lia.
  - simpl. destruct (macho_next_load_command m (Some p)) as [p' |] eqn:E.
    + pose proof (Hwf p Hp) as Hpos.
      pose proof (next_load_command_some _ _ _ E) as [Hp' _]. simpl in Hp'.
      destruct (IH p') as [l [Hl Hlen]].
      * eapply lc_reach_next; eauto.
      * lia.
      * rewrite Hl. simpl. exists (p' :: l). split; [reflexivity | simpl; lia].
    + exists []. split; [reflexivity | simpl; lia].
Qed.

(** C2 (amended).  If every command the iteration reaches has a non-zero
    [cmdsize], then repeated [macho_next_load_command] from [NULL] ends after
    at most [sizeofcmds] commands; the sequence is empty iff [sizeofcmds] is
    0; and every returned command starts at [header size + the cmdsizes of
    the commands before it], which is strictly inside the declared table, so
    the cumulative length of the commands before any returned command is less
    than [sizeofcmds]. *)
Theorem next_load_command_sequence (m : macho)
    (Hwf : forall lc, lc_reachable m lc -> 0 < lc_cmdsize m lc) :
  exists l,
    commands_from (S (Z.to_nat (mach_header_sizeofcmds m))) m None = Some l
    /\ (l = [] <-> mach_header_sizeofcmds m = 0)
    /\ Z.of_nat (length l) <= mach_header_sizeofcmds m
    /\ forall l1 lc l2, l = l1 ++ lc :: l2 ->
         lc = macho_header_size m + sum_cmdsize m l1
         /\ sum_cmdsize m l1 < mach_header_sizeofcmds m.
Proof.
  pose proof (sizeofcmds_range m) as Hr.
  assert (Hex : exists l,
             commands_from (S (Z.to_nat (mach_header_sizeofcmds m))) m None = Some l
             /\ (l = [] <-> mach_header_sizeofcmds m = 0)
             /\ Z.of_nat (length l) <= mach_header_sizeofcmds m).
  { cbn [commands_from].
    destruct (macho_next_load_command m None) as [p |] eqn:E.
    - pose proof (next_load_command_some _ _ _ E) as [Hp Hlt]. simpl in Hp.
      destruct (commands_from_terminates m Hwf
                  (Z.to_nat (mach_header_sizeofcmds m)) p) as [l [Hl Hlen]].
      + apply lc_reach_first; exact E.
      + lia.
      + rewrite Hl. simpl. exists (p :: l). split; [reflexivity |].
        split; [split; [discriminate | lia] | simpl length; lia].
    - apply next_load_command_first in E. exists [].
      split; [reflexivity |]. split; [tauto | simpl; lia]. }
  destruct Hex as [l [Hl [Hempty Hlen]]]. exists l.
  repeat split; try tauto; try lia.
  - destruct (commands_from_positions m _ _ _ Hl l1 lc l2 H) as [Hx _].
    exact Hx.
  - destruct (commands_from_positions m _ _ _ Hl l1 lc l2 H) as [Hx Hb].
    simpl in Hx. lia.
Qed.

Lemma sample_image_commands (lc : Z) :
  lc_reachable sample_image lc -> lc = 32 \/ lc = 184.
Proof.
  induction 1 as [lc H | lc lc' _ IH H].
  - vm_compute in H. inversion H. auto.
  - destruct IH; subst lc; vm_compute in H; inversion H; auto.
Qed.

Lemma sample_image_wf (lc : Z) :
  lc_reachable sample_image lc -> 0 < lc_cmdsize sample_image lc.
Proof.
  intro H. destruct (sample_image_commands lc H); subst; vm_compute; reflexivity.
Qed.

Lemma next_load_command_sequence_witness :
  exists l,
    commands_from (S (Z.to_nat (mach_header_sizeofcmds sample_image)))
      sample_image None = Some l
    /\ (l = [] <-> mach_header_sizeofcmds sample_image = 0)
    /\ Z.of_nat (length l) <= mach_header_sizeofcmds sample_image
    /\ forall l1 lc l2, l = l1 ++ lc :: l2 ->
         lc = macho_header_size sample_image + sum_cmdsize sample_image l1
         /\ sum_cmdsize sample_image l1 < mach_header_sizeofcmds sample_image.
Proof.
  exact (next_load_command_sequence sample_image sample_image_wf).
Defined.

(** C2 as stated fails: this validated image yields one command whose
    [cmdsize] (16) exceeds the declared [sizeofcmds] (8). *)
Lemma next_load_command_sum_counterexample :
  macho_validate (mh image_overlong_command) (size image_overlong_command)
    = MACHO_SUCCESS
  /\ commands_from 2 image_overlong_command None = Some [28]
  /\ mach_header_sizeofcmds image_overlong_command = 8
  /\ sum_cmdsize image_overlong_command [28] = 16
  /\ ~ (sum_cmdsize image_overlong_command [28]
        <= mach_header_sizeofcmds image_overlong_command).
Proof. vm_compute. repeat split. intro H. apply H. reflexivity. Qed.

(** ** Loops over the load commands *)

Lemma commands_from_length (m : macho) :
  forall n lc l, commands_from n m lc = Some l -> (length l < n)%nat.
Proof.
  induction n as [| n IH]; intros lc l H; [discriminate |].
  simpl in H. destruct (macho_next_load_command m lc) as [lc' |].
  - destruct (commands_from n m (Some lc')) as [l' |] eqn:E; [| discriminate].
    injection H as <-. apply IH in E. simpl. lia.
  - injection H as <-. simpl. lia.
Qed.

Lemma commands_from_suffix (m : macho) :
  forall n lc l1 x l2,
    commands_from n m lc = Some (l1 ++ x :: l2) ->
    exists n', (n' <= n)%nat /\ commands_from n' m (Some x) = Some l2.
Proof.
  induction n as [| n IH]; intros lc l1 x l2 H; [discriminate |].
  simpl in H. destruct (macho_next_load_command m lc) as [lc' |].
  - destruct (commands_from n m (Some lc')) as [l' |] eqn:E; [| discriminate].
    injection H as H. destruct l1 as [| y l1]; simpl in H; injection H as H1 H2.
    + subst. exists n. split; [lia | exact E].
    + subst. destruct (IH _ _ _ _ E) as [n' [Hle Hn']].
      exists n'. split; [lia | exact Hn'].
  - injection H as H. destruct l1; discriminate.
Qed.

Lemma find_load_command_spec (m : macho) (cmd : Z) :
  forall n lc l fuel,
    commands_from n m lc = Some l -> (n <= fuel)%nat ->
    macho_find_load_command fuel m lc cmd
    = Some (find (fun x => lc_cmd m x =? cmd) l).
Proof.
  induction n as [| n IH]; intros lc l fuel H Hle; [discriminate |].
  destruct fuel as [| fuel]; [lia |].
  simpl in H |- *. destruct (macho_next_load_command m lc) as [lc' |].
  - destruct (commands_from n m (Some lc')) as [l' |] eqn:E; [| discriminate].
    injection H as <-. simpl.
    destruct (lc_cmd m lc' =? cmd); [reflexivity |].
    apply (IH _ _ fuel E). lia.
  - injection H as <-. reflexivity.
Qed.

Lemma next_segment_spec (m : macho) :
  forall n lc l fuel,
    commands_from n m lc = Some l -> (n <= fuel)%nat ->
    macho_next_segment fuel m lc = Some (find (is_segment_command m) l).
Proof.
  intros. unfold macho_next_segment.
  erewrite find_load_command_spec by eassumption. reflexivity.
Qed.

Lemma find_split {A : Type} (p : A -> bool) :
  forall l x, find p l = Some x ->
    exists l1 l2, l = l1 ++ x :: l2 /\ p x = true /\ find p l1 = None.
Proof.
  induction l as [| a l IH]; intros x H; [discriminate |].
  simpl in H. destruct (p a) eqn:E.
  - injection H as <-. exists [], l. auto.
  - destruct (IH x H) as [l1 [l2 [-> [Hp Hn]]]].
    exists (a :: l1), l2. simpl. rewrite E. auto.
Qed.

Lemma find_app_skip {A : Type} (p q : A -> bool) (l1 l2 : list A) :
  find p l1 = None ->
  (forall x, q x = true -> p x = true) ->
  find q (l1 ++ l2) = find q l2.
Proof.
  intros Hn Hqp. induction l1 as [| a l1 IH]; [reflexivity |].
  simpl in Hn |- *. destruct (p a) eqn:E; [discriminate |].
  destruct (q a) eqn:Eq; [apply Hqp in Eq; congruence | auto].
Qed.

Lemma segment_containing_loop_spec (m : macho) (addr : Z) :
  forall k n lc l fuel,
    commands_from n m lc = Some l -> (n <= fuel)%nat -> (length l < k)%nat ->
    segment_containing_loop fuel k m addr lc
    = Some (find (fun x => is_segment_command m x && segment_contains m x addr) l).
Proof.
  induction k as [| k IH]; intros n lc l fuel H Hle Hk; [lia |].
  simpl. rewrite (next_segment_spec m n lc l fuel H Hle).
  destruct (find (is_segment_command m) l) as [x |] eqn:Ef.
  - destruct (find_split _ _ _ Ef) as [l1 [l2 [-> [Hx Hn]]]].
    rewrite (find_app_skip (is_segment_command m)); auto.
    2: { intros y Hy. apply andb_prop in Hy. tauto. }
    simpl. rewrite Hx. simpl.
    destruct (segment_contains m x addr); [reflexivity |].
    destruct (commands_from_suffix m _ _ _ _ _ H) as [n' [Hn' Hs]].
    apply (IH n'); auto; try lia.
    rewrite length_app in Hk. simpl in Hk. lia.
  - symmetry. f_equal. clear - Ef.
    induction l as [| a l IH]; [reflexivity |].
    simpl in Ef |- *. destruct (is_segment_command m a); [discriminate |].
    simpl. auto.
Qed.

Lemma segment_containing_address_spec (m : macho) (addr : Z) (n : nat)
    (l : list Z) (fuel : nat) :
  commands_from n m None = Some l -> (n <= fuel)%nat ->
  macho_segment_containing_address fuel m addr
  = Some (find (fun x => is_segment_command m x && segment_contains m x addr) l).
Proof.
  intros H Hle. unfold macho_segment_containing_address.
  apply (segment_containing_loop_spec m addr fuel n); auto.
  pose proof (commands_from_length m _ _ _ H). lia.
Qed.

(** ** C4: guess_symbol_size *)

Lemma section_addr_range (m : macho) (s : Z) : 0 <= section_addr m s < 2 ^ 64.
Proof.
  unfold section_addr. destruct (macho_is_64 m);
    [apply load64_range | pose proof (load32_range (mh m) (s + 32)); lia].
Qed.

Lemma section_size_range (m : macho) (s : Z) : 0 <= section_size m s < 2 ^ 64.
Proof.
  unfold section_size. destruct (macho_is_64 m);
    [apply load64_range | pose proof (load32_range (mh m) (s + 36)); lia].
Qed.

Lemma segment_vmaddr_range (m : macho) (s : Z) : 0 <= segment_vmaddr m s < 2 ^ 64.
Proof.
  unfold segment_vmaddr. destruct (macho_is_64 m);
    [apply load64_range | pose proof (load32_range (mh m) (s + 24)); lia].
Qed.

Lemma segment_vmsize_range (m : macho) (s : Z) : 0 <= segment_vmsize m s < 2 ^ 64.
Proof.
  unfold segment_vmsize. destruct (macho_is_64 m);
    [apply load64_range | pose proof (load32_range (mh m) (s + 28)); lia].
Qed.

Lemma u64_range (z : Z) : 0 <= u64 z < 2 ^ 64.
Proof. unfold u64. apply Z.mod_pos_bound. lia. Qed.

Lemma u64_small (z : Z) : 0 <= z < 2 ^ 64 -> u64 z = z.
Proof. unfold u64. apply Z.mod_small. Qed.

(** A range test [a <= addr < (uint64_t)(a + s)] that succeeds did not wrap,
    so the distance from [addr] to the end is exact. *)
Lemma range_limited_size (a s addr : Z) :
  0 <= a < 2 ^ 64 -> 0 <= s < 2 ^ 64 ->
  (a <=? addr) && (addr <? u64 (a + s)) = true ->
  u64 (a + s - addr) = a + s - addr /\ 0 < a + s - addr < 2 ^ 64.
Proof.
  intros Ha Hs H. apply andb_prop in H. destruct H as [H1 H2].
  apply Z.leb_le in H1. apply Z.ltb_lt in H2.
  assert (Hnw : a + s < 2 ^ 64).
  { destruct (Z_lt_ge_dec (a + s) (2 ^ 64)) as [|Hge]; [assumption |].
    exfalso. assert (E : u64 (a + s) = a + s - 2 ^ 64).
    { unfold u64. symmetry. apply Z.mod_unique with (q := 1); lia. }
    lia. }
  rewrite (u64_small (a + s)) in H2 by lia.
  split; [apply u64_small |]; lia.
Qed.

Lemma section_containing_loop_contains (m : macho) (addr : Z) :
  forall n sect s,
    section_containing_loop m addr n sect = Some s ->
    section_contains m s addr = true.
Proof.
  induction n as [| n IH]; intros sect s H; [discriminate |].
  simpl in H. destruct (section_contains m sect addr) eqn:E.
  - injection H as <-. exact E.
  - eapply IH; eauto.
Qed.

Lemma ltb_min (x y : Z) : (if x <? y then x else y) = Z.min x y.
Proof. destruct (Z.ltb_spec x y); lia. Qed.

Lemma guess_symbol_size_spec (fuel : nat) (m : macho) (addr next : Z)
    (sc : option Z) :
  macho_segment_containing_address fuel m addr = Some sc ->
  (forall lc, sc = Some lc -> segment_contains m lc addr = true) ->
  guess_symbol_size fuel m addr next
  = Some (guessed_size (size_bounds m sc addr next)).
Proof.
  intros Hsc Hin. unfold guess_symbol_size. rewrite Hsc.
  pose proof (u64_range (next - addr)) as Ha.
  unfold guessed_size, size_bounds, min_of_bounds.
  assert (HM : UINT64_MAX = 2 ^ 64 - 1) by reflexivity.
  destruct sc as [lc |].
  - specialize (Hin lc eq_refl). unfold segment_contains in Hin.
    destruct (range_limited_size _ _ _ (segment_vmaddr_range m lc)
                (segment_vmsize_range m lc) Hin) as [Eg Hg].
    rewrite Eg. clear Eg Hin.
    set (G := segment_vmaddr m lc + segment_vmsize m lc - addr) in *.
    destruct (macho_section_containing_address m lc addr) as [s |] eqn:Es.
    + apply section_containing_loop_contains in Es.
      unfold section_contains in Es.
      destruct (range_limited_size _ _ _ (section_addr_range m s)
                  (section_size_range m s) Es) as [Eb Hb].
      rewrite Eb. clear Eb Es.
      set (B := section_addr m s + section_size m s - addr) in *.
      set (A := u64 (next - addr)) in *.
      f_equal. destruct (next =? UINT64_MAX); simpl; rewrite !ltb_min;
        repeat match goal with
               | |- context [?x =? ?y] => destruct (Z.eqb_spec x y)
               end; lia.
    + set (A := u64 (next - addr)) in *.
      f_equal. destruct (next =? UINT64_MAX); simpl; rewrite !ltb_min;
        repeat match goal with
               | |- context [?x =? ?y] => destruct (Z.eqb_spec x y)
               end; lia.
  - set (A := u64 (next - addr)) in *.
    f_equal. destruct (next =? UINT64_MAX); simpl;
      repeat match goal with
             | |- context [?x =? ?y] => destruct (Z.eqb_spec x y)
             end; lia.
Qed.

Lemma find_some_holds {A : Type} (p : A -> bool) (l : list A) (x : A) :
  find p l = Some x -> p x = true.
Proof. intro H. apply find_some in H. tauto. Qed.

Lemma guess_symbol_size_of_commands (m : macho) (n : nat) (l : list Z)
    (fuel : nat) (addr next : Z) :
  commands_from n m None = Some l -> (n <= fuel)%nat ->
  guess_symbol_size fuel m addr next
  = Some (guessed_size (size_bounds m (containing_segment m l addr) addr next)).
Proof.
  intros H Hle. apply guess_symbol_size_spec.
  - eapply segment_containing_address_spec; eauto.
  - intros lc E. unfold containing_segment in E.
    apply find_some_holds in E. apply andb_prop in E. tauto.
Qed.

Lemma find_pointwise {A : Type} (p q : A -> bool) (l : list A) :
  (forall x, p x = q x) -> find p l = find q l.
Proof.
  intro H. induction l as [| x l IH]; [reflexivity |].
  simpl. rewrite H, IH. reflexivity.
Qed.

(** The 64-bit range test accepts exactly the addresses of the ranges that
    end below [2^64]. *)
Lemma in_range_test (a s addr : Z) :
  0 <= a < 2 ^ 64 -> 0 <= s < 2 ^ 64 ->
  (a <=? addr) && (addr <? u64 (a + s)) = in_range a s addr.
Proof.
  intros Ha Hs. unfold in_range.
  destruct (Z.ltb_spec (a + s) (2 ^ 64)) as [Hnw | Hw].
  - rewrite (u64_small (a + s)) by lia. rewrite andb_true_r. reflexivity.
  - rewrite andb_false_r.
    assert (E : u64 (a + s) = a + s - 2 ^ 64).
    { unfold u64. symmetry. apply Z.mod_unique with (q := 1); lia. }
    rewrite E. destruct (Z.leb_spec a addr); [| reflexivity].
    destruct (Z.ltb_spec addr (a + s - 2 ^ 64)); [lia | reflexivity].
Qed.

Lemma segment_around_containing (m : macho) (l : list Z) (addr : Z) :
  segment_around m l addr = containing_segment m l addr.
Proof.
  unfold segment_around, containing_segment. apply find_pointwise.
  intro lc. unfold segment_contains. cbv zeta.
  rewrite (in_range_test _ _ addr (segment_vmaddr_range m lc)
             (segment_vmsize_range m lc)).
  reflexivity.
Qed.

Lemma section_containing_loop_find (m : macho) (addr : Z) (sect : Z) :
  forall n i,
    section_containing_loop m addr n (sect + i * section_struct_size m)
    = find (fun s => section_contains m s addr)
        (map (fun j => sect + j * section_struct_size m) (indices n i)).
Proof.
  induction n as [| n IH]; intro i; [reflexivity |].
  cbn [section_containing_loop indices map find].
  destruct (section_contains m (sect + i * section_struct_size m) addr);
    [reflexivity |].
  rewrite <- IH. f_equal. unfold section_struct_size. lia.
Qed.

Lemma section_around_containing (m : macho) (sc : Z) (addr : Z) :
  section_around m sc addr = macho_section_containing_address m sc addr.
Proof.
  unfold section_around, macho_section_containing_address. cbv zeta.
  fold (segment_command_size m).
  pose proof (section_containing_loop_find m addr
                (sc + segment_command_size m)
                (Z.to_nat (segment_nsects m sc)) 0) as H.
  rewrite Z.mul_0_l, Z.add_0_r in H. rewrite H. unfold section_of_segment.
  apply find_pointwise. intro s. unfold section_contains. cbv zeta.
  rewrite (in_range_test _ _ addr (section_addr_range m s)
             (section_size_range m s)).
  reflexivity.
Qed.

Lemma symbol_size_bounds_spec (m : macho) (l : list Z) (addr next : Z) :
  symbol_size_bounds m l addr next
  = size_bounds m (containing_segment m l addr) addr next.
Proof.
  unfold symbol_size_bounds, size_bounds.
  rewrite segment_around_containing.
  destruct (containing_segment m l addr) as [sc |]; [| reflexivity].
  rewrite section_around_containing. reflexivity.
Qed.

(** C4 (amended).  When the load commands of the image end (they are [l],
    found with [n] units of fuel), [guess_symbol_size] returns, for every
    address and next-symbol value, the minimum of (a) [next - addr] in 64-bit
    arithmetic when [next] is not [(uint64_t)-1], (b) the end of the section
    around [addr] minus [addr], and (c) the end of the segment around [addr]
    minus [addr], where the segment around [addr] is the first segment, in
    command order, with [vmaddr <= addr < vmaddr + vmsize < 2^64], and the
    section around [addr] is the first section of that segment with
    [addr' <= addr < addr' + size < 2^64] for its address [addr'] and its
    size: a range that reaches [2^64] holds no address.  It returns 0 when no
    bound applies, and also when that minimum is [(size_t)-1].
    [macho_guess_symbol_size] is the same with [next] taken from
    [macho_next_symbol], or "none" without a symtab. *)
Theorem guess_symbol_size_min_of_bounds (m : macho) (n : nat) (l : list Z)
    (fuel : nat) (addr next : Z)
    (Hcmds : commands_from n m None = Some l) (Hfuel : (n <= fuel)%nat) :
  guess_symbol_size fuel m addr next
  = Some (let mn := min_of_bounds (symbol_size_bounds m l addr next) in
          if mn =? UINT64_MAX then 0 else mn)
  /\ forall symtab,
       macho_guess_symbol_size fuel m symtab addr
       = Some (guessed_size
                 (symbol_size_bounds m l addr
                    (match symtab with
                     | Some st => macho_next_symbol m st addr
                     | None => UINT64_MAX
                     end))).
Proof.
  split.
  - rewrite symbol_size_bounds_spec.
    apply (guess_symbol_size_of_commands m n l fuel addr next Hcmds Hfuel).
  - intro symtab. unfold macho_guess_symbol_size.
    rewrite symbol_size_bounds_spec.
    apply (guess_symbol_size_of_commands m n l fuel); assumption.
Qed.

Lemma guess_symbol_size_min_of_bounds_witness :
  guess_symbol_size 3 sample_image 0x1000 0x1050 = Some 0x50
  /\ macho_guess_symbol_size 3 sample_image (Some sample_symtab) 0x1000
     = Some 0x50.
Proof.
  destruct (guess_symbol_size_min_of_bounds sample_image 3 [32; 184] 3
              0x1000 0x1050) as [H1 H2];
    [vm_compute; reflexivity | lia |].
  split.
  - rewrite H1. vm_compute. reflexivity.
  - rewrite (H2 (Some sample_symtab)). vm_compute. reflexivity.
Defined.

(** C4 as stated fails, in two ways.  The only bound on address 0 in the
    first image is the end of its segment, [2^64 - 1] bytes away, and the
    guess is 0.  In the second image the segment [2^64 - 0x1000 .. 2^64]
    holds the address [2^64 - 0x800], [0x800] bytes before its end, but the
    64-bit test of the code finds no segment for it, and the guess is 0. *)
Lemma guess_symbol_size_sentinel_counterexample :
  (macho_segment_containing_address 2 image_huge_segment 0 = Some (Some 32)
   /\ macho_section_containing_address image_huge_segment 32 0 = None
   /\ size_bounds image_huge_segment (Some 32) 0 UINT64_MAX = [2 ^ 64 - 1]
   /\ min_of_bounds (size_bounds image_huge_segment (Some 32) 0 UINT64_MAX)
      = 2 ^ 64 - 1
   /\ guess_symbol_size 2 image_huge_segment 0 UINT64_MAX = Some 0)
  /\ (commands_from 2 image_top_segment None = Some [32]
      /\ is_segment_command image_top_segment 32 = true
      /\ segment_vmaddr image_top_segment 32 = 2 ^ 64 - 0x1000
      /\ segment_vmsize image_top_segment 32 = 0x1000
      /\ segment_vmaddr image_top_segment 32 <= 2 ^ 64 - 0x800
         < segment_vmaddr image_top_segment 32
           + segment_vmsize image_top_segment 32
      /\ segment_vmaddr image_top_segment 32
         + segment_vmsize image_top_segment 32 - (2 ^ 64 - 0x800) = 0x800
      /\ macho_segment_containing_address 2 image_top_segment (2 ^ 64 - 0x800)
         = Some None
      /\ guess_symbol_size 2 image_top_segment (2 ^ 64 - 0x800) UINT64_MAX
         = Some 0).
Proof. vm_compute. repeat split; intro H; discriminate H. Qed.

(** ** C5: tighter bounds *)

Lemma segment_containing_loop_contains (m : macho) (addr : Z) (fuel : nat) :
  forall k lc sc,
    segment_containing_loop fuel k m addr lc = Some (Some sc) ->
    segment_contains m sc addr = true.
Proof.
  induction k as [| k IH]; intros lc sc H; [discriminate |].
  simpl in H. destruct (macho_next_segment fuel m lc) as [[lc' |] |];
    try discriminate.
  destruct (segment_contains m lc' addr) eqn:E.
  - injection H as <-. exact E.
  - eapply IH; eauto.
Qed.

Lemma guess_symbol_size_in_segment (fuel : nat) (m : macho) (addr next : Z)
    (sc : option Z) :
  macho_segment_containing_address fuel m addr = Some sc ->
  guess_symbol_size fuel m addr next
  = Some (guessed_size (size_bounds m sc addr next)).
Proof.
  intro H. apply guess_symbol_size_spec; [exact H |].
  intros lc ->. eapply segment_containing_loop_contains. exact H.
Qed.

Lemma size_bounds_positive (m : macho) (sc s : Z) (addr : Z) :
  segment_contains m sc addr = true ->
  macho_section_containing_address m sc addr = Some s ->
  0 < section_addr m s + section_size m s - addr < 2 ^ 64
  /\ 0 < segment_vmaddr m sc + segment_vmsize m sc - addr < 2 ^ 64.
Proof.
  intros Hsc Hs. apply section_containing_loop_contains in Hs.
  split.
  - apply (range_limited_size _ _ _ (section_addr_range m s)
             (section_size_range m s) Hs).
  - apply (range_limited_size _ _ _ (segment_vmaddr_range m sc)
             (segment_vmsize_range m sc) Hsc).
Qed.

(** C5 (amended).  A guessed size of 0 stands for "no bound known".  For a
    fixed starting address whose segment lookup ends:
    (1) replacing the next-symbol value by a closer one,
        [addr < next' <= next], never increases the guessed size unless the
        size guessed before is 0; [next] may be [(uint64_t)-1], so that a
        next symbol is supplied where there was none.  With a next symbol
        before, the size guessed before is never 0; and when it is 0,
        supplying a next symbol makes it positive;
    (2) when the lookups find the address in a section of a segment, an
        image in which they find it in a section that ends no later, with
        the same segment end and the same next-symbol value, never has a
        greater guessed size, unless the size guessed before is 0 while the
        first section ends [2^64 - 1] bytes or more after the address. *)
Theorem guess_symbol_size_monotone :
  (forall (fuel : nat) (m : macho) (addr next next' : Z) (sc : option Z),
      macho_segment_containing_address fuel m addr = Some sc ->
      0 <= addr -> addr < next' -> next' <= next -> next <= UINT64_MAX ->
      exists sz sz',
        guess_symbol_size fuel m addr next = Some sz
        /\ guess_symbol_size fuel m addr next' = Some sz'
        /\ (sz <> 0 -> sz' <= sz)
        /\ (next < UINT64_MAX -> sz <> 0)
        /\ (sz = 0 -> next' < UINT64_MAX -> sz < sz'))
  /\ (forall (fuel : nat) (m m' : macho) (addr next : Z) (sc sc' s s' : Z),
      macho_segment_containing_address fuel m addr = Some (Some sc) ->
      macho_segment_containing_address fuel m' addr = Some (Some sc') ->
      segment_vmaddr m' sc' + segment_vmsize m' sc'
        = segment_vmaddr m sc + segment_vmsize m sc ->
      macho_section_containing_address m sc addr = Some s ->
      macho_section_containing_address m' sc' addr = Some s' ->
      section_addr m' s' + section_size m' s'
        <= section_addr m s + section_size m s ->
      exists sz sz',
        guess_symbol_size fuel m addr next = Some sz
        /\ guess_symbol_size fuel m' addr next = Some sz'
        /\ (sz <> 0
            \/ section_addr m s + section_size m s - addr < UINT64_MAX ->
            sz' <= sz)).
Proof.
  assert (HM : UINT64_MAX = 2 ^ 64 - 1) by reflexivity.
  split.
  - intros fuel m addr next next' sc Hsc Haddr Hlt Hle Hmax.
    rewrite (guess_symbol_size_in_segment fuel m addr next sc Hsc).
    rewrite (guess_symbol_size_in_segment fuel m addr next' sc Hsc).
    eexists; eexists; split; [reflexivity | split; [reflexivity |]].
    unfold guessed_size, size_bounds, min_of_bounds.
    assert (Ea : next <> UINT64_MAX -> u64 (next - addr) = next - addr)
      by (intro; apply u64_small; lia).
    assert (Ea' : next' <> UINT64_MAX -> u64 (next' - addr) = next' - addr)
      by (intro; apply u64_small; lia).
    destruct sc as [sc0 |].
    + pose proof (range_limited_size _ _ _ (segment_vmaddr_range m sc0)
                    (segment_vmsize_range m sc0)
                    (segment_containing_loop_contains _ _ _ _ _ _ Hsc))
        as [_ Hg].
      set (G := segment_vmaddr m sc0 + segment_vmsize m sc0 - addr) in *.
      destruct (macho_section_containing_address m sc0 addr) as [s |] eqn:Es.
      * apply section_containing_loop_contains in Es.
        pose proof (range_limited_size _ _ _ (section_addr_range m s)
                      (section_size_range m s) Es) as [_ Hb].
        set (B := section_addr m s + section_size m s - addr) in *.
        destruct (Z.eqb_spec next UINT64_MAX) as [En | En];
          destruct (Z.eqb_spec next' UINT64_MAX) as [En' | En'];
          try rewrite (Ea En); try rewrite (Ea' En'); simpl;
          repeat match goal with
                 | |- context [?x =? ?y] => destruct (Z.eqb_spec x y)
                 end; lia.
      * destruct (Z.eqb_spec next UINT64_MAX) as [En | En];
          destruct (Z.eqb_spec next' UINT64_MAX) as [En' | En'];
          try rewrite (Ea En); try rewrite (Ea' En'); simpl;
          repeat match goal with
                 | |- context [?x =? ?y] => destruct (Z.eqb_spec x y)
                 end; lia.
    + destruct (Z.eqb_spec next UINT64_MAX) as [En | En];
        destruct (Z.eqb_spec next' UINT64_MAX) as [En' | En'];
        try rewrite (Ea En); try rewrite (Ea' En'); simpl;
        repeat match goal with
               | |- context [?x =? ?y] => destruct (Z.eqb_spec x y)
               end; lia.
  - intros fuel m m' addr next sc sc' s s' Hsc Hsc' Hseg Hs Hs' Hshrink.
    rewrite (guess_symbol_size_in_segment fuel m addr next _ Hsc).
    rewrite (guess_symbol_size_in_segment fuel m' addr next _ Hsc').
    eexists; eexists; split; [reflexivity | split; [reflexivity |]].
    pose proof (size_bounds_positive m sc s addr
                  (segment_containing_loop_contains _ _ _ _ _ _ Hsc) Hs)
      as [Hb Hg].
    pose proof (size_bounds_positive m' sc' s' addr
                  (segment_containing_loop_contains _ _ _ _ _ _ Hsc') Hs')
      as [Hb' Hg'].
    pose proof (u64_range (next - addr)) as Ha.
    unfold guessed_size, size_bounds, min_of_bounds.
    rewrite Hs, Hs', Hseg.
    set (B := section_addr m s + section_size m s) in *.
    set (B' := section_addr m' s' + section_size m' s') in *.
    set (G := segment_vmaddr m sc + segment_vmsize m sc) in *.
    set (A := u64 (next - addr)) in *.
    destruct (next =? UINT64_MAX); simpl;
      repeat match goal with
             | |- context [?x =? ?y] => destruct (Z.eqb_spec x y)
             end; lia.
Qed.

Lemma guess_symbol_size_monotone_witness :
  (exists sz sz',
      guess_symbol_size 3 sample_image 0x1000 UINT64_MAX = Some sz
      /\ guess_symbol_size 3 sample_image 0x1000 0x1050 = Some sz'
      /\ (sz <> 0 -> sz' <= sz)
      /\ (UINT64_MAX < UINT64_MAX -> sz <> 0)
      /\ (sz = 0 -> 0x1050 < UINT64_MAX -> sz < sz'))
  /\ (exists sz sz',
      guess_symbol_size 3 sample_image 0x1000 UINT64_MAX = Some sz
      /\ guess_symbol_size 3 (sample_image_with 0x40) 0x1000 UINT64_MAX = Some sz'
      /\ (sz <> 0
          \/ section_addr sample_image 104 + section_size sample_image 104
             - 0x1000 < UINT64_MAX ->
          sz' <= sz))
  /\ guess_symbol_size 3 sample_image 0x1000 UINT64_MAX = Some 0x100
  /\ guess_symbol_size 3 sample_image 0x1000 0x1050 = Some 0x50
  /\ guess_symbol_size 3 (sample_image_with 0x40) 0x1000 UINT64_MAX = Some 0x40.
Proof.
  split; [| split].
  - apply (proj1 guess_symbol_size_monotone 3%nat sample_image 0x1000
             UINT64_MAX 0x1050 (Some 32)); [vm_compute; reflexivity | | | |];
      vm_compute; congruence.
  - apply (proj2 guess_symbol_size_monotone 3%nat sample_image
             (sample_image_with 0x40) 0x1000 UINT64_MAX 32 32 104 104);
      vm_compute; congruence.
  - vm_compute. repeat split.
Defined.

(** C5 as stated fails: no segment of the sample image contains [0x5000];
    without a next symbol the guess there is 0, with a next symbol at
    [0x5010] it is 16. *)
Lemma guess_symbol_size_monotone_counterexample :
  guess_symbol_size 3 sample_image 0x5000 UINT64_MAX = Some 0
  /\ guess_symbol_size 3 sample_image 0x5000 0x5010 = Some 16
  /\ ~ (16 <= 0).
Proof. vm_compute. repeat split. intro H. apply H. reflexivity. Qed.

(** ** C10: macho_for_each_symbol *)

Lemma symtab_string_some (m : macho) (symtab strx p : Z) :
  macho_symtab_string m symtab strx = Some p ->
  4 <= strx < symtab_strsize m symtab /\ p = symtab_stroff m symtab + strx.
Proof.
  unfold macho_symtab_string.
  destruct (Z.ltb_spec strx 4); simpl; [discriminate |].
  destruct (Z.leb_spec (symtab_strsize m symtab) strx); [discriminate |].
  intro Hp. injection Hp as <-. split; [lia | reflexivity].
Qed.

Lemma for_each_symbol_loop_traced {C : Type} (m : macho) (symtab : Z)
    (callback : C -> Z -> Z -> C * bool) :
  forall n i context log,
    0 <= i -> i + Z.of_nat n <= symtab_nsyms m symtab ->
    Forall (fun call => exists j, visited_entry m symtab j call) log ->
    let r := for_each_symbol_loop m symtab (traced_callback callback) n i
               (context, log) in
    Forall (fun call => exists j, visited_entry m symtab j call) (snd r)
    /\ fst r = for_each_symbol_loop m symtab callback n i context.
Proof.
  induction n as [| n IH]; intros i context log Hi Hn Hlog; cbv zeta.
  - simpl. auto.
  - cbn [for_each_symbol_loop].
    destruct (negb (Z.land (nlist_n_type m (macho_get_nlist m symtab i)) N_STAB =? 0)
              || negb (Z.land (nlist_n_type m (macho_get_nlist m symtab i)) N_TYPE
                       =? N_SECT)) eqn:Eskip.
    + apply IH; auto; lia.
    + apply orb_false_elim in Eskip. destruct Eskip as [E1 E2].
      apply negb_false_iff in E1, E2. apply Z.eqb_eq in E1, E2.
      destruct (macho_symtab_string m symtab
                  (nlist_n_strx m (macho_get_nlist m symtab i)))
        as [symbol |] eqn:Es.
      * destruct (callback context symbol
                    (nlist_n_value m (macho_get_nlist m symtab i)))
          as [context' stop] eqn:Ec.
        assert (Et : traced_callback callback (context, log) symbol
                       (nlist_n_value m (macho_get_nlist m symtab i))
                     = ((context',
                         log ++ [(symbol,
                                  nlist_n_value m (macho_get_nlist m symtab i))]),
                        stop)).
        { unfold traced_callback. cbn [fst snd]. rewrite Ec. reflexivity. }
        rewrite Et. clear Et.
        assert (Hlog' : Forall (fun call => exists j, visited_entry m symtab j call)
                          (log ++ [(symbol,
                                    nlist_n_value m (macho_get_nlist m symtab i))])).
        { apply Forall_app. split; [exact Hlog |].
          constructor; [| constructor].
          exists i. pose proof (symtab_string_some _ _ _ _ Es) as [Hr Hp].
          unfold visited_entry. cbn [fst snd]. repeat split; auto; lia. }
        destruct stop.
        -- cbn [fst snd]. auto.
        -- apply IH; auto; lia.
      * apply IH; auto; lia.
Qed.

(** C10.  [macho_for_each_symbol] never invokes the callback with a null
    name: every invocation is for an entry that is not a debug entry, is
    section-relative and has a string index in [4 .. strsize - 1], and the
    name passed is the non-null pointer [stroff + n_strx] into the string
    blob (with the entry's [n_value] as address).  The log is that of all
    invocations, and keeping it does not change the client's context. *)
Theorem for_each_symbol_names_in_blob {C : Type} (m : macho) (symtab : Z)
    (callback : C -> Z -> Z -> C * bool) (context : C) :
  let r := macho_for_each_symbol m symtab (traced_callback callback)
             (context, []) in
  Forall (fun call =>
            (exists i, visited_entry m symtab i call)
            /\ symtab_stroff m symtab + 4 <= fst call
               < symtab_stroff m symtab + symtab_strsize m symtab)
         (snd r)
  /\ fst r = macho_for_each_symbol m symtab callback context.
Proof.
  cbv zeta. unfold macho_for_each_symbol.
  pose proof (load32_range (mh m) (symtab + 12)) as Hn.
  fold (symtab_nsyms m symtab) in Hn.
  destruct (for_each_symbol_loop_traced m symtab callback
              (Z.to_nat (symtab_nsyms m symtab)) 0 context [])
    as [H1 H2]; [lia | lia | constructor |].
  split; [| exact H2].
  eapply Forall_impl; [| exact H1].
  intros call [j Hj]. split; [exists j; exact Hj |].
  unfold visited_entry in Hj. cbv zeta in Hj. lia.
Qed.

(** ** C9 and C6: macho_resolve_address *)

Lemma resolve_address_loop_state (m : macho) (symtab : Z) (addr : Z) :
  forall n i best,
    0 <= i ->
    address_scan_state m symtab addr i best ->
    address_scan_state m symtab addr (i + Z.of_nat n)
      (resolve_address_loop m symtab addr n i best).
Proof.
  induction n as [| n IH]; intros i best Hi Hbest.
  - simpl. replace (i + 0) with i by lia. exact Hbest.
  - cbn [resolve_address_loop].
    replace (i + Z.of_nat (S n)) with ((i + 1) + Z.of_nat n) by lia.
    set (nl_i := macho_get_nlist m symtab i).
    destruct (Z.eqb_spec (Z.land (nlist_n_type m nl_i) N_TYPE) N_SECT)
      as [Et | Et]; cbn [negb].
    + set (v := nlist_n_value m nl_i).
      destruct (match best with
                | Some (_, _, sym_addr) => sym_addr <? v
                | None => true
                end && (v <=? addr)) eqn:Etake.
      * (* entry [i] becomes the best *)
        apply IH; [lia |]. apply andb_prop in Etake. destruct Etake as [E1 E2].
        apply Z.leb_le in E2.
        unfold address_scan_state. split; [reflexivity |].
        split; [reflexivity |].
        unfold address_winner. fold nl_i. fold v.
        split; [lia |]. split; [split; assumption |].
        assert (Hbelow : forall j, 0 <= j < i ->
                  address_candidate m symtab addr j ->
                  nlist_n_value m (macho_get_nlist m symtab j) < v).
        { intros j Hj Hc. destruct best as [[[sym idx] sa] |].
          - destruct Hbest as [-> [-> [_ [_ [Hmax _]]]]].
            apply Z.ltb_lt in E1. specialize (Hmax j Hj Hc). lia.
          - exfalso. exact (Hbest j Hj Hc). }
        split; intros j Hj Hc.
        -- destruct (Z.eq_dec j i) as [-> | Hne]; [fold nl_i; fold v; lia |].
           specialize (Hbelow j ltac:(lia) Hc). lia.
        -- intro Heq. destruct (Z.eq_dec j i) as [-> | Hne]; [lia |].
           specialize (Hbelow j ltac:(lia) Hc). lia.
      * (* the best is kept *)
        apply IH; [lia |].
        destruct best as [[[sym idx] sa] |].
        -- destruct Hbest as [-> [-> [Hr [Hc [Hmax Hlow]]]]].
           unfold address_scan_state. split; [reflexivity |].
           split; [reflexivity |].
           unfold address_winner. split; [lia |]. split; [exact Hc |].
           apply andb_false_iff in Etake.
           split; intros j Hj Hcj.
           ++ destruct (Z.eq_dec j i) as [-> | Hne]; [| apply Hmax; [lia | exact Hcj]].
              fold nl_i. fold v. destruct Etake as [E | E].
              ** apply Z.ltb_ge in E. exact E.
              ** apply Z.leb_gt in E. destruct Hcj as [_ Hcj]. fold nl_i in Hcj.
                 fold v in Hcj. lia.
           ++ intro Heq. destruct (Z.eq_dec j i) as [-> | Hne]; [lia |].
              apply Hlow; [lia | exact Hcj | exact Heq].
        -- simpl in Etake. apply Z.leb_gt in Etake.
           unfold address_scan_state in *. intros j Hj Hcj.
           destruct (Z.eq_dec j i) as [-> | Hne].
           ++ destruct Hcj as [_ Hcj]. fold nl_i in Hcj. fold v in Hcj. lia.
           ++ apply (Hbest j); [lia | exact Hcj].
    + (* not section-relative *)
      apply IH; [lia |].
      assert (Hni : ~ address_candidate m symtab addr i).
      { intros [Hc _]. fold nl_i in Hc. contradiction. }
      destruct best as [[[sym idx] sa] |].
      * destruct Hbest as [-> [-> [Hr [Hc [Hmax Hlow]]]]].
        unfold address_scan_state. split; [reflexivity |].
        split; [reflexivity |].
        unfold address_winner. split; [lia |]. split; [exact Hc |].
        split; intros j Hj Hcj.
        -- destruct (Z.eq_dec j i) as [-> | Hne]; [contradiction |].
           apply Hmax; [lia | exact Hcj].
        -- intro Heq. destruct (Z.eq_dec j i) as [-> | Hne]; [contradiction |].
           apply Hlow; [lia | exact Hcj | exact Heq].
      * unfold address_scan_state in *. intros j Hj Hcj.
        destruct (Z.eq_dec j i) as [-> | Hne]; [contradiction |].
        apply (Hbest j); [lia | exact Hcj].
Qed.

Lemma address_winner_unique (m : macho) (symtab addr k w w' : Z) :
  address_winner m symtab addr k w ->
  address_winner m symtab addr k w' -> w = w'.
Proof.
  intros [Hr [Hc [Hmax Hlow]]] [Hr' [Hc' [Hmax' Hlow']]].
  pose proof (Hmax w' Hr' Hc'). pose proof (Hmax' w Hr Hc).
  pose proof (Hlow w' Hr' Hc' ltac:(lia)).
  pose proof (Hlow' w Hr Hc ltac:(lia)). lia.
Qed.

Lemma symtab_nsyms_range (m : macho) (symtab : Z) :
  0 <= symtab_nsyms m symtab < 2 ^ 32.
Proof. apply load32_range. Qed.

Lemma resolve_address_loop_winner (m : macho) (symtab addr w : Z) :
  address_winner m symtab addr (symtab_nsyms m symtab) w ->
  resolve_address_loop m symtab addr (Z.to_nat (symtab_nsyms m symtab)) 0 None
  = Some (macho_get_nlist m symtab w, w,
          nlist_n_value m (macho_get_nlist m symtab w)).
Proof.
  intro Hw. pose proof (symtab_nsyms_range m symtab) as Hn.
  pose proof (resolve_address_loop_state m symtab addr
                (Z.to_nat (symtab_nsyms m symtab)) 0 None ltac:(lia)) as H.
  rewrite Z2Nat.id in H by lia. simpl (0 + _) in H.
  specialize (H ltac:(intros j Hj; lia)).
  destruct (resolve_address_loop m symtab addr _ 0 None) as [[[sym idx] sa] |].
  - destruct H as [-> [-> Hidx]].
    rewrite (address_winner_unique _ _ _ _ _ _ Hidx Hw). reflexivity.
  - exfalso. destruct Hw as [Hr [Hc _]]. exact (H w Hr Hc).
Qed.

Lemma guess_symbol_size_wanted (m : macho) (n : nat) (l : list Z)
    (fuel : nat) (want_size : bool) (addr next : Z) :
  (want_size = true -> commands_from n m None = Some l /\ (n <= fuel)%nat) ->
  want_size = true ->
  guess_symbol_size fuel m addr next
  = Some (guessed_size (size_bounds m (containing_segment m l addr) addr next)).
Proof.
  intros H E. destruct (H E) as [Hc Hle].
  apply (guess_symbol_size_of_commands m n l fuel addr next Hc Hle).
Qed.

Lemma resolve_address_of_winner (fuel : nat) (m : macho) (symtab addr w : Z)
    (want_name want_size want_offset : bool) (n : nat) (l : list Z) :
  address_winner m symtab addr (symtab_nsyms m symtab) w ->
  (want_size = true -> commands_from n m None = Some l /\ (n <= fuel)%nat) ->
  let sym := macho_get_nlist m symtab w in
  let sym_addr := nlist_n_value m sym in
  macho_resolve_address fuel m symtab addr want_name want_size want_offset
  = Some
      (if nlist_n_sect m sym =? NO_SECT
       then Build_address_resolution MACHO_ERROR None None None
       else Build_address_resolution MACHO_SUCCESS
              (if want_name
               then Some (macho_symtab_string m symtab (nlist_n_strx m sym))
               else None)
              (if want_size
               then Some (guessed_size
                            (size_bounds m (containing_segment m l sym_addr)
                               sym_addr (macho_next_symbol m symtab sym_addr)))
               else None)
              (if want_offset then Some (u64 (addr - sym_addr)) else None)).
Proof.
  intros Hw Hterm. cbv zeta. unfold macho_resolve_address.
  rewrite (resolve_address_loop_winner m symtab addr w Hw).
  destruct (nlist_n_sect m (macho_get_nlist m symtab w) =? NO_SECT);
    [reflexivity |].
  destruct want_size; [| reflexivity].
  rewrite (guess_symbol_size_wanted m n l fuel true _ _ Hterm eq_refl).
  reflexivity.
Qed.





(** C6 (amended).  For a section-relative entry [s] whose section index is
    not [NO_SECT] and whose address no other entry of the symbol table has,
    [macho_resolve_address] applied to that address succeeds and returns the
    name of [s] (the string at its string index) and offset 0.  (When the
    size is asked for as well, the load-command iteration must end.) *)
Theorem resolve_address_round_trip (fuel : nat) (m : macho) (symtab s : Z)
    (want_name want_size want_offset : bool) (n : nat) (l : list Z)
    (Hs : 0 <= s < symtab_nsyms m symtab)
    (Htype : Z.land (nlist_n_type m (macho_get_nlist m symtab s)) N_TYPE = N_SECT)
    (Hsect : nlist_n_sect m (macho_get_nlist m symtab s) <> NO_SECT)
    (Huniq : forall j, 0 <= j < symtab_nsyms m symtab -> j <> s ->
               nlist_n_value m (macho_get_nlist m symtab j)
               <> nlist_n_value m (macho_get_nlist m symtab s))
    (Hterm : want_size = true ->
             commands_from n m None = Some l /\ (n <= fuel)%nat) :
  exists r,
    macho_resolve_address fuel m symtab
      (nlist_n_value m (macho_get_nlist m symtab s))
      want_name want_size want_offset = Some r
    /\ ar_result r = MACHO_SUCCESS
    /\ ar_name r
       = (if want_name
          then Some (macho_symtab_string m symtab
                       (nlist_n_strx m (macho_get_nlist m symtab s)))
          else None)
    /\ ar_offset r = (if want_offset then Some 0 else None).
Proof.
  assert (Hw : address_winner m symtab
                 (nlist_n_value m (macho_get_nlist m symtab s))
                 (symtab_nsyms m symtab) s).
  { unfold address_winner, address_candidate.
    split; [exact Hs |]. split; [split; [exact Htype | lia] |].
    split; intros j Hj [_ Hle]; [exact Hle |].
    intro Heq. destruct (Z.eq_dec j s) as [-> | Hne]; [lia |].
    exfalso. exact (Huniq j Hj Hne Heq). }
  pose proof (resolve_address_of_winner fuel m symtab _ s want_name want_size
                want_offset n l Hw Hterm) as H.
  cbv zeta in H. rewrite H. clear H.
  destruct (Z.eqb_spec (nlist_n_sect m (macho_get_nlist m symtab s)) NO_SECT);
    [contradiction |].
  eexists. split; [reflexivity |]. cbn [ar_result ar_name ar_offset].
  split; [reflexivity |]. split; [reflexivity |].
  rewrite Z.sub_diag. reflexivity.
Qed.

Lemma resolve_address_round_trip_witness :
  exists r,
    macho_resolve_address 3 sample_image sample_symtab 0x1050 true true true
    = Some r
    /\ ar_result r = MACHO_SUCCESS
    /\ ar_name r = Some (Some 247)
    /\ ar_offset r = Some 0.
Proof.
  assert (E : symtab_nsyms sample_image sample_symtab = 2)
    by (vm_compute; reflexivity).
  apply (resolve_address_round_trip 3 sample_image sample_symtab 1
           true true true 3 [32; 184]).
  - rewrite E. lia.
  - vm_compute. reflexivity.
  - vm_compute. discriminate.
  - rewrite E. intros j Hj Hne. assert (j = 0) by lia. subst j.
    vm_compute. discriminate.
  - intros _. split; [vm_compute; reflexivity | lia].
Defined.

(** C6 as stated fails: entry 0 of this image is section-relative by type,
    is the only entry at [0x1000], and names no section; resolving [0x1000]
    is an error. *)
Lemma resolve_address_round_trip_counterexample :
  symtab_nsyms image_symbol_without_section sample_symtab = 2
  /\ Z.land (nlist_n_type image_symbol_without_section
               (macho_get_nlist image_symbol_without_section sample_symtab 0))
            N_TYPE = N_SECT
  /\ nlist_n_value image_symbol_without_section
       (macho_get_nlist image_symbol_without_section sample_symtab 0) = 0x1000
  /\ nlist_n_value image_symbol_without_section
       (macho_get_nlist image_symbol_without_section sample_symtab 1) = 0x1050
  /\ macho_resolve_address 3 image_symbol_without_section sample_symtab 0x1000
       true true true
     = Some (Build_address_resolution MACHO_ERROR None None None).
Proof. vm_compute. repeat split. Qed.

(** ** C7: the string table *)

Lemma byte_eqb_spec (a b : byte) : reflect (a = b) (Byte.eqb a b).
Proof.
  destruct (Byte.eqb a b) eqn:E; constructor.
  - apply Byte.byte_dec_bl. exact E.
  - apply Byte.eqb_false. exact E.
Qed.

Lemma skip_string_spec (mem : memory) :
  forall n str,
    str <= skip_string mem str n <= str + Z.of_nat n
    /\ (forall a, str <= a < skip_string mem str n -> mem a <> x00)
    /\ (skip_string mem str n < str + Z.of_nat n ->
        mem (skip_string mem str n) = x00).
Proof.
  induction n as [| n IH]; intro str.
  - simpl. repeat split; intros; lia.
  - cbn [skip_string]. destruct (byte_eqb_spec (mem str) x00) as [E | E]; cbn [negb].
    + repeat split; intros; try lia. exact E.
    + destruct (IH (str + 1)) as [Hr [Hn Hz]].
      split; [lia |]. split.
      * intros a Ha. destruct (Z.eq_dec a str) as [-> | Hne]; [exact E |].
        apply Hn. lia.
      * intro Hlt. apply Hz. lia.
Qed.

Lemma nth_skipn_nil (name : list byte) (p : nat) :
  skipn p name = [] -> nth p name x00 = x00.
Proof.
  revert name. induction p as [| p IH]; intros [| c name] H; simpl in *;
    try reflexivity; try discriminate. apply IH. exact H.
Qed.

Lemma nth_skipn_cons (name : list byte) (p : nat) (c : byte) (rest : list byte) :
  skipn p name = c :: rest -> nth p name x00 = c /\ skipn (S p) name = rest.
Proof.
  revert name. induction p as [| p IH]; intros [| d name] H; simpl in *;
    try discriminate.
  - injection H as -> ->. auto.
  - apply IH. exact H.
Qed.

Lemma nul_free_skipn (name : list byte) (p : nat) :
  nul_free name -> nul_free (skipn p name).
Proof.
  unfold nul_free. intro H. revert name H.
  induction p as [| p IH]; intros name H; [exact H |].
  destruct name as [| c name]; [constructor |].
  simpl. apply IH. inversion H; assumption.
Qed.

(** The three ways the comparison at one candidate ends. *)
Lemma match_candidate_cases (mem : memory) (name : list byte) (strx : Z) :
  nul_free name ->
  forall n p str,
    match match_candidate mem name strx p str n with
    | ScanReturn r =>
        (r = strx /\ cstring_eqb mem str (skipn p name) = true)
        \/ (r = 0 /\ forall a, str <= a < str + Z.of_nat n -> mem a <> x00)
    | ScanBreak str' =>
        str <= str' <= str + Z.of_nat n
        /\ (forall a, str <= a < str' -> mem a <> x00)
        /\ (str' < str + Z.of_nat n -> mem str' = x00)
    end.
Proof.
  intro Hnf. induction n as [| n IH]; intros p str.
  - simpl. right. split; [reflexivity | intros; lia].
  - cbn [match_candidate].
    destruct (byte_eqb_spec (name_char name p) (mem str)) as [Ec | Ec]; cbn [negb].
    + destruct (byte_eqb_spec (name_char name p) x00) as [Ez | Ez].
      * left. split; [reflexivity |].
        pose proof (nul_free_skipn name p Hnf) as Hs.
        destruct (skipn p name) as [| c rest] eqn:Esk.
        -- simpl. rewrite <- Ec, Ez. reflexivity.
        -- exfalso. apply nth_skipn_cons in Esk. destruct Esk as [Hc _].
           unfold name_char in Ez. rewrite Hc in Ez.
           inversion Hs; subst. contradiction.
      * specialize (IH (S p) (str + 1)).
        destruct (skipn p name) as [| c rest] eqn:Esk.
        { exfalso. apply nth_skipn_nil in Esk. contradiction. }
        apply nth_skipn_cons in Esk. destruct Esk as [Hc Hrest].
        unfold name_char in Ec, Ez. rewrite Hc in Ec, Ez.
        destruct (match_candidate mem name strx (S p) (str + 1) n) as [r | str'].
        -- destruct IH as [[Hr Hm] | [Hr Hn]].
           ++ left. split; [exact Hr |]. rewrite Hrest in Hm. simpl.
              rewrite Hm, <- Ec.
              destruct (byte_eqb_spec c x00); [contradiction |].
              destruct (byte_eqb_spec c c); [reflexivity | contradiction].
           ++ right. split; [exact Hr |]. intros a Ha.
              destruct (Z.eq_dec a str) as [-> | Hne]; [congruence |].
              apply Hn. lia.
        -- destruct IH as [Hr [Hn Hz]]. split; [lia |]. split.
           ++ intros a Ha.
              destruct (Z.eq_dec a str) as [-> | Hne]; [congruence |].
              apply Hn. lia.
           ++ intro Hlt. apply Hz. lia.
    + pose proof (skip_string_spec mem (S n) str) as [Hr [Hn Hz]].
      split; [exact Hr |]. split; assumption.
Qed.

(** A name stored at the candidate is matched. *)
Lemma match_candidate_stored (mem : memory) (name : list byte) (strx : Z) :
  forall n p str,
    cstring_eqb mem str (skipn p name) = true ->
    (length (skipn p name) < n)%nat ->
    match_candidate mem name strx p str n = ScanReturn strx.
Proof.
  induction n as [| n IH]; intros p str Hm Hlen; [lia |].
  cbn [match_candidate].
  destruct (skipn p name) as [| c rest] eqn:Esk.
  - apply nth_skipn_nil in Esk. unfold name_char. rewrite Esk.
    simpl in Hm. apply Byte.byte_dec_bl in Hm. rewrite Hm. reflexivity.
  - apply nth_skipn_cons in Esk. destruct Esk as [Hc Hrest].
    unfold name_char. rewrite Hc. simpl in Hm.
    apply andb_prop in Hm. destruct Hm as [Hm Hm3].
    apply andb_prop in Hm. destruct Hm as [Hm1 Hm2].
    apply Byte.byte_dec_bl in Hm2. rewrite Hm2.
    destruct (byte_eqb_spec c c); [| contradiction]. cbn [negb].
    apply negb_true_iff in Hm1. rewrite Hm1.
    apply IH; [rewrite Hrest; exact Hm3 | rewrite Hrest; simpl in Hlen; lia].
Qed.

Lemma cstring_eqb_nul_free (mem : memory) (name : list byte) :
  forall ptr, cstring_eqb mem ptr name = true -> nul_free name.
Proof.
  unfold nul_free. induction name as [| c rest IH]; intros ptr H; [constructor |].
  simpl in H. apply andb_prop in H. destruct H as [H H3].
  apply andb_prop in H. destruct H as [H1 _].
  constructor; [| eapply IH; eauto].
  apply negb_true_iff in H1. destruct (byte_eqb_spec c x00); [discriminate | assumption].
Qed.

Lemma symtab_strsize_range (m : macho) (symtab : Z) :
  0 <= symtab_strsize m symtab < 2 ^ 32.
Proof. apply load32_range. Qed.

Lemma u32_small (z : Z) : 0 <= z < 2 ^ 32 -> u32 z = z.
Proof. unfold u32. apply Z.mod_small. Qed.

Lemma string_index_loop_finds (m : macho) (symtab : Z) (name : list byte)
    (i : Z) :
  stored_at m symtab name i -> string_start m symtab i ->
  forall fuel c,
    4 <= c <= i -> (Z.to_nat (i - c) < fuel)%nat ->
    exists j,
      string_index_loop fuel (mh m) name (symtab_stroff m symtab)
        (symtab_stroff m symtab + c)
        (symtab_stroff m symtab + symtab_strsize m symtab) = Some j
      /\ c <= j <= i
      /\ cstring_eqb (mh m) (symtab_stroff m symtab + j) name = true.
Proof.
  intros [Hi [Hlen Hst]] Hstart.
  pose proof (symtab_strsize_range m symtab) as Hsz.
  pose proof (cstring_eqb_nul_free _ _ _ Hst) as Hnf.
  set (base := symtab_stroff m symtab) in *.
  set (strsize := symtab_strsize m symtab) in *.
  induction fuel as [| fuel IH]; intros c Hc Hfuel; [lia |].
  cbn [string_index_loop].
  replace (base + c - base) with c by lia.
  rewrite (u32_small c) by lia.
  replace (base + strsize - (base + c)) with (strsize - c) by lia.
  destruct (Z.eq_dec c i) as [-> | Hne].
  - rewrite (match_candidate_stored (mh m) name i (Z.to_nat (strsize - i)) 0
               (base + i)); [| exact Hst | simpl; lia].
    exists i. repeat split; [lia | lia | exact Hst].
  - assert (Hz : 5 <= i /\ mh m (base + i - 1) = x00).
    { destruct Hstart as [-> | H]; [lia | exact H]. }
    destruct Hz as [Hi5 Hz].
    pose proof (match_candidate_cases (mh m) name c Hnf
                  (Z.to_nat (strsize - c)) 0 (base + c)) as Hcases.
    rewrite Z2Nat.id in Hcases by lia.
    destruct (match_candidate (mh m) name c 0 (base + c)
                (Z.to_nat (strsize - c))) as [r | str'].
    + destruct Hcases as [[-> Hm] | [_ Hn]].
      * exists c. repeat split; [lia | lia | exact Hm].
      * exfalso. apply (Hn (base + i - 1)); [lia | exact Hz].
    + destruct Hcases as [Hr [Hn _]].
      assert (Hle : str' <= base + i - 1).
      { destruct (Z_le_gt_dec str' (base + i - 1)) as [| Hgt]; [assumption |].
        exfalso. apply (Hn (base + i - 1)); [lia | exact Hz]. }
      destruct (IH (str' + 1 - base)) as [j [Hj [Hrange Hm]]]; [lia | lia |].
      replace (base + (str' + 1 - base)) with (str' + 1) in Hj by lia.
      exists j. repeat split; [exact Hj | lia | lia | exact Hm].
Qed.

Lemma string_index_loop_sound (m : macho) (symtab : Z) (name : list byte) :
  nul_free name ->
  forall fuel c r,
    0 <= c ->
    string_index_loop fuel (mh m) name (symtab_stroff m symtab)
      (symtab_stroff m symtab + c)
      (symtab_stroff m symtab + symtab_strsize m symtab) = Some r ->
    r = 0
    \/ (c <= r < symtab_strsize m symtab
        /\ cstring_eqb (mh m) (symtab_stroff m symtab + r) name = true).
Proof.
  intro Hnf. pose proof (symtab_strsize_range m symtab) as Hsz.
  set (base := symtab_stroff m symtab) in *.
  set (strsize := symtab_strsize m symtab) in *.
  induction fuel as [| fuel IH]; intros c r Hc H; [discriminate |].
  cbn [string_index_loop] in H.
  replace (base + c - base) with c in H by lia.
  replace (base + strsize - (base + c)) with (strsize - c) in H by lia.
  destruct (Z_lt_ge_dec c strsize) as [Hlt | Hge].
  - rewrite (u32_small c) in H by lia.
    pose proof (match_candidate_cases (mh m) name c Hnf
                  (Z.to_nat (strsize - c)) 0 (base + c)) as Hcases.
    destruct (match_candidate (mh m) name c 0 (base + c)
                (Z.to_nat (strsize - c))) as [r' | str'].
    + injection H as <-. destruct Hcases as [[-> Hm] | [-> _]]; [| auto].
      right. split; [lia | exact Hm].
    + destruct Hcases as [Hr _].
      specialize (IH (str' + 1 - base) r ltac:(lia)).
      replace (base + (str' + 1 - base)) with (str' + 1) in IH by lia.
      destruct (IH H) as [-> | [Hrange Hm]]; [auto |].
      right. split; [lia | exact Hm].
  - replace (Z.to_nat (strsize - c)) with 0%nat in H by lia.
    simpl in H. injection H as <-. auto.
Qed.

Lemma match_candidate_break_ge (mem : memory) (name : list byte) (strx : Z) :
  forall n p str str',
    match_candidate mem name strx p str n = ScanBreak str' -> str <= str'.
Proof.
  induction n as [| n IH]; intros p str str' H; [discriminate |].
  cbn [match_candidate] in H.
  destruct (negb (Byte.eqb (name_char name p) (mem str))).
  - injection H as <-. apply (skip_string_spec mem (S n) str).
  - destruct (Byte.eqb (name_char name p) x00); [discriminate |].
    apply IH in H. lia.
Qed.

Lemma string_index_loop_total (mem : memory) (name : list byte)
    (base end_ : Z) :
  forall fuel str,
    (Z.to_nat (end_ - str) < fuel)%nat ->
    exists r, string_index_loop fuel mem name base str end_ = Some r.
Proof.
  induction fuel as [| fuel IH]; intros str Hfuel; [lia |].
  cbn [string_index_loop].
  destruct (match_candidate mem name (u32 (str - base)) 0 str
              (Z.to_nat (end_ - str))) as [r | str'] eqn:Em; [eauto |].
  pose proof (match_candidate_break_ge _ _ _ _ _ _ _ Em) as Hge.
  destruct (Z.to_nat (end_ - str)) as [| n] eqn:En; [discriminate |].
  apply IH. lia.
Qed.

Lemma string_index_loop_more_fuel (mem : memory) (name : list byte)
    (base end_ : Z) :
  forall fuel fuel' str r,
    string_index_loop fuel mem name base str end_ = Some r ->
    (fuel <= fuel')%nat ->
    string_index_loop fuel' mem name base str end_ = Some r.
Proof.
  induction fuel as [| fuel IH]; intros fuel' str r H Hle; [discriminate |].
  destruct fuel' as [| fuel']; [lia |].
  cbn [string_index_loop] in H |- *.
  destruct (match_candidate mem name (u32 (str - base)) 0 str
              (Z.to_nat (end_ - str))); [exact H |].
  apply (IH fuel'); [exact H | lia].
Qed.

(** The fuel of [macho_symtab_string_index] is enough: the scan returns, and
    more fuel gives the same index. *)
Lemma string_index_fuel_enough (m : macho) (symtab : Z) (name : list byte)
    (fuel : nat) :
  (S (Z.to_nat (symtab_strsize m symtab)) <= fuel)%nat ->
  macho_symtab_string_index_fuel fuel m symtab name
  = Some (macho_symtab_string_index m symtab name).
Proof.
  intro Hle. unfold macho_symtab_string_index, macho_symtab_string_index_fuel.
  pose proof (symtab_strsize_range m symtab) as Hsz.
  destruct (string_index_loop_total (mh m) name (symtab_stroff m symtab)
              (symtab_stroff m symtab + symtab_strsize m symtab)
              (S (Z.to_nat (symtab_strsize m symtab)))
              (symtab_stroff m symtab + 4)) as [r Hr]; [lia |].
  rewrite Hr. eapply string_index_loop_more_fuel; eauto.
Qed.

(** C7 (amended).  For a name stored with its terminator at a valid index of
    the string blob (at least 4, the name and its terminator strictly inside
    the blob) that is the start of a string (index 4, or the index after a
    terminator at a valid index), [macho_symtab_string_index] returns a valid
    index, not above that one, and [macho_symtab_string] at the returned
    index is a non-null pointer to a string equal to the name. *)
Theorem string_index_round_trip (m : macho) (symtab : Z) (name : list byte)
    (i : Z)
    (Hstored : stored_at m symtab name i)
    (Hstart : string_start m symtab i) :
  let strx := macho_symtab_string_index m symtab name in
  4 <= strx <= i
  /\ exists p,
       macho_symtab_string m symtab strx = Some p
       /\ cstring_eqb (mh m) p name = true.
Proof.
  cbv zeta. pose proof (symtab_strsize_range m symtab) as Hsz.
  pose proof Hstored as [Hi _].
  destruct (string_index_loop_finds m symtab name i Hstored Hstart
              (S (Z.to_nat (symtab_strsize m symtab))) 4)
    as [j [Hj [Hrange Hm]]]; [lia | lia |].
  unfold macho_symtab_string_index, macho_symtab_string_index_fuel.
  rewrite Hj. split; [lia |].
  exists (symtab_stroff m symtab + j). split; [| exact Hm].
  unfold macho_symtab_string.
  destruct (Z.ltb_spec j 4); [lia |].
  destruct (Z.leb_spec (symtab_strsize m symtab) j); [lia |].
  reflexivity.
Qed.

Lemma string_index_round_trip_witness :
  macho_symtab_string_index sample_image sample_symtab [x5f; x62] = 7
  /\ 4 <= macho_symtab_string_index sample_image sample_symtab [x5f; x62] <= 7
  /\ exists p,
       macho_symtab_string sample_image sample_symtab
         (macho_symtab_string_index sample_image sample_symtab [x5f; x62])
       = Some p
       /\ cstring_eqb (mh sample_image) p [x5f; x62] = true.
Proof.
  split; [vm_compute; reflexivity |].
  apply (string_index_round_trip sample_image sample_symtab [x5f; x62] 7).
  - unfold stored_at.
    replace (symtab_strsize sample_image sample_symtab) with 10
      by (vm_compute; reflexivity).
    simpl length. split; [lia |]. split; [lia |]. vm_compute. reflexivity.
  - right. split; [lia |]. vm_compute. reflexivity.
Defined.

(** C7 as stated fails: [ab] is stored with its terminator at the valid
    index 5 of this blob, inside the string [xab]; the reverse lookup does
    not find it and the lookup at the returned index 0 is [NULL]. *)
Lemma string_index_round_trip_counterexample :
  stored_at image_suffix_name 32 [x61; x62] 5
  /\ macho_symtab_string_index image_suffix_name 32 [x61; x62] = 0
  /\ macho_symtab_string image_suffix_name 32
       (macho_symtab_string_index image_suffix_name 32 [x61; x62]) = None.
Proof.
  split; [| split; vm_compute; reflexivity].
  unfold stored_at.
  replace (symtab_strsize image_suffix_name 32) with 8
    by (vm_compute; reflexivity).
  simpl length. split; [lia |]. split; [lia |]. vm_compute. reflexivity.
Qed.

(** ** C3: macho_resolve_symbol *)

Lemma find_indices_range (p : Z -> bool) :
  forall n i j,
    find p (indices n i) = Some j ->
    i <= j < i + Z.of_nat n /\ p j = true
    /\ forall k, i <= k < j -> p k = false.
Proof.
  induction n as [| n IH]; intros i j H; [discriminate |].
  cbn [indices find] in H. destruct (p i) eqn:E.
  - injection H as <-. split; [lia |]. split; [exact E | intros; lia].
  - destruct (IH _ _ H) as [Hr [Hp Hk]]. split; [lia |]. split; [exact Hp |].
    intros k Hk'. destruct (Z.eq_dec k i) as [-> | Hne]; [exact E |].
    apply Hk. lia.
Qed.

Lemma find_indices_none (p : Z -> bool) :
  forall n i,
    find p (indices n i) = None ->
    forall k, i <= k < i + Z.of_nat n -> p k = false.
Proof.
  induction n as [| n IH]; intros i H k Hk; [lia |].
  cbn [indices find] in H. destruct (p i) eqn:E; [discriminate |].
  destruct (Z.eq_dec k i) as [-> | Hne]; [exact E |].
  apply (IH (i + 1) H). lia.
Qed.

Lemma resolve_symbol_loop_spec (m : macho) (symtab strx : Z) :
  forall n i,
    resolve_symbol_loop m symtab strx n i
    = match find (fun i => nlist_n_strx m (macho_get_nlist m symtab i) =? strx)
              (indices n i) with
      | None => SymBreak 0 UINT32_MAX
      | Some j =>
          let nl := macho_get_nlist m symtab j in
          if Z.land (nlist_n_type m nl) N_TYPE =? N_UNDF
          then SymReturn MACHO_NOT_FOUND
          else if negb (Z.land (nlist_n_type m nl) N_TYPE =? N_SECT)
               then SymReturn MACHO_ERROR
               else SymBreak (nlist_n_value m nl) j
      end.
Proof.
  induction n as [| n IH]; intro i; [reflexivity |].
  cbn [resolve_symbol_loop indices find].
  destruct (nlist_n_strx m (macho_get_nlist m symtab i) =? strx);
    [reflexivity | apply IH].
Qed.

Lemma string_index_absent (m : macho) (symtab : Z) (name : list byte) :
  nul_free name -> name_absent m symtab name ->
  macho_symtab_string_index m symtab name = 0.
Proof.
  intros Hnf Habs. unfold macho_symtab_string_index, macho_symtab_string_index_fuel.
  destruct (string_index_loop _ _ _ _ _ _) as [r |] eqn:E; [| reflexivity].
  destruct (string_index_loop_sound m symtab name Hnf _ 4 r ltac:(lia) E)
    as [-> | [Hr Hm]]; [reflexivity |].
  rewrite (Habs r) in Hm by lia. discriminate.
Qed.

(** A candidate is returned as found only when the terminator of the name
    was compared inside the blob. *)
Lemma match_candidate_return_inside (mem : memory) (name : list byte)
    (strx : Z) :
  nul_free name ->
  forall n p str r,
    match_candidate mem name strx p str n = ScanReturn r ->
    r = 0 \/ (length (skipn p name) < n)%nat.
Proof.
  intro Hnf. induction n as [| n IH]; intros p str r H.
  - simpl in H. injection H as <-. left. reflexivity.
  - cbn [match_candidate] in H.
    destruct (negb (Byte.eqb (name_char name p) (mem str))); [discriminate |].
    pose proof (nul_free_skipn name p Hnf) as Hs.
    destruct (skipn p name) as [| c rest] eqn:Esk.
    + right. simpl. lia.
    + apply nth_skipn_cons in Esk. destruct Esk as [Hc Hrest].
      unfold name_char in H. rewrite Hc in H.
      destruct (byte_eqb_spec c x00) as [Ez | Ez].
      * inversion Hs; subst; contradiction.
      * apply IH in H. destruct H as [-> | H]; [left; reflexivity |].
        right. rewrite Hrest in H. simpl. lia.
Qed.

(** Every candidate of the scan starts a string, and what the scan returns
    is 0 or the index of a string of the blob equal to the name. *)
Lemma string_index_loop_start (m : macho) (symtab : Z) (name : list byte) :
  nul_free name ->
  forall fuel c r,
    4 <= c ->
    string_start m symtab c \/ symtab_strsize m symtab < c ->
    string_index_loop fuel (mh m) name (symtab_stroff m symtab)
      (symtab_stroff m symtab + c)
      (symtab_stroff m symtab + symtab_strsize m symtab) = Some r ->
    r = 0 \/ (stored_at m symtab name r /\ string_start m symtab r).
Proof.
  intro Hnf. pose proof (symtab_strsize_range m symtab) as Hsz.
  unfold stored_at, string_start.
  set (base := symtab_stroff m symtab) in *.
  set (strsize := symtab_strsize m symtab) in *.
  induction fuel as [| fuel IH]; intros c r Hc Hstart H; [discriminate |].
  cbn [string_index_loop] in H.
  replace (base + c - base) with c in H by lia.
  replace (base + strsize - (base + c)) with (strsize - c) in H by lia.
  destruct (Z_lt_ge_dec c strsize) as [Hlt | Hge].
  - rewrite (u32_small c) in H by lia.
    pose proof (match_candidate_cases (mh m) name c Hnf
                  (Z.to_nat (strsize - c)) 0 (base + c)) as Hcases.
    pose proof (match_candidate_return_inside (mh m) name c Hnf
                  (Z.to_nat (strsize - c)) 0 (base + c)) as Hinside.
    destruct (match_candidate (mh m) name c 0 (base + c)
                (Z.to_nat (strsize - c))) as [r' | str'].
    + injection H as <-.
      destruct (Hinside r' eq_refl) as [-> | Hlen]; [auto |].
      destruct Hcases as [[-> Hm] | [-> _]]; [| auto].
      right. simpl in Hlen. split.
      * split; [lia |]. split; [lia | exact Hm].
      * destruct Hstart as [Hs | Hs]; [exact Hs | lia].
    + destruct Hcases as [Hr [_ Hz]]. rewrite Z2Nat.id in Hr, Hz by lia.
      apply (IH (str' + 1 - base) r); [lia | |].
      * destruct (Z_lt_ge_dec str' (base + strsize)) as [Hin | Hout].
        -- left. right. split; [lia |].
           replace (base + (str' + 1 - base) - 1) with str' by lia.
           apply Hz. lia.
        -- right. lia.
      * replace (base + (str' + 1 - base)) with (str' + 1) by lia. exact H.
  - replace (Z.to_nat (strsize - c)) with 0%nat in H by lia.
    simpl in H. injection H as <-. auto.
Qed.

(** What [macho_symtab_string_index] returns: 0 when no string of the blob
    is the name, and otherwise the index of the first such string. *)
Lemma string_index_first (m : macho) (symtab : Z) (name : list byte) :
  nul_free name ->
  (macho_symtab_string_index m symtab name = 0
   /\ no_string_named m symtab name)
  \/ first_string_named m symtab name
       (macho_symtab_string_index m symtab name).
Proof.
  intro Hnf. pose proof (symtab_strsize_range m symtab) as Hsz.
  pose proof (string_index_fuel_enough m symtab name _ (le_n _)) as E.
  unfold macho_symtab_string_index_fuel in E.
  set (strx := macho_symtab_string_index m symtab name) in *.
  assert (Hfind : forall i, stored_at m symtab name i ->
                    string_start m symtab i -> 4 <= strx <= i).
  { intros i Hst Hss. pose proof Hst as [Hi _].
    destruct (string_index_loop_finds m symtab name i Hst Hss
                (S (Z.to_nat (symtab_strsize m symtab))) 4)
      as [j [Hj [Hr _]]]; [lia | lia |].
    rewrite E in Hj. injection Hj as ->. lia. }
  destruct (string_index_loop_start m symtab name Hnf _ 4 strx ltac:(lia)
              (or_introl (or_introl eq_refl)) E) as [Hz | [Hst Hss]].
  - left. split; [exact Hz |]. intros i Hst Hss.
    specialize (Hfind i Hst Hss). lia.
  - right. split; [exact Hst |]. split; [exact Hss |].
    intros i Hi1 Hi2. apply Hfind; assumption.
Qed.

(** Once the reverse lookup has found an index, the result is decided by the
    first entry with that string index. *)
Lemma resolve_symbol_by_entry (fuel : nat) (m : macho) (symtab : Z)
    (symbol : list byte) (want_addr want_size : bool) :
  macho_symtab_string_index m symtab symbol <> 0 ->
  macho_resolve_symbol fuel m symtab symbol want_addr want_size
  = match first_entry_named m symtab
            (macho_symtab_string_index m symtab symbol) with
    | None => Some (Build_symbol_resolution MACHO_NOT_FOUND None None)
    | Some i =>
        let nl := macho_get_nlist m symtab i in
        if Z.land (nlist_n_type m nl) N_TYPE =? N_UNDF
        then Some (Build_symbol_resolution MACHO_NOT_FOUND None None)
        else if negb (Z.land (nlist_n_type m nl) N_TYPE =? N_SECT)
             then Some (Build_symbol_resolution MACHO_ERROR None None)
             else
               let addr0 := nlist_n_value m nl in
               let addr := if want_addr then Some addr0 else None in
               if want_size
               then option_map
                      (fun sz =>
                         Build_symbol_resolution MACHO_SUCCESS addr (Some sz))
                      (guess_symbol_size fuel m addr0
                         (macho_next_symbol m symtab addr0))
               else Some (Build_symbol_resolution MACHO_SUCCESS addr None)
    end.
Proof.
  intro Hne. unfold macho_resolve_symbol. cbv zeta.
  destruct (Z.eqb_spec (macho_symtab_string_index m symtab symbol) 0)
    as [E | _]; [contradiction |].
  rewrite resolve_symbol_loop_spec. unfold first_entry_named.
  pose proof (symtab_nsyms_range m symtab) as Hn.
  destruct (find _ (indices (Z.to_nat (symtab_nsyms m symtab)) 0))
    as [j |] eqn:Ef; [| reflexivity].
  apply find_indices_range in Ef. destruct Ef as [Hj _].
  destruct (Z.land (nlist_n_type m (macho_get_nlist m symtab j)) N_TYPE =? N_UNDF);
    [reflexivity |].
  destruct (Z.land (nlist_n_type m (macho_get_nlist m symtab j)) N_TYPE =? N_SECT);
    cbn [negb]; [| reflexivity].
  destruct (Z.eqb_spec j UINT32_MAX) as [E | _];
    [unfold UINT32_MAX in E; lia |].
  destruct want_size; [| reflexivity].
  destruct (guess_symbol_size fuel m _ _); reflexivity.
Qed.

(** C3 (amended).  For a name (the characters of a C string) and every
    image and symtab, either no string of the blob is the name, or there is a
    first string of the blob that is the name; a string of the blob starts at
    index 4 or right after a terminator, and ends with its terminator inside
    the blob.  [macho_resolve_symbol] returns [MACHO_NOT_FOUND] when no
    string of the blob is the name, which is the case in particular when the
    name occurs nowhere in the blob.  Otherwise, with [j] the index of the
    first string that is the name, it considers only the first entry, in
    index order, whose string index is [j]: it returns [MACHO_NOT_FOUND] if
    there is no such entry or if that entry's type masked by [N_TYPE] is
    [N_UNDF], [MACHO_ERROR] if it is neither [N_UNDF] nor [N_SECT], and
    otherwise [MACHO_SUCCESS] with that entry's address and, when the size is
    asked for, the size [guess_symbol_size] gives at that address with the
    next symbol's address; that size is returned whenever the load-command
    iteration ends. *)
Theorem resolve_symbol_cases (fuel : nat) (m : macho) (symtab : Z)
    (symbol : list byte) (want_addr want_size : bool)
    (Hname : nul_free symbol) :
  let result :=
    macho_resolve_symbol fuel m symtab symbol want_addr want_size in
  let not_found := Some (Build_symbol_resolution MACHO_NOT_FOUND None None) in
  (no_string_named m symtab symbol
   \/ exists j, first_string_named m symtab symbol j)
  /\ (no_string_named m symtab symbol -> result = not_found)
  /\ (name_absent m symtab symbol -> result = not_found)
  /\ (forall j, first_string_named m symtab symbol j ->
        result
        = match first_entry_named m symtab j with
          | None => not_found
          | Some i =>
              let nl := macho_get_nlist m symtab i in
              if Z.land (nlist_n_type m nl) N_TYPE =? N_UNDF then not_found
              else if negb (Z.land (nlist_n_type m nl) N_TYPE =? N_SECT)
                   then Some (Build_symbol_resolution MACHO_ERROR None None)
                   else
                     let addr0 := nlist_n_value m nl in
                     let addr := if want_addr then Some addr0 else None in
                     if want_size
                     then option_map
                            (fun sz =>
                               Build_symbol_resolution MACHO_SUCCESS addr
                                 (Some sz))
                            (guess_symbol_size fuel m addr0
                               (macho_next_symbol m symtab addr0))
                     else Some (Build_symbol_resolution MACHO_SUCCESS addr None)
          end)
  /\ (forall n l addr0 next,
        commands_from n m None = Some l -> (n <= fuel)%nat ->
        guess_symbol_size fuel m addr0 next
        = Some (guessed_size
                  (size_bounds m (containing_segment m l addr0) addr0 next)))
  /\ (forall strx i, first_entry_named m symtab strx = Some i ->
        0 <= i < symtab_nsyms m symtab
        /\ nlist_n_strx m (macho_get_nlist m symtab i) = strx
        /\ forall k, 0 <= k < i ->
             nlist_n_strx m (macho_get_nlist m symtab k) <> strx)
  /\ (forall strx, first_entry_named m symtab strx = None ->
        forall k, 0 <= k < symtab_nsyms m symtab ->
          nlist_n_strx m (macho_get_nlist m symtab k) <> strx).
Proof.
  cbv zeta. pose proof (symtab_nsyms_range m symtab) as Hn.
  pose proof (string_index_first m symtab symbol Hname) as Hfirst.
  assert (Hnone : no_string_named m symtab symbol ->
                  macho_resolve_symbol fuel m symtab symbol want_addr want_size
                  = Some (Build_symbol_resolution MACHO_NOT_FOUND None None)).
  { intro Hno. destruct Hfirst as [[Hz _] | [Hst [Hss _]]].
    - unfold macho_resolve_symbol. rewrite Hz. reflexivity.
    - exfalso. exact (Hno _ Hst Hss). }
  split.
  { destruct Hfirst as [[_ Hno] | Hj]; [left; exact Hno | right; eauto]. }
  split; [exact Hnone |].
  split.
  { intro Habs. apply Hnone. intros i [Hi [_ Hm]] _.
    rewrite (Habs i Hi) in Hm. discriminate. }
  split.
  { intros j [Hst [Hss Hmin]].
    assert (Ej : macho_symtab_string_index m symtab symbol = j).
    { destruct Hfirst as [[_ Hno] | [Hst' [Hss' Hmin']]].
      - exfalso. exact (Hno _ Hst Hss).
      - specialize (Hmin _ Hst' Hss'). specialize (Hmin' _ Hst Hss). lia. }
    rewrite <- Ej. apply resolve_symbol_by_entry.
    destruct Hst as [Hj _]. lia. }
  split.
  { intros n l addr0 next Hcmds Hfuel.
    apply (guess_symbol_size_of_commands m n l fuel addr0 next Hcmds Hfuel). }
  unfold first_entry_named. split.
  - intros strx i Hf. apply find_indices_range in Hf.
    destruct Hf as [Hr [Hp Hk]]. split; [lia |].
    split; [apply Z.eqb_eq; exact Hp |].
    intros k Hk'. apply Z.eqb_neq. apply Hk. lia.
  - intros strx Hf k Hk. apply Z.eqb_neq.
    apply (find_indices_none _ _ _ Hf). lia.
Qed.

Lemma resolve_symbol_cases_witness :
  macho_resolve_symbol 3 sample_image sample_symtab [x5f; x61] true true
  = Some (Build_symbol_resolution MACHO_SUCCESS (Some 0x1000) (Some 0x50)).
Proof.
  pose proof (resolve_symbol_cases 3 sample_image sample_symtab [x5f; x61]
                true true ltac:(repeat constructor; discriminate))
    as [_ [_ [_ [H _]]]].
  rewrite (H 4); [vm_compute; reflexivity |].
  unfold first_string_named, stored_at.
  replace (symtab_strsize sample_image sample_symtab) with 10
    by (vm_compute; reflexivity).
  simpl length. split; [| split].
  - split; [lia |]. split; [lia |]. vm_compute. reflexivity.
  - left. reflexivity.
  - intros i [Hi _] _. lia.
Defined.

(** C3 as stated fails: the name [ab] is not absent from this blob, it is
    stored with its terminator at the valid index 5, and the only symbol
    entry, section-relative, has that string index, so that
    [macho_resolve_address] names the entry [ab]; yet [macho_resolve_symbol]
    returns [MACHO_NOT_FOUND] for [ab], because index 5 does not start a
    string and the reverse lookup yields 0. *)
Lemma resolve_symbol_cases_counterexample :
  stored_at image_suffix_symbol 32 [x61; x62] 5
  /\ ~ name_absent image_suffix_symbol 32 [x61; x62]
  /\ first_entry_named image_suffix_symbol 32 5 = Some 0
  /\ Z.land (nlist_n_type image_suffix_symbol
               (macho_get_nlist image_suffix_symbol 32 0)) N_TYPE = N_SECT
  /\ macho_symtab_string_index image_suffix_symbol 32 [x61; x62] = 0
  /\ macho_resolve_symbol 2 image_suffix_symbol 32 [x61; x62] true true
     = Some (Build_symbol_resolution MACHO_NOT_FOUND None None)
  /\ macho_resolve_address 2 image_suffix_symbol 32 0x1000 true false true
     = Some (Build_address_resolution MACHO_SUCCESS (Some (Some 77)) None
               (Some 0))
  /\ cstring_eqb (mh image_suffix_symbol) 77 [x61; x62] = true.
Proof.
  assert (Hst : stored_at image_suffix_symbol 32 [x61; x62] 5).
  { unfold stored_at.
    replace (symtab_strsize image_suffix_symbol 32) with 8
      by (vm_compute; reflexivity).
    simpl length. split; [lia |]. split; [lia |]. vm_compute. reflexivity. }
  split; [exact Hst |].
  split.
  { intro Habs. destruct Hst as [Hi [_ Hm]]. rewrite (Habs 5 Hi) in Hm.
    discriminate. }
  vm_compute. repeat split.
Qed.

(** ** C8: macho_search_data *)

Lemma find_load_command_reaches (m : macho) (cmd : Z) :
  forall fuel lc lc',
    lc_cursor m lc ->
    macho_find_load_command fuel m lc cmd = Some (Some lc') ->
    lc_reachable m lc' /\ lc_cmd m lc' = cmd.
Proof.
  induction fuel as [| fuel IH]; intros lc lc' Hlc H; [discriminate |].
  cbn [macho_find_load_command] in H.
  destruct (macho_next_load_command m lc) as [p |] eqn:En; [| discriminate].
  assert (Hp : lc_reachable m p).
  { destruct lc as [q |]; simpl in Hlc.
    - eapply lc_reach_next; eauto.
    - apply lc_reach_first. exact En. }
  destruct (Z.eqb_spec (lc_cmd m p) cmd) as [E | E].
  - injection H as <-. auto.
  - apply (IH (Some p) lc' Hp H).
Qed.

Lemma next_segment_reaches (m : macho) (fuel : nat) (lc : option Z) (lc' : Z) :
  lc_cursor m lc ->
  macho_next_segment fuel m lc = Some (Some lc') ->
  lc_reachable m lc' /\ is_segment_command m lc' = true.
Proof.
  intros Hlc H. unfold macho_next_segment in H.
  apply find_load_command_reaches in H; [| exact Hlc].
  destruct H as [Hr Hc]. split; [exact Hr |].
  unfold is_segment_command. apply Z.eqb_eq. exact Hc.
Qed.








(* ================================================================== *)
(** * Further properties of macho.c *)

(** ** The scans over the segments *)

Lemma find_none_filter {A : Type} (p : A -> bool) (l : list A) :
  find p l = None -> filter p l = [].
Proof.
  induction l as [| a l IH]; [reflexivity |].
  simpl. destruct (p a); [discriminate | exact IH].
Qed.

Lemma segments_of_split (m : macho) (l1 l2 : list Z) (x : Z) :
  find (is_segment_command m) l1 = None ->
  is_segment_command m x = true ->
  segments_of m (l1 ++ x :: l2) = x :: segments_of m l2.
Proof.
  intros Hn Hx. unfold segments_of. rewrite filter_app.
  rewrite (find_none_filter _ _ Hn). simpl. rewrite Hx. reflexivity.
Qed.

Lemma segment_scan_spec {A : Type} (m : macho) (body : Z -> option A) :
  forall k n lc l fuel,
    commands_from n m lc = Some l -> (n <= fuel)%nat -> (length l < k)%nat ->
    segment_scan fuel k m body lc = Some (first_some body (segments_of m l)).
Proof.
  induction k as [| k IH]; intros n lc l fuel H Hle Hk; [lia |].
  cbn [segment_scan]. rewrite (next_segment_spec m n lc l fuel H Hle).
  destruct (find (is_segment_command m) l) as [x |] eqn:Ef.
  - destruct (find_split _ _ _ Ef) as [l1 [l2 [-> [Hx Hn]]]].
    rewrite (segments_of_split m l1 l2 x Hn Hx). cbn [first_some].
    destruct (body x); [reflexivity |].
    destruct (commands_from_suffix m _ _ _ _ _ H) as [n' [Hn' Hs]].
    apply (IH n'); auto; try lia.
    rewrite length_app in Hk. simpl in Hk. lia.
  - unfold segments_of. rewrite (find_none_filter _ _ Ef). reflexivity.
Qed.

Lemma segment_scan_result {A : Type} (m : macho) (body : Z -> option A)
    (fuel : nat) :
  forall k lc r,
    lc_cursor m lc ->
    segment_scan fuel k m body lc = Some (Some r) ->
    exists sc,
      lc_reachable m sc /\ is_segment_command m sc = true /\ body sc = Some r.
Proof.
  induction k as [| k IH]; intros lc r Hlc H; [discriminate |].
  cbn [segment_scan] in H.
  destruct (macho_next_segment fuel m lc) as [[sc |] |] eqn:En;
    try discriminate.
  destruct (next_segment_reaches m fuel lc sc Hlc En) as [Hr Hs].
  destruct (body sc) as [r' |] eqn:Eb.
  - injection H as <-. exists sc. auto.
  - apply (IH (Some sc) r Hr H).
Qed.

Lemma find_segment_loop_scan (fuel : nat) (m : macho) (segname : list byte) :
  forall k lc,
    find_segment_loop fuel k m segname lc
    = segment_scan fuel k m (find_segment_body m segname) lc.
Proof.
  induction k as [| k IH]; intro lc; [reflexivity |].
  cbn [find_segment_loop segment_scan].
  destruct (macho_next_segment fuel m lc) as [[sc |] |]; try reflexivity.
  unfold find_segment_body at 1.
  destruct (negb (strcmp_eq (mh m) (segment_segname m sc) segname));
    [apply IH | reflexivity].
Qed.

Lemma find_base_loop_scan (fuel : nat) (m : macho) :
  forall k lc,
    find_base_loop fuel k m lc
    = match segment_scan fuel k m (find_base_body m) lc with
      | None => None
      | Some None => Some (MACHO_NOT_FOUND, None)
      | Some (Some base) => Some (MACHO_SUCCESS, Some base)
      end.
Proof.
  induction k as [| k IH]; intro lc; [reflexivity |].
  cbn [find_base_loop segment_scan].
  destruct (macho_next_segment fuel m lc) as [[sc |] |]; try reflexivity.
  unfold find_base_body at 1.
  destruct (negb (segment_fileoff m sc =? 0) || (segment_filesize m sc =? 0));
    [apply IH | reflexivity].
Qed.

Lemma search_data_loop_scan (fuel : nat) (m : macho) (data : list byte)
    (minprot : Z) :
  forall k lc,
    search_data_loop fuel k m data minprot lc
    = match segment_scan fuel k m (search_data_body m data minprot) lc with
      | None => None
      | Some None => Some (MACHO_NOT_FOUND, None)
      | Some (Some addr) => Some (MACHO_SUCCESS, Some addr)
      end.
Proof.
  induction k as [| k IH]; intro lc; [reflexivity |].
  cbn [search_data_loop segment_scan].
  destruct (macho_next_segment fuel m lc) as [[sc |] |]; try reflexivity.
  unfold search_data_body at 1.
  destruct (negb (Z.land (segment_initprot m sc) minprot =? minprot));
    [apply IH |].
  destruct (memmem (mh m) (segment_fileoff m sc) (segment_filesize m sc) data);
    [reflexivity | apply IH].
Qed.

Lemma first_some_find (p : Z -> bool) (l : list Z) :
  first_some (fun x => if p x then Some x else None) l = find p l.
Proof.
  induction l as [| a l IH]; [reflexivity |].
  simpl. destruct (p a); [reflexivity | exact IH].
Qed.

Lemma lc_reachable_range (m : macho) (lc : Z) :
  lc_reachable m lc ->
  macho_header_size m <= lc < macho_header_size m + mach_header_sizeofcmds m.
Proof.
  induction 1 as [lc H | lc lc' _ IH H];
    apply next_load_command_some in H; destruct H as [Hp Hlt];
    unfold cursor_after in Hp.
  - lia.
  - pose proof (lc_cmdsize_range m lc). lia.
Qed.

(** X1.  With a terminating command iteration, [macho_find_load_command]
    started from [NULL] returns the first command of the table with the given
    [cmd], and started from a command of the table it returns the first such
    command after it; in both cases [NULL] when there is none. *)
Theorem find_load_command_first_match (m : macho) (cmd : Z) (n : nat)
    (l : list Z) (fuel : nat)
    (Hcmds : commands_from n m None = Some l) (Hfuel : (n <= fuel)%nat) :
  macho_find_load_command fuel m None cmd
  = Some (find (fun x => lc_cmd m x =? cmd) l)
  /\ forall l1 lc l2, l = l1 ++ lc :: l2 ->
       macho_find_load_command fuel m (Some lc) cmd
       = Some (find (fun x => lc_cmd m x =? cmd) l2).
Proof.
  split.
  - apply (find_load_command_spec m cmd n None l fuel Hcmds Hfuel).
  - intros l1 lc l2 ->.
    destruct (commands_from_suffix m _ _ _ _ _ Hcmds) as [n' [Hn' Hs]].
    apply (find_load_command_spec m cmd n' (Some lc) l2 fuel Hs). lia.
Qed.

Lemma find_load_command_first_match_witness :
  macho_find_load_command 3 sample_image None 0x2 = Some (Some 184)
  /\ macho_find_load_command 3 sample_image (Some 32) LC_SEGMENT_64 = Some None.
Proof.
  destruct (find_load_command_first_match sample_image 0x2 3 [32; 184] 3)
    as [H1 _]; [vm_compute; reflexivity | lia |].
  destruct (find_load_command_first_match sample_image LC_SEGMENT_64 3
              [32; 184] 3) as [_ H2]; [vm_compute; reflexivity | lia |].
  split; [rewrite H1 | rewrite (H2 [] 32 [184] eq_refl)];
    vm_compute; reflexivity.
Defined.

(** X2.  Whatever the image, a command [macho_find_load_command] returns has
    the requested [cmd] and starts inside the command table the header
    declares, at or after the end of the header and before
    [header size + sizeofcmds]. *)
Theorem find_load_command_in_table (fuel : nat) (m : macho) (lc : option Z)
    (cmd : Z) (lc' : Z)
    (Hlc : lc_cursor m lc)
    (Hres : macho_find_load_command fuel m lc cmd = Some (Some lc')) :
  lc_cmd m lc' = cmd
  /\ macho_header_size m <= lc'
     < macho_header_size m + mach_header_sizeofcmds m.
Proof.
  destruct (find_load_command_reaches m cmd fuel lc lc' Hlc Hres) as [Hr Hc].
  split; [exact Hc | apply lc_reachable_range; exact Hr].
Qed.

Lemma find_load_command_in_table_witness :
  lc_cmd sample_image 184 = 0x2
  /\ macho_header_size sample_image <= 184
     < macho_header_size sample_image + mach_header_sizeofcmds sample_image.
Proof.
  apply (find_load_command_in_table 3 sample_image None 0x2 184 I).
  vm_compute. reflexivity.
Defined.

(** X3.  With a terminating command iteration, [macho_find_segment] returns
    the first segment command, in command order, whose [segname] compares
    equal to the requested name, and [NULL] when no segment has that name. *)
Theorem find_segment_first_named (m : macho) (segname : list byte) (n : nat)
    (l : list Z) (fuel : nat)
    (Hcmds : commands_from n m None = Some l) (Hfuel : (n <= fuel)%nat) :
  macho_find_segment fuel m segname
  = Some (find (fun sc => strcmp_eq (mh m) (segment_segname m sc) segname)
            (segments_of m l)).
Proof.
  unfold macho_find_segment. rewrite find_segment_loop_scan.
  rewrite (segment_scan_spec m _ fuel n None l fuel Hcmds Hfuel).
  2: { pose proof (commands_from_length m _ _ _ Hcmds). lia. }
  f_equal. rewrite <- first_some_find. unfold find_segment_body.
  clear. induction (segments_of m l) as [| a s IH]; [reflexivity |].
  simpl. destruct (strcmp_eq (mh m) (segment_segname m a) segname);
    simpl; [reflexivity | exact IH].
Qed.

Lemma find_segment_first_named_witness :
  macho_find_segment 3 sample_image [x5f; x5f; x54; x45; x58; x54]
  = Some (Some 32)
  /\ macho_find_segment 3 sample_image [x5f; x5f; x54; x45; x58] = Some None.
Proof.
  split.
  - rewrite (find_segment_first_named sample_image _ 3 [32; 184] 3);
      [vm_compute; reflexivity | vm_compute; reflexivity | lia].
  - rewrite (find_segment_first_named sample_image _ 3 [32; 184] 3);
      [vm_compute; reflexivity | vm_compute; reflexivity | lia].
Defined.

(** X4.  With a terminating command iteration, [macho_find_base] succeeds
    with the [vmaddr] of the first segment, in command order, whose [fileoff]
    is 0 and whose [filesize] is not 0, and returns [MACHO_NOT_FOUND] without
    writing [*base] when there is no such segment. *)
Theorem find_base_first_file_start (m : macho) (n : nat) (l : list Z)
    (fuel : nat)
    (Hcmds : commands_from n m None = Some l) (Hfuel : (n <= fuel)%nat) :
  macho_find_base fuel m
  = Some (match find (fun sc => (segment_fileoff m sc =? 0)
                                && negb (segment_filesize m sc =? 0))
                  (segments_of m l) with
          | Some sc => (MACHO_SUCCESS, Some (segment_vmaddr m sc))
          | None => (MACHO_NOT_FOUND, None)
          end).
Proof.
  unfold macho_find_base. rewrite find_base_loop_scan.
  rewrite (segment_scan_spec m _ fuel n None l fuel Hcmds Hfuel).
  2: { pose proof (commands_from_length m _ _ _ Hcmds). lia. }
  unfold find_base_body.
  induction (segments_of m l) as [| a s IH]; [reflexivity |].
  simpl. destruct (segment_fileoff m a =? 0); simpl;
    [destruct (segment_filesize m a =? 0); simpl |]; auto.
Qed.

Lemma find_base_first_file_start_witness :
  macho_find_base 3 sample_image = Some (MACHO_SUCCESS, Some 0x1000).
Proof.
  rewrite (find_base_first_file_start sample_image 3 [32; 184] 3);
    [vm_compute; reflexivity | vm_compute; reflexivity | lia].
Defined.

(** X5.  With a terminating command iteration, [macho_search_data] returns
    the address found in the first segment, in command order, whose initial
    protection includes [minprot] and whose file bytes contain the pattern,
    and [MACHO_NOT_FOUND] when no segment passes both tests. *)
Theorem search_data_first_segment (m : macho) (data : list byte) (minprot : Z)
    (n : nat) (l : list Z) (fuel : nat)
    (Hcmds : commands_from n m None = Some l) (Hfuel : (n <= fuel)%nat) :
  macho_search_data fuel m data minprot
  = Some (match first_some (search_data_body m data minprot) (segments_of m l) with
          | Some addr => (MACHO_SUCCESS, Some addr)
          | None => (MACHO_NOT_FOUND, None)
          end)
  /\ (first_some (search_data_body m data minprot) (segments_of m l) = None <->
      forall sc, In sc (segments_of m l) ->
        Z.land (segment_initprot m sc) minprot <> minprot
        \/ memmem (mh m) (segment_fileoff m sc) (segment_filesize m sc) data
           = None).
Proof.
  split.
  - unfold macho_search_data. rewrite search_data_loop_scan.
    rewrite (segment_scan_spec m _ fuel n None l fuel Hcmds Hfuel).
    2: { pose proof (commands_from_length m _ _ _ Hcmds). lia. }
    destruct (first_some _ _); reflexivity.
  - induction (segments_of m l) as [| a s IH].
    + simpl. split; [intros _ sc [] | reflexivity].
    + cbn [first_some]. unfold search_data_body at 1.
      destruct (Z.eqb_spec (Z.land (segment_initprot m a) minprot) minprot)
        as [Ep | Ep]; cbn [negb].
      * destruct (memmem (mh m) (segment_fileoff m a) (segment_filesize m a) data)
          as [found |] eqn:Em.
        -- split; [discriminate |]. intro H.
           destruct (H a (or_introl eq_refl)) as [Hc | Hc];
             [contradiction | rewrite Em in Hc; discriminate].
        -- rewrite IH. split.
           ++ intros H sc [<- | Hin]; [right; exact Em | apply H; exact Hin].
           ++ intros H sc Hin. apply H. right. exact Hin.
      * rewrite IH. split.
        -- intros H sc [<- | Hin]; [left; exact Ep | apply H; exact Hin].
        -- intros H sc Hin. apply H. right. exact Hin.
Qed.

Lemma search_data_first_segment_witness :
  macho_search_data 3 sample_image [x5f; x62; x00] 5
  = Some (MACHO_SUCCESS, Some 0x10f7)
  /\ macho_search_data 3 sample_image [x5f; x62; x00] 2
     = Some (MACHO_NOT_FOUND, None).
Proof.
  destruct (search_data_first_segment sample_image [x5f; x62; x00] 5 3
              [32; 184] 3) as [H1 _]; [vm_compute; reflexivity | lia |].
  destruct (search_data_first_segment sample_image [x5f; x62; x00] 2 3
              [32; 184] 3) as [H2 _]; [vm_compute; reflexivity | lia |].
  split; [rewrite H1 | rewrite H2]; vm_compute; reflexivity.
Defined.

Lemma find_filter {A : Type} (p q : A -> bool) (l : list A) :
  find q (filter p l) = find (fun x => p x && q x) l.
Proof.
  induction l as [| a l IH]; [reflexivity |].
  simpl. destruct (p a); simpl; [destruct (q a); auto | exact IH].
Qed.

(** X6.  With a terminating command iteration,
    [macho_segment_containing_address] returns the first segment, in command
    order, whose range test accepts the address, and [NULL] when none does;
    for the segment returned, [vmaddr <= addr < vmaddr + vmsize] holds
    exactly (the 64-bit sum did not wrap). *)
Theorem segment_containing_address_first (m : macho) (addr : Z) (n : nat)
    (l : list Z) (fuel : nat)
    (Hcmds : commands_from n m None = Some l) (Hfuel : (n <= fuel)%nat) :
  macho_segment_containing_address fuel m addr
  = Some (find (fun sc => segment_contains m sc addr) (segments_of m l))
  /\ forall sc,
       find (fun sc => segment_contains m sc addr) (segments_of m l) = Some sc ->
       segment_vmaddr m sc <= addr
       < segment_vmaddr m sc + segment_vmsize m sc.
Proof.
  split.
  - rewrite (segment_containing_address_spec m addr n l fuel Hcmds Hfuel).
    unfold segments_of. rewrite find_filter. reflexivity.
  - intros sc Hf. apply find_some_holds in Hf.
    pose proof (range_limited_size _ _ _ (segment_vmaddr_range m sc)
                  (segment_vmsize_range m sc) Hf) as [_ Hr].
    unfold segment_contains in Hf. apply andb_prop in Hf.
    destruct Hf as [Hle _]. apply Z.leb_le in Hle. lia.
Qed.

Lemma segment_containing_address_first_witness :
  macho_segment_containing_address 3 sample_image 0x2fff = Some (Some 32)
  /\ macho_segment_containing_address 3 sample_image 0x3000 = Some None.
Proof.
  destruct (segment_containing_address_first sample_image 0x2fff 3 [32; 184] 3)
    as [H1 _]; [vm_compute; reflexivity | lia |].
  destruct (segment_containing_address_first sample_image 0x3000 3 [32; 184] 3)
    as [H2 _]; [vm_compute; reflexivity | lia |].
  split; [rewrite H1 | rewrite H2]; vm_compute; reflexivity.
Defined.

Lemma section_scan_cases (m : macho) (p : Z -> bool) :
  forall n sect,
    match section_scan m p n sect with
    | Some s =>
        exists i, 0 <= i < Z.of_nat n
          /\ s = sect + i * section_struct_size m
          /\ p s = true
          /\ forall j, 0 <= j < i -> p (sect + j * section_struct_size m) = false
    | None =>
        forall j, 0 <= j < Z.of_nat n ->
          p (sect + j * section_struct_size m) = false
    end.
Proof.
  induction n as [| n IH]; intro sect.
  - simpl. intros; lia.
  - cbn [section_scan]. destruct (p sect) eqn:E.
    + exists 0. split; [lia |]. split; [lia |]. split; [exact E |].
      intros; lia.
    + specialize (IH (sect + section_struct_size m)).
      destruct (section_scan m p n (sect + section_struct_size m)) as [s |].
      * destruct IH as [i [Hi [Hs [Hp Hj]]]]. exists (i + 1).
        split; [lia |]. split; [lia |]. split; [exact Hp |].
        intros j Hj'. destruct (Z.eq_dec j 0) as [-> | Hne].
        -- replace (sect + 0 * section_struct_size m) with sect by lia. exact E.
        -- replace (sect + j * section_struct_size m)
             with (sect + section_struct_size m + (j - 1) * section_struct_size m)
             by lia.
           apply Hj. lia.
      * intros j Hj. destruct (Z.eq_dec j 0) as [-> | Hne].
        -- replace (sect + 0 * section_struct_size m) with sect by lia. exact E.
        -- replace (sect + j * section_struct_size m)
             with (sect + section_struct_size m + (j - 1) * section_struct_size m)
             by lia.
           apply IH. lia.
Qed.

Lemma section_containing_loop_scan (m : macho) (addr : Z) :
  forall n sect,
    section_containing_loop m addr n sect
    = section_scan m (fun s => section_contains m s addr) n sect.
Proof.
  induction n as [| n IH]; intro sect; [reflexivity |].
  cbn [section_containing_loop section_scan].
  destruct (section_contains m sect addr); [reflexivity | apply IH].
Qed.

Lemma find_section_loop_scan (m : macho) (sectname : list byte) :
  forall n sect,
    find_section_loop m sectname n sect
    = section_scan m
        (fun s => strcmp_eq (mh m) (section_sectname m s) sectname) n sect.
Proof.
  induction n as [| n IH]; intro sect; [reflexivity |].
  cbn [find_section_loop section_scan].
  destruct (strcmp_eq (mh m) (section_sectname m sect) sectname);
    [reflexivity | apply IH].
Qed.

Lemma segment_nsects_range (m : macho) (sc : Z) :
  0 <= segment_nsects m sc < 2 ^ 32.
Proof.
  unfold segment_nsects. destruct (macho_is_64 m); apply load32_range.
Qed.

(** X7.  [macho_section_containing_address] returns the first of the
    [nsects] section structs that follow the segment command whose range
    test accepts the address, for which [addr <= address < addr + size]
    holds exactly; it returns [NULL] when none of them accepts it, also when
    the segment itself contains the address. *)
Theorem section_containing_address_first (m : macho) (lc : Z) (addr : Z) :
  match macho_section_containing_address m lc addr with
  | Some s =>
      exists i, 0 <= i < segment_nsects m lc
        /\ s = section_of_segment m lc i
        /\ section_addr m s <= addr < section_addr m s + section_size m s
        /\ forall j, 0 <= j < i ->
             section_contains m (section_of_segment m lc j) addr = false
  | None =>
      forall j, 0 <= j < segment_nsects m lc ->
        section_contains m (section_of_segment m lc j) addr = false
  end.
Proof.
  unfold macho_section_containing_address. rewrite section_containing_loop_scan.
  pose proof (segment_nsects_range m lc) as Hn.
  pose proof (section_scan_cases m (fun s => section_contains m s addr)
                (Z.to_nat (segment_nsects m lc))
                (lc + segment_command_size m)) as H.
  fold (segment_command_size m).
  rewrite Z2Nat.id in H by lia. unfold section_of_segment.
  destruct (section_scan m _ _ _) as [s |].
  - destruct H as [i [Hi [Hs [Hp Hj]]]]. exists i.
    split; [exact Hi |]. split; [exact Hs |]. split; [| exact Hj].
    pose proof (range_limited_size _ _ _ (section_addr_range m s)
                  (section_size_range m s) Hp) as [_ Hr].
    unfold section_contains in Hp. apply andb_prop in Hp.
    destruct Hp as [Hle _]. apply Z.leb_le in Hle. lia.
  - exact H.
Qed.

(** X8.  [macho_find_section] returns the first of the [nsects] section
    structs that follow the segment command whose [sectname] compares equal
    to the requested name, and [NULL] when none does. *)
Theorem find_section_first_named (m : macho) (segment : Z)
    (sectname : list byte) :
  match macho_find_section m segment sectname with
  | Some s =>
      exists i, 0 <= i < segment_nsects m segment
        /\ s = section_of_segment m segment i
        /\ strcmp_eq (mh m) (section_sectname m s) sectname = true
        /\ forall j, 0 <= j < i ->
             strcmp_eq (mh m)
               (section_sectname m (section_of_segment m segment j)) sectname
             = false
  | None =>
      forall j, 0 <= j < segment_nsects m segment ->
        strcmp_eq (mh m)
          (section_sectname m (section_of_segment m segment j)) sectname
        = false
  end.
Proof.
  unfold macho_find_section. cbv zeta. rewrite find_section_loop_scan.
  pose proof (segment_nsects_range m segment) as Hn.
  pose proof (section_scan_cases m
                (fun s => strcmp_eq (mh m) (section_sectname m s) sectname)
                (Z.to_nat (segment_nsects m segment))
                (segment + segment_command_size m)) as H.
  rewrite Z2Nat.id in H by lia. unfold section_of_segment.
  destruct (section_scan m _ _ _) as [s |]; exact H.
Qed.

(** ** Sections by index *)

Lemma total_sections_nonneg (m : macho) (segs : list Z) :
  0 <= total_sections m segs.
Proof.
  induction segs as [| a s IH]; simpl; [lia |].
  pose proof (segment_nsects_range m a). lia.
Qed.

Lemma section_by_index_loop_spec (m : macho) (sect : Z) :
  0 <= sect < 2 ^ 32 ->
  forall k n lc l fuel idx,
    commands_from n m lc = Some l -> (n <= fuel)%nat -> (length l < k)%nat ->
    1 <= idx <= sect ->
    idx + total_sections m (segments_of m l) < 2 ^ 32 ->
    section_by_index_loop fuel k m sect lc idx
    = Some (nth_section m (segments_of m l) (sect - idx)).
Proof.
  intro Hsect.
  induction k as [| k IH]; intros n lc l fuel idx H Hle Hk Hidx Htot; [lia |].
  cbn [section_by_index_loop]. rewrite (next_segment_spec m n lc l fuel H Hle).
  destruct (find (is_segment_command m) l) as [x |] eqn:Ef.
  - destruct (find_split _ _ _ Ef) as [l1 [l2 [-> [Hx Hn]]]].
    rewrite (segments_of_split m l1 l2 x Hn Hx) in Htot |- *.
    cbn [nth_section]. simpl in Htot.
    pose proof (segment_nsects_range m x) as Hns.
    pose proof (total_sections_nonneg m (segments_of m l2)) as Ht.
    rewrite (u32_small (idx + segment_nsects m x)) by lia.
    destruct (Z.ltb_spec sect (idx + segment_nsects m x)) as [Hlt | Hge].
    + destruct (Z.ltb_spec (sect - idx) (segment_nsects m x)); [| lia].
      rewrite (u32_small (sect - idx)) by lia. reflexivity.
    + destruct (Z.ltb_spec (sect - idx) (segment_nsects m x)); [lia |].
      destruct (commands_from_suffix m _ _ _ _ _ H) as [n' [Hn' Hs]].
      rewrite (IH n' (Some x) l2 fuel (idx + segment_nsects m x)); auto; try lia.
      * f_equal. f_equal. lia.
      * rewrite length_app in Hk. simpl in Hk. lia.
  - unfold segments_of. rewrite (find_none_filter _ _ Ef). reflexivity.
Qed.

Lemma nth_section_cases (m : macho) :
  forall segs k,
    0 <= k ->
    match nth_section m segs k with
    | Some p =>
        exists s1 sc s2 i,
          segs = s1 ++ sc :: s2 /\ 0 <= i < segment_nsects m sc
          /\ k = total_sections m s1 + i /\ p = section_of_segment m sc i
    | None => total_sections m segs <= k
    end.
Proof.
  induction segs as [| a s IH]; intros k Hk.
  - simpl. lia.
  - cbn [nth_section]. pose proof (segment_nsects_range m a) as Hns.
    destruct (Z.ltb_spec k (segment_nsects m a)) as [Hlt | Hge].
    + exists [], a, s, k. simpl. repeat split; auto; lia.
    + specialize (IH (k - segment_nsects m a) ltac:(lia)).
      destruct (nth_section m s (k - segment_nsects m a)) as [p |].
      * destruct IH as [s1 [sc [s2 [i [-> [Hi [Hk' Hp]]]]]]].
        exists (a :: s1), sc, s2, i. simpl. repeat split; auto; lia.
      * simpl. lia.
Qed.

(** X9.  With a terminating command iteration and fewer than [2^32 - 1]
    sections in all, [macho_section_by_index] numbers the sections from 1
    across the segments in command order: index 0 and an index above the
    total give [NULL]; an index [1 + (sections of the segments before a
    segment) + i], with [i] below that segment's [nsects], gives the [i]-th
    section struct after that segment command. *)
Theorem section_by_index_numbering (m : macho) (sect : Z) (n : nat)
    (l : list Z) (fuel : nat)
    (Hcmds : commands_from n m None = Some l) (Hfuel : (n <= fuel)%nat)
    (Hsect : 0 <= sect < 2 ^ 32)
    (Htotal : 1 + total_sections m (segments_of m l) < 2 ^ 32) :
  match macho_section_by_index fuel m sect with
  | Some (Some p) =>
      exists s1 sc s2 i,
        segments_of m l = s1 ++ sc :: s2 /\ 0 <= i < segment_nsects m sc
        /\ sect = 1 + total_sections m s1 + i
        /\ p = section_of_segment m sc i
  | Some None => sect = 0 \/ total_sections m (segments_of m l) < sect
  | None => False
  end.
Proof.
  unfold macho_section_by_index.
  destruct (Z.ltb_spec sect 1) as [Hlt | Hge]; [left; lia |].
  rewrite (section_by_index_loop_spec m sect Hsect fuel n None l fuel 1
             Hcmds Hfuel); try lia.
  2: { pose proof (commands_from_length m _ _ _ Hcmds). lia. }
  pose proof (nth_section_cases m (segments_of m l) (sect - 1) ltac:(lia)) as H.
  destruct (nth_section m (segments_of m l) (sect - 1)) as [p |].
  - destruct H as [s1 [sc [s2 [i [Hs [Hi [Hk Hp]]]]]]].
    exists s1, sc, s2, i. repeat split; auto; lia.
  - right. lia.
Qed.

Lemma section_by_index_numbering_witness :
  macho_section_by_index 3 sample_image 1 = Some (Some 104)
  /\ macho_section_by_index 3 sample_image 2 = Some None
  /\ exists s1 sc s2 i,
       segments_of sample_image [32; 184] = s1 ++ sc :: s2
       /\ 0 <= i < segment_nsects sample_image sc
       /\ 1 = 1 + total_sections sample_image s1 + i
       /\ 104 = section_of_segment sample_image sc i.
Proof.
  split; [vm_compute; reflexivity |]. split; [vm_compute; reflexivity |].
  pose proof (section_by_index_numbering sample_image 1 3 [32; 184] 3) as H.
  replace (macho_section_by_index 3 sample_image 1) with (Some (Some 104)) in H
    by (vm_compute; reflexivity).
  apply H; [vm_compute; reflexivity | lia | lia | vm_compute; reflexivity].
Defined.

(** ** Symbols *)

Lemma next_symbol_loop_spec (m : macho) (symtab addr : Z) :
  forall n i next,
    let r := next_symbol_loop m symtab addr n i next in
    r <= next
    /\ (forall j, i <= j < i + Z.of_nat n ->
          addr < nlist_n_value m (macho_get_nlist m symtab j) ->
          r <= nlist_n_value m (macho_get_nlist m symtab j))
    /\ (r = next
        \/ (addr < r
            /\ exists j, i <= j < i + Z.of_nat n
                 /\ nlist_n_value m (macho_get_nlist m symtab j) = r)).
Proof.
  induction n as [| n IH]; intros i next; cbv zeta.
  - simpl. split; [lia |]. split; [intros; lia | auto].
  - cbn [next_symbol_loop].
    set (v := nlist_n_value m (macho_get_nlist m symtab i)).
    destruct (IH (i + 1) (if (addr <? v) && (v <? next) then v else next))
      as [Hle [Hmin Hex]].
    set (r := next_symbol_loop m symtab addr n (i + 1)
                (if (addr <? v) && (v <? next) then v else next)) in *.
    destruct (Z.ltb_spec addr v) as [Hav | Hav];
      destruct (Z.ltb_spec v next) as [Hvn | Hvn]; cbn [andb] in *.
    + split; [lia |]. split.
      * intros j Hj Hjv. destruct (Z.eq_dec j i) as [-> | Hne];
          [fold v; lia | apply Hmin; [lia | exact Hjv]].
      * right. destruct Hex as [-> | [Har [j [Hj Hv]]]].
        -- split; [exact Hav |]. exists i. split; [lia | reflexivity].
        -- split; [exact Har |]. exists j. split; [lia | exact Hv].
    + split; [lia |]. split.
      * intros j Hj Hjv. destruct (Z.eq_dec j i) as [-> | Hne];
          [fold v; lia | apply Hmin; [lia | exact Hjv]].
      * destruct Hex as [-> | [Har [j [Hj Hv]]]]; [auto |].
        right. split; [exact Har |]. exists j. split; [lia | exact Hv].
    + split; [lia |]. split.
      * intros j Hj Hjv. destruct (Z.eq_dec j i) as [-> | Hne];
          [fold v in Hjv; lia | apply Hmin; [lia | exact Hjv]].
      * destruct Hex as [-> | [Har [j [Hj Hv]]]]; [auto |].
        right. split; [exact Har |]. exists j. split; [lia | exact Hv].
    + split; [lia |]. split.
      * intros j Hj Hjv. destruct (Z.eq_dec j i) as [-> | Hne];
          [fold v in Hjv; lia | apply Hmin; [lia | exact Hjv]].
      * destruct Hex as [-> | [Har [j [Hj Hv]]]]; [auto |].
        right. split; [exact Har |]. exists j. split; [lia | exact Hv].
Qed.

(** X11.  [macho_next_symbol] returns the least [n_value] strictly above the
    address over all entries of the symbol table, whatever their type, and
    [(uint64_t)-1] when no entry lies above it; in particular the result is
    above every address other than [(uint64_t)-1] itself. *)
Theorem next_symbol_least_above (m : macho) (symtab addr : Z) :
  let r := macho_next_symbol m symtab addr in
  (forall j, 0 <= j < symtab_nsyms m symtab ->
     addr < nlist_n_value m (macho_get_nlist m symtab j) ->
     r <= nlist_n_value m (macho_get_nlist m symtab j))
  /\ (r = UINT64_MAX
      \/ exists j, 0 <= j < symtab_nsyms m symtab
           /\ nlist_n_value m (macho_get_nlist m symtab j) = r)
  /\ (addr < UINT64_MAX -> addr < r).
Proof.
  cbv zeta. unfold macho_next_symbol.
  pose proof (symtab_nsyms_range m symtab) as Hn.
  destruct (next_symbol_loop_spec m symtab addr
              (Z.to_nat (symtab_nsyms m symtab)) 0 UINT64_MAX) as [Hle [Hmin Hex]].
  rewrite Z2Nat.id in Hmin, Hex by lia. simpl (0 + _) in Hmin, Hex.
  split; [exact Hmin |]. split.
  - destruct Hex as [-> | [_ [j [Hj Hv]]]]; [auto | right; eauto].
  - intro Ha. destruct Hex as [-> | [Har _]]; assumption.
Qed.

(** X12.  The index [macho_symtab_string_index] returns for a name is 0 or a
    valid index of the blob, at which [macho_symtab_string] is a non-null
    pointer to a string equal to the name: the reverse lookup never yields
    an index that holds a different string, and it yields 0 for every name
    when the blob has no more than 4 bytes. *)
Theorem string_index_sound (m : macho) (symtab : Z) (name : list byte)
    (Hname : nul_free name) :
  let strx := macho_symtab_string_index m symtab name in
  (strx = 0
   \/ (4 <= strx < symtab_strsize m symtab
       /\ macho_symtab_string m symtab strx
          = Some (symtab_stroff m symtab + strx)
       /\ cstring_eqb (mh m) (symtab_stroff m symtab + strx) name = true))
  /\ (symtab_strsize m symtab <= 4 -> strx = 0).
Proof.
  cbv zeta.
  assert (H : macho_symtab_string_index m symtab name = 0
              \/ (4 <= macho_symtab_string_index m symtab name
                       < symtab_strsize m symtab
                  /\ cstring_eqb (mh m)
                       (symtab_stroff m symtab
                        + macho_symtab_string_index m symtab name) name = true)).
  { unfold macho_symtab_string_index, macho_symtab_string_index_fuel.
    destruct (string_index_loop _ _ _ _ _ _) as [r |] eqn:E; [| auto].
    apply (string_index_loop_sound m symtab name Hname _ 4 r ltac:(lia) E). }
  split.
  - destruct H as [H | [Hr Hm]]; [auto |]. right.
    split; [exact Hr |]. split; [| exact Hm].
    unfold macho_symtab_string.
    destruct (Z.ltb_spec (macho_symtab_string_index m symtab name) 4); [lia |].
    destruct (Z.leb_spec (symtab_strsize m symtab)
                (macho_symtab_string_index m symtab name)); [lia |].
    reflexivity.
  - intro Hs. destruct H as [H | [Hr _]]; [exact H | lia].
Qed.

Lemma string_index_sound_witness :
  (macho_symtab_string_index sample_image sample_symtab [x5f; x61] = 0
   \/ (4 <= macho_symtab_string_index sample_image sample_symtab [x5f; x61]
       < symtab_strsize sample_image sample_symtab
       /\ macho_symtab_string sample_image sample_symtab
            (macho_symtab_string_index sample_image sample_symtab [x5f; x61])
          = Some (symtab_stroff sample_image sample_symtab
                  + macho_symtab_string_index sample_image sample_symtab
                      [x5f; x61])
       /\ cstring_eqb (mh sample_image)
            (symtab_stroff sample_image sample_symtab
             + macho_symtab_string_index sample_image sample_symtab [x5f; x61])
            [x5f; x61] = true))
  /\ (symtab_strsize sample_image sample_symtab <= 4 ->
      macho_symtab_string_index sample_image sample_symtab [x5f; x61] = 0).
Proof.
  apply (string_index_sound sample_image sample_symtab [x5f; x61]).
  repeat constructor; discriminate.
Defined.

Lemma for_each_symbol_loop_prefix {C : Type} (m : macho) (symtab : Z)
    (callback : C -> Z -> Z -> C * bool) :
  forall n i context log,
    exists pre rest,
      visible_symbols_from m symtab n i = pre ++ rest
      /\ snd (for_each_symbol_loop m symtab (traced_callback callback) n i
                (context, log)) = log ++ pre
      /\ ((forall c symbol address, snd (callback c symbol address) = false) ->
          rest = [])
      /\ ((forall c symbol address, snd (callback c symbol address) = true) ->
          pre = firstn 1 (visible_symbols_from m symtab n i)).
Proof.
  induction n as [| n IH]; intros i context log.
  - exists [], []. simpl. rewrite app_nil_r. auto.
  - unfold visible_symbols_from. cbn [indices flat_map for_each_symbol_loop].
    fold (visible_symbols_from m symtab n (i + 1)).
    destruct (negb (Z.land (nlist_n_type m (macho_get_nlist m symtab i)) N_STAB =? 0)
              || negb (Z.land (nlist_n_type m (macho_get_nlist m symtab i)) N_TYPE
                       =? N_SECT)).
    + apply IH.
    + destruct (macho_symtab_string m symtab
                  (nlist_n_strx m (macho_get_nlist m symtab i))) as [symbol |].
      * set (address := nlist_n_value m (macho_get_nlist m symtab i)).
        destruct (callback context symbol address) as [context' stop] eqn:Ec.
        assert (Et : traced_callback callback (context, log) symbol address
                     = ((context', log ++ [(symbol, address)]), stop)).
        { unfold traced_callback. cbn [fst snd]. rewrite Ec. reflexivity. }
        rewrite Et. destruct stop.
        -- exists [(symbol, address)], (visible_symbols_from m symtab n (i + 1)).
           cbn [snd]. split; [reflexivity |]. split; [reflexivity |].
           split; [| reflexivity].
           intro Hns. specialize (Hns context symbol address).
           rewrite Ec in Hns. discriminate.
        -- destruct (IH (i + 1) context' (log ++ [(symbol, address)]))
             as [pre [rest [Hv [Hl [Hr Hs]]]]].
           exists ((symbol, address) :: pre), rest.
           split; [simpl; rewrite Hv; reflexivity |].
           split; [rewrite Hl, <- app_assoc; reflexivity |].
           split; [exact Hr |].
           intro Has. specialize (Has context symbol address).
           rewrite Ec in Has. discriminate.
      * apply IH.
Qed.

(** X13.  [macho_for_each_symbol] passes the symbols it does not skip to the
    callback in symbol-table order, each at most once: the calls made are an
    initial part of the list of visible symbols, all of it when the callback
    never asks to stop, and only the first one when it always does. *)
Theorem for_each_symbol_in_order {C : Type} (m : macho) (symtab : Z)
    (callback : C -> Z -> Z -> C * bool) (context : C) :
  let calls := snd (macho_for_each_symbol m symtab (traced_callback callback)
                      (context, [])) in
  exists rest,
    visible_symbols m symtab = calls ++ rest
    /\ ((forall c symbol address, snd (callback c symbol address) = false) ->
        rest = [])
    /\ ((forall c symbol address, snd (callback c symbol address) = true) ->
        calls = firstn 1 (visible_symbols m symtab)).
Proof.
  cbv zeta. unfold macho_for_each_symbol, visible_symbols.
  destruct (for_each_symbol_loop_prefix m symtab callback
              (Z.to_nat (symtab_nsyms m symtab)) 0 context [])
    as [pre [rest [Hv [Hl [Hr Hs]]]]].
  exists rest. rewrite Hl. simpl. auto.
Qed.

(** X14.  [macho_resolve_address] returns [MACHO_NOT_FOUND] exactly when no
    entry of the symbol table is section-relative with an address at or
    below the queried one; it then writes no output and never consults the
    load commands. *)
Theorem resolve_address_not_found_iff (fuel : nat) (m : macho)
    (symtab addr : Z) (want_name want_size want_offset : bool) :
  (forall j, 0 <= j < symtab_nsyms m symtab ->
     ~ address_candidate m symtab addr j)
  <-> macho_resolve_address fuel m symtab addr want_name want_size want_offset
      = Some (Build_address_resolution MACHO_NOT_FOUND None None None).
Proof.
  pose proof (symtab_nsyms_range m symtab) as Hn.
  pose proof (resolve_address_loop_state m symtab addr
                (Z.to_nat (symtab_nsyms m symtab)) 0 None ltac:(lia)) as H.
  rewrite Z2Nat.id in H by lia. simpl (0 + _) in H.
  specialize (H ltac:(intros j Hj; lia)).
  unfold macho_resolve_address.
  destruct (resolve_address_loop m symtab addr _ 0 None) as [[[sym idx] sa] |].
  - destruct H as [-> [-> [Hr [Hc _]]]]. split.
    + intro Hno. exfalso. exact (Hno idx Hr Hc).
    + intro Hres. exfalso.
      destruct (nlist_n_sect m (macho_get_nlist m symtab idx) =? NO_SECT);
        [discriminate |].
      destruct want_size; [| discriminate].
      destruct (guess_symbol_size fuel m _ _); discriminate.
  - split; [reflexivity | intros _; exact H].
Qed.

Lemma min_of_bounds_le_last (l : list Z) (g : Z) :
  min_of_bounds (l ++ [g]) <= g.
Proof.
  unfold min_of_bounds. destruct l as [| b bs]; simpl; [lia |].
  induction bs as [| c bs IH]; simpl; lia.
Qed.

Lemma min_of_bounds_le_in (l : list Z) (x : Z) :
  In x l -> min_of_bounds l <= x.
Proof.
  unfold min_of_bounds. destruct l as [| b bs]; [intros [] |].
  intros [<- | Hin].
  - induction bs as [| c bs IH]; simpl; lia.
  - induction bs as [| c bs IH]; [destruct Hin |].
    simpl. destruct Hin as [<- | Hin]; [lia | specialize (IH Hin); lia].
Qed.

Lemma min_of_bounds_nonneg (l : list Z) :
  Forall (fun x => 0 <= x) l -> 0 <= min_of_bounds l.
Proof.
  unfold min_of_bounds. destruct l as [| b bs]; [lia |].
  intro H. inversion H as [| ? ? Hb Hbs]; subst.
  induction bs as [| c bs IH]; simpl; [lia |].
  inversion Hbs; subst. specialize (IH ltac:(constructor; assumption)
                                      ltac:(assumption)). lia.
Qed.

(** X15.  When a segment contains the address, the size [guess_symbol_size]
    returns never reaches past the end of that segment, nor past the end of
    the section of it that contains the address: [addr + size] is at most
    each of these ends, and the size is not negative. *)
Theorem guess_symbol_size_within_bounds (fuel : nat) (m : macho)
    (addr next sc : Z)
    (Hsc : macho_segment_containing_address fuel m addr = Some (Some sc)) :
  exists sz,
    guess_symbol_size fuel m addr next = Some sz
    /\ 0 <= sz
    /\ addr + sz <= segment_vmaddr m sc + segment_vmsize m sc
    /\ forall s, macho_section_containing_address m sc addr = Some s ->
         addr + sz <= section_addr m s + section_size m s.
Proof.
  rewrite (guess_symbol_size_in_segment fuel m addr next _ Hsc).
  eexists. split; [reflexivity |].
  pose proof (segment_containing_loop_contains _ _ _ _ _ _ Hsc) as Hin.
  pose proof (range_limited_size _ _ _ (segment_vmaddr_range m sc)
                (segment_vmsize_range m sc) Hin) as [_ Hg].
  pose proof (u64_range (next - addr)) as Ha.
  set (bounds := size_bounds m (Some sc) addr next).
  assert (Hnn : 0 <= min_of_bounds bounds).
  { apply min_of_bounds_nonneg. unfold bounds, size_bounds.
    apply Forall_app. split.
    - destruct (next =? UINT64_MAX); repeat constructor. lia.
    - apply Forall_app. split; [| repeat constructor; lia].
      destruct (macho_section_containing_address m sc addr) as [s |] eqn:Es;
        [| constructor].
      pose proof (size_bounds_positive m sc s addr Hin Es) as [Hb _].
      repeat constructor. lia. }
  assert (Hseg : min_of_bounds bounds
                 <= segment_vmaddr m sc + segment_vmsize m sc - addr).
  { unfold bounds, size_bounds. rewrite app_assoc. apply min_of_bounds_le_last. }
  assert (Hle : 0 <= guessed_size bounds <= min_of_bounds bounds).
  { unfold guessed_size. destruct (min_of_bounds bounds =? UINT64_MAX); lia. }
  split; [lia |]. split; [lia |].
  intros s Es.
  assert (Hsect : min_of_bounds bounds
                  <= section_addr m s + section_size m s - addr).
  { apply min_of_bounds_le_in. unfold bounds, size_bounds. rewrite Es.
    apply in_or_app. right. left. reflexivity. }
  lia.
Qed.

Lemma guess_symbol_size_within_bounds_witness :
  exists sz,
    guess_symbol_size 3 sample_image 0x1080 UINT64_MAX = Some sz
    /\ 0 <= sz
    /\ 0x1080 + sz
       <= segment_vmaddr sample_image 32 + segment_vmsize sample_image 32
    /\ forall s,
         macho_section_containing_address sample_image 32 0x1080 = Some s ->
         0x1080 + sz <= section_addr sample_image s + section_size sample_image s.
Proof.
  apply (guess_symbol_size_within_bounds 3 sample_image 0x1080 UINT64_MAX 32).
  vm_compute. reflexivity.
Defined.

(** X16.  A symbol [macho_resolve_symbol] resolves is named in the symbol
    table: on [MACHO_SUCCESS] some entry is section-relative, its string
    index is a valid index of the blob at which the string equals the
    requested symbol, and the address written is that entry's [n_value]. *)
Theorem resolve_symbol_success_entry (fuel : nat) (m : macho) (symtab : Z)
    (symbol : list byte) (want_addr want_size : bool) (r : symbol_resolution)
    (Hname : nul_free symbol)
    (Hres : macho_resolve_symbol fuel m symtab symbol want_addr want_size
            = Some r)
    (Hok : sr_result r = MACHO_SUCCESS) :
  exists i,
    let nl := macho_get_nlist m symtab i in
    0 <= i < symtab_nsyms m symtab
    /\ Z.land (nlist_n_type m nl) N_TYPE = N_SECT
    /\ 4 <= nlist_n_strx m nl < symtab_strsize m symtab
    /\ cstring_eqb (mh m) (symtab_stroff m symtab + nlist_n_strx m nl) symbol
       = true
    /\ sr_addr r = (if want_addr then Some (nlist_n_value m nl) else None).
Proof.
  unfold macho_resolve_symbol in Hres.
  pose proof (symtab_nsyms_range m symtab) as Hn.
  assert (Hsound : macho_symtab_string_index m symtab symbol = 0
              \/ (4 <= macho_symtab_string_index m symtab symbol
                       < symtab_strsize m symtab
                  /\ cstring_eqb (mh m)
                       (symtab_stroff m symtab
                        + macho_symtab_string_index m symtab symbol) symbol
                     = true)).
  { unfold macho_symtab_string_index, macho_symtab_string_index_fuel.
    destruct (string_index_loop _ _ _ _ _ _) as [x |] eqn:E; [| auto].
    apply (string_index_loop_sound m symtab symbol Hname _ 4 x ltac:(lia) E). }
  set (strx := macho_symtab_string_index m symtab symbol) in *.
  destruct (Z.eqb_spec strx 0) as [E0 | E0].
  { injection Hres as <-. discriminate. }
  destruct Hsound as [Hz | [Hrange Hm]]; [contradiction |].
  rewrite resolve_symbol_loop_spec in Hres.
  destruct (find _ (indices (Z.to_nat (symtab_nsyms m symtab)) 0))
    as [j |] eqn:Ef.
  2: { cbn in Hres. injection Hres as <-. discriminate. }
  apply find_indices_range in Ef. destruct Ef as [Hj [Hp _]].
  apply Z.eqb_eq in Hp. cbv zeta in Hres.
  destruct (Z.land (nlist_n_type m (macho_get_nlist m symtab j)) N_TYPE =? N_UNDF).
  { injection Hres as <-. discriminate. }
  destruct (Z.eqb_spec (Z.land (nlist_n_type m (macho_get_nlist m symtab j)) N_TYPE)
              N_SECT) as [Et | Et]; cbn [negb] in Hres.
  2: { injection Hres as <-. discriminate. }
  exists j. cbv zeta. rewrite Hp.
  split; [lia |]. split; [exact Et |]. split; [exact Hrange |].
  split; [exact Hm |].
  destruct (j =? UINT32_MAX); [injection Hres as <-; discriminate |].
  destruct want_size.
  - destruct (guess_symbol_size fuel m _ _); [| discriminate].
    injection Hres as <-. reflexivity.
  - injection Hres as <-. reflexivity.
Qed.

Lemma resolve_symbol_success_entry_witness :
  exists i,
    let nl := macho_get_nlist sample_image sample_symtab i in
    0 <= i < symtab_nsyms sample_image sample_symtab
    /\ Z.land (nlist_n_type sample_image nl) N_TYPE = N_SECT
    /\ 4 <= nlist_n_strx sample_image nl
       < symtab_strsize sample_image sample_symtab
    /\ cstring_eqb (mh sample_image)
         (symtab_stroff sample_image sample_symtab
          + nlist_n_strx sample_image nl) [x5f; x62] = true
    /\ Some 0x1050 = (if true then Some (nlist_n_value sample_image nl) else None).
Proof.
  apply (resolve_symbol_success_entry 3 sample_image sample_symtab [x5f; x62]
           true true
           (Build_symbol_resolution MACHO_SUCCESS (Some 0x1050) (Some 0xb0))).
  - repeat constructor; discriminate.
  - vm_compute. reflexivity.
  - reflexivity.
Defined.

(** ** Validation *)

(** X17.  [macho_validate] accepts a buffer exactly when one of the two
    width-specific validators accepts it, and the two never accept the same
    buffer; the length test [macho_validate] makes first does not change the
    verdict. *)
Theorem macho_validate_dispatch (mem : memory) (sz : Z) :
  (macho_validate mem sz = MACHO_SUCCESS <->
     macho_validate_32 mem sz = MACHO_SUCCESS
     \/ macho_validate_64 mem sz = MACHO_SUCCESS)
  /\ ~ (macho_validate_32 mem sz = MACHO_SUCCESS
        /\ macho_validate_64 mem sz = MACHO_SUCCESS).
Proof.
  cbv [macho_validate macho_validate_32 macho_validate_64
       sizeof_mach_header sizeof_mach_header_64 MH_MAGIC MH_MAGIC_64].
  destruct (Z.ltb_spec sz 28);
    destruct (Z.eqb_spec (load32 mem 0) 4277009102);
    destruct (Z.eqb_spec (load32 mem 0) 4277009103);
    destruct (Z.ltb_spec sz 32);
    destruct (Z.ltb_spec sz (load32 mem 20));
    cbn [negb];
    (split; [split; [intro Hs; try discriminate; auto
                    | intros [Hs | Hs]; try discriminate; try reflexivity; lia]
            | intros [H32 H64]; try discriminate; lia]).
Qed.

(* ================================================================== *)
(** * Properties of macho_gadgets.c *)

(** ** The byte-swapping loop *)

Lemma store_at_length (i : nat) (v : byte) :
  forall start, length (store_at i v start) = length start.
Proof.
  induction i as [| i IH]; intros [| b rest]; simpl; auto.
Qed.

Lemma store_at_nth (v : byte) :
  forall i start k,
    nth k (store_at i v start) x00
    = if (Nat.eqb k i && Nat.ltb i (length start))%bool then v
      else nth k start x00.
Proof.
  induction i as [| i IH]; intros [| b rest] k; simpl.
  - destruct k; simpl; [reflexivity |]. destruct k; reflexivity.
  - destruct k; reflexivity.
  - destruct k; simpl; [reflexivity |].
    rewrite andb_false_r. destruct k; reflexivity.
  - destruct k; simpl; [reflexivity |].
    rewrite IH. reflexivity.
Qed.

Lemma swap_loop_length :
  forall n i start, length (swap_loop n i start) = length start.
Proof.
  induction n as [| n IH]; intros i start; [reflexivity |].
  cbn [swap_loop]. rewrite IH, !store_at_length. reflexivity.
Qed.

Lemma swap_loop_nth (orig : list byte) :
  forall n i start,
    length start = length orig ->
    (i + n <= length orig / 2)%nat ->
    (forall k, (k < length orig)%nat ->
       nth k start x00
       = if (Nat.ltb k i || Nat.leb (length orig - i) k)%bool
         then nth (length orig - 1 - k) orig x00
         else nth k orig x00) ->
    forall k, (k < length orig)%nat ->
      nth k (swap_loop n i start) x00
      = if (Nat.ltb k (i + n) || Nat.leb (length orig - (i + n)) k)%bool
        then nth (length orig - 1 - k) orig x00
        else nth k orig x00.
Proof.
  induction n as [| n IH]; intros i start Hlen Hi Hinv k Hk.
  - simpl. rewrite Nat.add_0_r. apply Hinv. exact Hk.
  - cbn [swap_loop].
    assert (Hhalf : (2 * (length orig / 2) <= length orig)%nat)
      by (apply Nat.Div0.mul_div_le).
    replace (i + S n)%nat with (S i + n)%nat by lia.
    apply IH; try lia.
    + rewrite !store_at_length. exact Hlen.
    + clear k Hk. intros k Hk. rewrite !store_at_nth, store_at_length, Hlen.
      pose proof (Hinv i ltac:(lia)) as Hi1.
      pose proof (Hinv (length orig - i - 1)%nat ltac:(lia)) as Hi2.
      pose proof (Hinv k Hk) as Hk1.
      destruct (Nat.eqb_spec k (length orig - i - 1)) as [E1 | E1];
        destruct (Nat.eqb_spec k i) as [E2 | E2];
        destruct (Nat.ltb_spec (length orig - i - 1) (length orig));
        destruct (Nat.ltb_spec i (length orig));
        try lia; cbn [andb].
      * (* k is the upper end of the pair *)
        subst k. rewrite Hi1.
        destruct (Nat.ltb_spec i i); [lia |].
        destruct (Nat.leb_spec (length orig - i) i); [lia |]. cbn [orb].
        destruct (Nat.ltb_spec (length orig - i - 1) (S i)); [lia |].
        destruct (Nat.leb_spec (length orig - S i) (length orig - i - 1));
          [| lia]. cbn [orb]. f_equal. lia.
      * (* k is the lower end of the pair *)
        subst k. rewrite Hi2.
        destruct (Nat.ltb_spec (length orig - i - 1) i); [lia |].
        destruct (Nat.leb_spec (length orig - i) (length orig - i - 1)); [lia |].
        cbn [orb]. destruct (Nat.ltb_spec i (S i)); [| lia]. cbn [orb].
        f_equal. lia.
      * rewrite Hk1.
        destruct (Nat.ltb_spec k i); destruct (Nat.ltb_spec k (S i));
          destruct (Nat.leb_spec (length orig - i) k);
          destruct (Nat.leb_spec (length orig - S i) k);
          try lia; reflexivity.
Qed.

Lemma swap_loop_rev (start : list byte) :
  swap_loop (length start / 2) 0 start = rev start.
Proof.
  apply (nth_ext _ _ x00 x00).
  - rewrite swap_loop_length, length_rev. reflexivity.
  - intros k Hk. rewrite swap_loop_length in Hk.
    rewrite (swap_loop_nth start (length start / 2) 0 start eq_refl
               ltac:(lia)); [| | exact Hk].
    + rewrite rev_nth by exact Hk.
      assert (Hhalf : (2 * (length start / 2) <= length start)%nat)
        by (apply Nat.Div0.mul_div_le).
      assert (Hup : (length start < 2 * (length start / 2) + 2)%nat).
      { pose proof (Nat.div_mod_eq (length start) 2).
        pose proof (Nat.mod_upper_bound (length start) 2). lia. }
      rewrite Nat.add_0_l.
      destruct (Nat.ltb_spec k (length start / 2));
        destruct (Nat.leb_spec (length start - length start / 2) k);
        cbn [orb]; f_equal; lia.
    + intros j Hj. simpl. rewrite Nat.sub_0_r.
      destruct (Nat.leb_spec (length start) j); [lia | reflexivity].
Qed.

Lemma swap_loop_rev_component (start : list byte) :
  reverse_component start = rev start.
Proof. unfold reverse_component. apply swap_loop_rev. Qed.


(** X18.  The swap loop [decode_gadget] runs over a little-endian component
    reverses the component's bytes (an odd middle byte stays in place). *)
Theorem reverse_component_rev (start : list byte) :
  reverse_component start = rev start
  /\ length (reverse_component start) = length start.
Proof.
  split; [apply swap_loop_rev_component |].
  unfold reverse_component. apply swap_loop_length.
Qed.

(** ** decode_gadget *)

Lemma hexdigit_range (ch : Z) : -1 <= hexdigit ch <= 15.
Proof.
  unfold hexdigit.
  destruct (Z.leb_spec 48 ch); destruct (Z.leb_spec ch 57); cbn [andb]; try lia;
    destruct (Z.leb_spec 65 ch); destruct (Z.leb_spec ch 70); cbn [andb]; try lia;
    destruct (Z.leb_spec 97 ch); destruct (Z.leb_spec ch 102); cbn [andb]; lia.
Qed.

Lemma hex_char_not_end (c : byte) :
  is_hex_char c = true -> ends_component c = false.
Proof.
  unfold is_hex_char, ends_component. intro H.
  destruct (byte_eqb_spec c x00) as [-> | _]; [vm_compute in H; discriminate |].
  destruct (byte_eqb_spec c x2c) as [-> | _]; [vm_compute in H; discriminate |].
  reflexivity.
Qed.

Lemma not_end_not_nul (c : byte) :
  ends_component c = false -> Byte.eqb c x00 = false.
Proof.
  unfold ends_component. intro H. apply orb_false_elim in H. tauto.
Qed.

Lemma lor_shiftl_nibbles (hi lo : Z) :
  0 <= hi <= 15 -> 0 <= lo <= 15 ->
  Z.lor (Z.shiftl hi 4) lo = 16 * hi + lo.
Proof.
  intros Hh Hl.
  assert (Eh : hi = 0 \/ hi = 1 \/ hi = 2 \/ hi = 3 \/ hi = 4 \/ hi = 5
               \/ hi = 6 \/ hi = 7 \/ hi = 8 \/ hi = 9 \/ hi = 10 \/ hi = 11
               \/ hi = 12 \/ hi = 13 \/ hi = 14 \/ hi = 15) by lia.
  assert (El : lo = 0 \/ lo = 1 \/ lo = 2 \/ lo = 3 \/ lo = 4 \/ lo = 5
               \/ lo = 6 \/ lo = 7 \/ lo = 8 \/ lo = 9 \/ lo = 10 \/ lo = 11
               \/ lo = 12 \/ lo = 13 \/ lo = 14 \/ lo = 15) by lia.
  repeat (destruct Eh as [-> | Eh]); try subst hi;
    repeat (destruct El as [-> | El]); try subst lo; reflexivity.
Qed.

Lemma decode_hex_pairs (pairs : list (byte * byte)) (rest : list byte) :
  Forall (fun p => is_hex_char (fst p) = true /\ is_hex_char (snd p) = true)
    pairs ->
  (rest = [] \/ exists c r, rest = c :: r /\ ends_component c = true) ->
  decode_hex (hex_text pairs ++ rest) = inr (map hex_pair_value pairs, rest).
Proof.
  intros Hp Hrest. induction Hp as [| [c1 c2] pairs [H1 H2] _ IH].
  - simpl. destruct Hrest as [-> | [c [r [-> Hc]]]]; [reflexivity |].
    simpl. rewrite Hc. reflexivity.
  - cbn [fst snd] in H1, H2.
    change (hex_text ((c1, c2) :: pairs) ++ rest)
      with (c1 :: c2 :: (hex_text pairs ++ rest)).
    cbn [decode_hex]. rewrite (hex_char_not_end c1 H1), (hex_char_not_end c2 H2).
    unfold is_hex_char in H1, H2. apply Z.leb_le in H1, H2.
    destruct (Z.ltb_spec (hexdigit (char_to_int c1)) 0); [lia |].
    destruct (Z.ltb_spec (hexdigit (char_to_int c2)) 0); [lia |].
    cbn [orb]. rewrite IH. cbn [map]. unfold hex_pair_value at 2.
    cbn [fst snd]. rewrite lor_shiftl_nibbles; [reflexivity | |].
    + pose proof (hexdigit_range (char_to_int c1)). lia.
    + pose proof (hexdigit_range (char_to_int c2)). lia.
Qed.

Lemma hex_text_not_0x (pairs : list (byte * byte)) (rest : list byte) :
  Forall (fun p => is_hex_char (fst p) = true /\ is_hex_char (snd p) = true)
    pairs ->
  pairs <> [] ->
  starts_with_0x (hex_text pairs ++ rest) = false.
Proof.
  intros Hp Hne. destruct pairs as [| [c1 c2] pairs]; [contradiction |].
  inversion Hp as [| ? ? [_ H2] _]; subst. cbn [fst snd] in H2.
  simpl. destruct (byte_eqb_spec c2 x78) as [-> | _];
    [vm_compute in H2; discriminate | apply andb_false_r].
Qed.

Lemma decode_components_text :
  forall comps fuel,
    comps <> [] ->
    Forall well_formed_component comps ->
    (length comps <= fuel)%nat ->
    decode_components fuel (data_text comps)
    = Some (inr (concat (map component_bytes comps))).
Proof.
  induction comps as [| [le pairs] rest IH]; intros fuel Hne Hwf Hfuel;
    [contradiction |].
  destruct fuel as [| fuel]; [simpl in Hfuel; lia |].
  inversion Hwf as [| ? ? [Hpne Hhex] Hwf']; subst. cbn [fst snd] in Hpne, Hhex.
  assert (Hlen : (length (map hex_pair_value pairs) =? 0)%nat = false).
  { destruct pairs; [contradiction | reflexivity]. }
  set (tail := match rest with
               | [] => []
               | _ :: _ => x2c :: data_text rest
               end).
  assert (Etext : data_text ((le, pairs) :: rest)
                  = (if le then [x30; x78] else []) ++ hex_text pairs ++ tail).
  { unfold tail. cbn [data_text]. unfold component_text. cbn [fst snd].
    destruct rest; rewrite <- ?app_assoc; [rewrite app_nil_r |]; reflexivity. }
  assert (Htail : tail = [] \/ exists c r, tail = c :: r /\ ends_component c = true).
  { unfold tail. destruct rest; [left; reflexivity |].
    right. eexists; eexists. split; reflexivity. }
  assert (Hrest : match tail with
                  | c :: rest' =>
                      if Byte.eqb c x2c then
                        match decode_components fuel rest' with
                        | Some (inr more) =>
                            Some (inr (component_bytes (le, pairs) ++ more))
                        | other => other
                        end
                      else Some (inr (component_bytes (le, pairs)))
                  | [] => Some (inr (component_bytes (le, pairs)))
                  end
                  = Some (inr (concat (map component_bytes ((le, pairs) :: rest))))).
  { unfold tail. destruct rest as [| c' rest'].
    - simpl. rewrite app_nil_r. reflexivity.
    - cbn [Byte.eqb]. replace (Byte.eqb x2c x2c) with true by reflexivity.
      rewrite (IH fuel); [reflexivity | discriminate | exact Hwf' |].
      simpl in Hfuel |- *. lia. }
  rewrite Etext. cbn [decode_components]. destruct le.
  - change (([x30; x78] ++ hex_text pairs ++ tail))
      with (x30 :: x78 :: hex_text pairs ++ tail).
    replace (starts_with_0x (x30 :: x78 :: hex_text pairs ++ tail)) with true
      by reflexivity.
    cbn [skipn]. rewrite (decode_hex_pairs pairs tail Hhex Htail).
    rewrite Hlen. rewrite swap_loop_rev_component. exact Hrest.
  - cbn [app]. rewrite (hex_text_not_0x pairs tail Hhex Hpne).
    rewrite (decode_hex_pairs pairs tail Hhex Htail).
    rewrite Hlen. exact Hrest.
Qed.

Lemma split_colon_text (name data : list byte) :
  Forall (fun c => c <> x00 /\ c <> x3a) name ->
  split_colon (name ++ x3a :: data) = Some (name, data).
Proof.
  induction 1 as [| c name [H0 H1] _ IH]; [reflexivity |].
  cbn [app split_colon].
  destruct (byte_eqb_spec c x00); [contradiction |].
  destruct (byte_eqb_spec c x3a); [contradiction |].
  rewrite IH. reflexivity.
Qed.

Lemma data_text_strlen (comps : list (bool * list (byte * byte))) :
  comps <> [] -> Forall well_formed_component comps ->
  (strlen (data_text comps) =? 0)%nat = false.
Proof.
  intros Hne Hwf. destruct comps as [| [le pairs] rest]; [contradiction |].
  inversion Hwf as [| ? ? [Hpne Hhex] _]; subst. cbn [fst snd] in Hpne, Hhex.
  assert (E : exists c r, data_text ((le, pairs) :: rest) = c :: r
                          /\ Byte.eqb c x00 = false).
  { cbn [data_text]. unfold component_text. cbn [fst snd]. destruct le.
    - exists x30. destruct rest; eexists; split; reflexivity.
    - destruct pairs as [| [c1 c2] pairs]; [contradiction |].
      inversion Hhex as [| ? ? [H1 _] _]; subst. cbn [fst] in H1.
      exists c1. destruct rest; eexists;
        (split; [reflexivity
                | apply not_end_not_nul, hex_char_not_end; exact H1]). }
  destruct E as [c [r [-> Hc]]]. simpl. rewrite Hc. reflexivity.
Qed.

(** X19.  [decode_gadget] reads the grammar [name:component{,component}]:
    for a name without colon and components that are non-empty runs of hex
    digit pairs, each optionally prefixed by [0x], it returns the name and
    the concatenation of the components' bytes, a pair [hi lo] giving the
    byte [16 * hi + lo], with the bytes of a prefixed component reversed. *)
Theorem decode_gadget_grammar (name : list byte)
    (comps : list (bool * list (byte * byte))) (fuel : nat)
    (Hname : Forall (fun c => c <> x00 /\ c <> x3a) name)
    (Hcomps : comps <> [])
    (Hwf : Forall well_formed_component comps)
    (Hfuel : (length comps <= fuel)%nat) :
  decode_gadget fuel (name ++ x3a :: data_text comps)
  = Some (inr (name, concat (map component_bytes comps))).
Proof.
  unfold decode_gadget. rewrite (split_colon_text name _ Hname).
  rewrite (data_text_strlen comps Hcomps Hwf).
  rewrite (decode_components_text comps fuel Hcomps Hwf Hfuel). reflexivity.
Qed.

Lemma decode_gadget_grammar_witness :
  decode_gadget 2 [x67; x3a; x61; x42; x2c; x30; x78; x30; x31; x30; x32]
  = Some (inr ([x67], [xab; x02; x01])).
Proof.
  apply (decode_gadget_grammar [x67]
           [(false, [(x61, x42)]); (true, [(x30, x31); (x30, x32)])] 2).
  - repeat constructor; discriminate.
  - discriminate.
  - repeat constructor; discriminate.
  - simpl. lia.
Defined.

Lemma strlen_cons_not_nul (c : byte) (rest : list byte) :
  Byte.eqb c x00 = false -> strlen (c :: rest) = S (strlen rest).
Proof. intro H. simpl. rewrite H. reflexivity. Qed.

Lemma decode_hex_strlen :
  forall n chr bytes rest,
    (length chr <= n)%nat ->
    decode_hex chr = inr (bytes, rest) ->
    strlen chr = (2 * length bytes + strlen rest)%nat.
Proof.
  induction n as [| n IH]; intros chr bytes rest Hn H.
  - destruct chr; [| simpl in Hn; lia]. simpl in H.
    injection H as <- <-. reflexivity.
  - destruct chr as [| c1 chr1]; [simpl in H; injection H as <- <-; reflexivity |].
    cbn [decode_hex] in H.
    destruct (ends_component c1) eqn:E1.
    { injection H as <- <-. reflexivity. }
    destruct chr1 as [| c2 chr2]; [discriminate |].
    destruct (ends_component c2) eqn:E2; [discriminate |].
    destruct ((hexdigit (char_to_int c1) <? 0) || (hexdigit (char_to_int c2) <? 0));
      [discriminate |].
    destruct (decode_hex chr2) as [e | [bytes' rest']] eqn:Ed; [discriminate |].
    injection H as <- <-.
    rewrite (strlen_cons_not_nul c1 _ (not_end_not_nul _ E1)).
    rewrite (strlen_cons_not_nul c2 _ (not_end_not_nul _ E2)).
    rewrite (IH chr2 bytes' rest' ltac:(simpl in Hn; lia) Ed). simpl. lia.
Qed.

Lemma starts_with_0x_strlen (chr : list byte) :
  starts_with_0x chr = true -> strlen chr = S (S (strlen (skipn 2 chr))).
Proof.
  destruct chr as [| c1 [| c2 chr]]; try discriminate.
  simpl. intro H. apply andb_prop in H. destruct H as [H1 H2].
  apply Byte.byte_dec_bl in H1, H2. subst. reflexivity.
Qed.

Lemma decode_components_bound :
  forall fuel chr data,
    decode_components fuel chr = Some (inr data) ->
    (1 <= length data /\ 2 * length data <= strlen chr)%nat.
Proof.
  induction fuel as [| fuel IH]; intros chr data H; [discriminate |].
  cbn [decode_components] in H.
  set (chr' := if starts_with_0x chr then skipn 2 chr else chr) in *.
  assert (Hchr : (strlen chr' <= strlen chr)%nat).
  { unfold chr'. destruct (starts_with_0x chr) eqn:E; [| lia].
    rewrite (starts_with_0x_strlen chr E). lia. }
  destruct (decode_hex chr') as [e | [bytes rest]] eqn:Ed; [discriminate |].
  pose proof (decode_hex_strlen _ _ _ _ (Nat.le_refl _) Ed) as Hs.
  destruct (Nat.eqb_spec (length bytes) 0) as [| Hne]; [discriminate |].
  set (component := if starts_with_0x chr then reverse_component bytes
                    else bytes) in *.
  assert (Hc : length component = length bytes).
  { unfold component. destruct (starts_with_0x chr); [| reflexivity].
    unfold reverse_component. apply swap_loop_length. }
  destruct rest as [| c rest'].
  - injection H as <-. rewrite Hc. simpl in Hs. lia.
  - destruct (byte_eqb_spec c x2c) as [-> | Hcomma].
    + destruct (decode_components fuel rest') as [[e | more] |] eqn:Er;
        try discriminate.
      injection H as <-. apply IH in Er. rewrite length_app, Hc.
      rewrite (strlen_cons_not_nul x2c rest' eq_refl) in Hs. lia.
    + injection H as <-. rewrite Hc. lia.
Qed.

Lemma decode_components_total :
  forall fuel chr,
    (strlen chr < fuel)%nat -> decode_components fuel chr <> None.
Proof.
  induction fuel as [| fuel IH]; intros chr Hfuel; [lia |].
  cbn [decode_components].
  set (chr' := if starts_with_0x chr then skipn 2 chr else chr) in *.
  assert (Hchr : (strlen chr' <= strlen chr)%nat).
  { unfold chr'. destruct (starts_with_0x chr) eqn:E; [| lia].
    rewrite (starts_with_0x_strlen chr E). lia. }
  destruct (decode_hex chr') as [e | [bytes rest]] eqn:Ed; [discriminate |].
  pose proof (decode_hex_strlen _ _ _ _ (Nat.le_refl _) Ed) as Hs.
  destruct (Nat.eqb_spec (length bytes) 0) as [| Hne]; [discriminate |].
  destruct rest as [| c rest']; [discriminate |].
  destruct (byte_eqb_spec c x2c) as [-> | Hcomma]; [| discriminate].
  rewrite (strlen_cons_not_nul x2c rest' eq_refl) in Hs.
  specialize (IH rest' ltac:(lia)).
  destruct (decode_components fuel rest') as [[e | more] |];
    [discriminate | discriminate | contradiction].
Qed.

Lemma split_colon_strlen (string name data : list byte) :
  split_colon string = Some (name, data) ->
  (strlen data < strlen string)%nat.
Proof.
  revert name. induction string as [| c rest IH]; intros name H; [discriminate |].
  cbn [split_colon] in H. destruct (Byte.eqb c x00) eqn:E0; [discriminate |].
  rewrite (strlen_cons_not_nul c rest E0).
  destruct (Byte.eqb c x3a).
  - injection H as _ <-. lia.
  - destruct (split_colon rest) as [[name' data'] |]; [| discriminate].
    injection H as _ <-. specialize (IH name' eq_refl). lia.
Qed.

(** X20.  [decode_gadget] ends on every string (fuel above the string's
    length suffices), and when it succeeds the data it has written fits the
    buffer it allocated: their number is at least 1 and at most
    [alloc_size = strlen(data part) / 2], and the name is the text before
    the first colon. *)
Theorem decode_gadget_fits_buffer (fuel : nat) (string : list byte)
    (Hfuel : (strlen string < fuel)%nat) :
  exists r,
    decode_gadget fuel string = Some r
    /\ forall name data, r = inr (name, data) ->
         exists text,
           split_colon string = Some (name, text)
           /\ (1 <= length data <= strlen text / 2)%nat.
Proof.
  unfold decode_gadget.
  destruct (split_colon string) as [[name text] |] eqn:Es.
  2: { eexists. split; [reflexivity | discriminate]. }
  pose proof (split_colon_strlen _ _ _ Es) as Hlt.
  destruct (strlen text =? 0)%nat.
  { eexists. split; [reflexivity | discriminate]. }
  pose proof (decode_components_total fuel text ltac:(lia)) as Htot.
  destruct (decode_components fuel text) as [[e | data] |] eqn:Ed;
    [| | contradiction].
  - eexists. split; [reflexivity | discriminate].
  - eexists. split; [reflexivity |].
    intros name' data' E. injection E as <- <-.
    exists text. split; [reflexivity |].
    apply decode_components_bound in Ed. destruct Ed as [H1 H2].
    split; [exact H1 |]. apply Nat.div_le_lower_bound; lia.
Qed.

Lemma decode_gadget_fits_buffer_witness :
  exists r,
    decode_gadget 12 [x67; x3a; x61; x42; x2c; x30; x78; x30; x31; x30; x32]
    = Some r
    /\ forall name data, r = inr (name, data) ->
         exists text,
           split_colon [x67; x3a; x61; x42; x2c; x30; x78; x30; x31; x30; x32]
           = Some (name, text)
           /\ (1 <= length data <= strlen text / 2)%nat.
Proof.
  apply (decode_gadget_fits_buffer 12).
  vm_compute. lia.
Defined.

(** ** find_gadgets_in_data and find_gadgets *)

Lemma find_gadgets_in_data_loop_map (mem : memory) (data address end_ : Z) :
  forall n ins gadgets,
    find_gadgets_in_data_loop mem data address end_ n ins gadgets
    = map (gadget_scan mem data address end_ n ins) gadgets.
Proof.
  induction n as [| n IH]; intros ins gadgets.
  - simpl. rewrite map_id. reflexivity.
  - cbn [find_gadgets_in_data_loop gadget_scan]. rewrite IH, map_map.
    reflexivity.
Qed.

Lemma find_gadget_at_kept (mem : memory) (data address end_ ins : Z)
    (g : gadget) :
  gadget_kept g (find_gadget_at mem data address end_ ins g)
  /\ (g_address g <> 0 -> find_gadget_at mem data address end_ ins g = g).
Proof.
  unfold find_gadget_at, gadget_kept.
  destruct (Z.eqb_spec (g_address g) 0) as [E | E]; cbn [negb orb].
  - destruct (end_ - ins <? Z.of_nat (length (g_data g)));
      [repeat split; auto; contradiction |].
    destruct (bytes_at mem ins (g_data g)); cbn [negb];
      repeat split; auto; contradiction.
  - repeat split; auto.
Qed.

Lemma gadget_scan_found (mem : memory) (data address end_ : Z) :
  forall n ins g,
    g_address g <> 0 -> gadget_scan mem data address end_ n ins g = g.
Proof.
  induction n as [| n IH]; intros ins g H; [reflexivity |].
  cbn [gadget_scan].
  rewrite (proj2 (find_gadget_at_kept mem data address end_ ins g) H).
  apply IH. exact H.
Qed.

Lemma gadget_scan_kept (mem : memory) (data address end_ : Z) :
  forall n ins g,
    gadget_kept g (gadget_scan mem data address end_ n ins g).
Proof.
  induction n as [| n IH]; intros ins g.
  - simpl. unfold gadget_kept. auto.
  - cbn [gadget_scan].
    destruct (find_gadget_at_kept mem data address end_ ins g) as [[H1 [H2 H3]] H4].
    destruct (IH (ins + 1) (find_gadget_at mem data address end_ ins g))
      as [K1 [K2 K3]].
    unfold gadget_kept. split; [congruence |]. split; [congruence |].
    intro Hne. rewrite (H4 Hne) in K3 |- *.
    rewrite (gadget_scan_found mem data address end_ n (ins + 1) g Hne).
    reflexivity.
Qed.

Lemma gadget_scan_locate (mem : memory) (data address : Z) (g : gadget) :
  g_address g = 0 -> g_data g <> [] ->
  forall n ins,
    data <= ins ->
    0 < address -> address + (ins - data) + Z.of_nat n <= 2 ^ 64 ->
    gadget_scan mem data address (ins + Z.of_nat n) n ins g
    = match memmem mem ins (Z.of_nat n) (g_data g) with
      | Some found =>
          {| g_name := g_name g; g_data := g_data g;
             g_address := address + (found - data) |}
      | None => g
      end.
Proof.
  intros Ha Hd.
  assert (Hlen : (1 <= length (g_data g))%nat).
  { destruct (g_data g); [contradiction | simpl; lia]. }
  induction n as [| n IH]; intros ins Hins Haddr Hfit.
  - cbn [gadget_scan]. unfold memmem. change (Z.of_nat 0) with 0.
    destruct (Z.ltb_spec 0 (Z.of_nat (length (g_data g))));
      [reflexivity | lia].
  - cbn [gadget_scan]. unfold find_gadget_at. rewrite Ha.
    replace (0 =? 0) with true by reflexivity. cbn [negb orb].
    replace (ins + Z.of_nat (S n) - ins) with (Z.of_nat (S n)) by lia.
    unfold memmem.
    destruct (Z.ltb_spec (Z.of_nat (S n)) (Z.of_nat (length (g_data g))))
      as [Hshort | Hlong].
    + replace (ins + Z.of_nat (S n)) with (ins + 1 + Z.of_nat n) by lia.
      rewrite IH by lia. unfold memmem.
      destruct (Z.ltb_spec (Z.of_nat n) (Z.of_nat (length (g_data g))));
        [reflexivity | lia].
    + replace (Z.to_nat (Z.of_nat (S n) - Z.of_nat (length (g_data g)) + 1))
        with (S (S n - length (g_data g))) by lia.
      cbn [memmem_loop].
      destruct (bytes_at mem ins (g_data g)) eqn:Eb; cbn [negb].
      * rewrite gadget_scan_found.
        -- rewrite u64_small by lia. reflexivity.
        -- cbn [g_address]. rewrite u64_small by lia. lia.
      * replace (ins + Z.of_nat (S n)) with (ins + 1 + Z.of_nat n) by lia.
        rewrite IH by lia. unfold memmem.
        destruct (Z.ltb_spec (Z.of_nat n) (Z.of_nat (length (g_data g))))
          as [Hs | Hl].
        -- replace (S n - length (g_data g))%nat with 0%nat by lia.
           reflexivity.
        -- replace (Z.to_nat (Z.of_nat n - Z.of_nat (length (g_data g)) + 1))
             with (S n - length (g_data g))%nat by lia.
           reflexivity.
Qed.

(** X21.  Take [size] bytes at the machine address [data].  When they end
    below [2^64] ([data + size < 2^64]) and are mapped at a non-zero address
    whose range [address + size] does not pass [2^64],
    [find_gadgets_in_data] gives every gadget that has no address yet (and a
    non-empty pattern) the address of the first occurrence of its pattern in
    the data, where [memmem] finds it, and leaves it without address when the
    pattern does not occur; gadgets already found are left as they are.
    When the bytes reach the end of the address space
    ([data + size >= 2^64]), the end pointer wraps and nothing is searched. *)
Theorem find_gadgets_in_data_first_match (mem : memory)
    (data address size : Z) (gadgets : list gadget)
    (Hdata : 0 <= data < 2 ^ 64)
    (Hsize : 0 <= size < 2 ^ 64) :
  (data + size < 2 ^ 64 ->
   0 < address -> address + size <= 2 ^ 64 ->
   Forall (fun g => g_data g <> []) gadgets ->
   find_gadgets_in_data mem data address size gadgets
   = map (locate_gadget mem data address size) gadgets)
  /\ (2 ^ 64 <= data + size ->
      find_gadgets_in_data mem data address size gadgets = gadgets).
Proof.
  unfold find_gadgets_in_data. cbv zeta. split.
  - intros Hnowrap Haddress Hfit Hpatterns.
    rewrite (u64_small (data + size)) by lia.
    replace (data + size - data) with size by lia.
    rewrite find_gadgets_in_data_loop_map.
    apply map_ext_in. intros g Hin.
    rewrite Forall_forall in Hpatterns. specialize (Hpatterns g Hin).
    unfold locate_gadget.
    destruct (Z.eqb_spec (g_address g) 0) as [E | E]; cbn [negb].
    + pose proof (gadget_scan_locate mem data address g E Hpatterns
                    (Z.to_nat size) data ltac:(lia) Haddress) as H.
      rewrite Z2Nat.id in H by lia. apply H. lia.
    + apply gadget_scan_found. exact E.
  - intro Hwrap.
    assert (E : u64 (data + size) = data + size - 2 ^ 64).
    { unfold u64. symmetry. apply Z.mod_unique with (q := 1); lia. }
    rewrite E. replace (Z.to_nat (data + size - 2 ^ 64 - data)) with 0%nat by lia.
    reflexivity.
Qed.

Lemma find_gadgets_in_data_first_match_witness :
  find_gadgets_in_data (machine_memory sample_image 0x10000) 0x10000 0x1000
    250
    [ {| g_name := [x62]; g_data := [x5f; x62; x00]; g_address := 0 |};
      {| g_name := [x7a]; g_data := [x7a; x7a]; g_address := 0 |};
      {| g_name := [x61]; g_data := [x5f; x61; x00]; g_address := 7 |} ]
  = [ {| g_name := [x62]; g_data := [x5f; x62; x00]; g_address := 0x10f7 |};
      {| g_name := [x7a]; g_data := [x7a; x7a]; g_address := 0 |};
      {| g_name := [x61]; g_data := [x5f; x61; x00]; g_address := 7 |} ].
Proof.
  rewrite (proj1 (find_gadgets_in_data_first_match
                    (machine_memory sample_image 0x10000) 0x10000 0x1000 250
                    _ ltac:(lia) ltac:(lia)));
    [vm_compute; reflexivity | lia | lia | lia |].
  repeat constructor; discriminate.
Defined.

Lemma gadget_kept_trans (g g' g'' : gadget) :
  gadget_kept g g' -> gadget_kept g' g'' -> gadget_kept g g''.
Proof.
  intros [H1 [H2 H3]] [K1 [K2 K3]]. unfold gadget_kept.
  split; [congruence |]. split; [congruence |].
  intro Hne. rewrite <- (H3 Hne). apply K3. rewrite (H3 Hne). exact Hne.
Qed.

Lemma gadgets_kept_refl (gadgets : list gadget) :
  Forall2 gadget_kept gadgets gadgets.
Proof.
  induction gadgets; constructor; [unfold gadget_kept; auto | assumption].
Qed.

Lemma gadgets_kept_trans (l1 : list gadget) :
  forall l2 l3,
    Forall2 gadget_kept l1 l2 -> Forall2 gadget_kept l2 l3 ->
    Forall2 gadget_kept l1 l3.
Proof.
  induction l1 as [| g l1 IH]; intros l2 l3 H12 H23.
  - inversion H12; subst. inversion H23; subst. constructor.
  - inversion H12 as [| ? g' ? l2' Hg Hl]; subst.
    inversion H23 as [| ? g'' ? l3' Hg' Hl']; subst.
    constructor; [eapply gadget_kept_trans; eauto | eapply IH; eauto].
Qed.

Lemma find_gadgets_in_data_kept (mem : memory) (data address size : Z)
    (gadgets : list gadget) :
  Forall2 gadget_kept gadgets
    (find_gadgets_in_data mem data address size gadgets).
Proof.
  unfold find_gadgets_in_data. cbv zeta.
  rewrite find_gadgets_in_data_loop_map.
  induction gadgets as [| g gadgets IH]; cbn [map]; constructor;
    [apply gadget_scan_kept | exact IH].
Qed.

Lemma find_gadgets_loop_kept (fuel : nat) (m : macho) (mh_addr : Z) :
  forall k gadgets lc gadgets',
    find_gadgets_loop fuel k m mh_addr gadgets lc = Some gadgets' ->
    Forall2 gadget_kept gadgets gadgets'.
Proof.
  induction k as [| k IH]; intros gadgets lc gadgets' H; [discriminate |].
  cbn [find_gadgets_loop] in H.
  destruct (macho_next_segment fuel m lc) as [[sc |] |]; try discriminate.
  - destruct (negb _ || negb _).
    + eapply IH; eauto.
    + unfold macho_segment_data in H. cbv zeta in H.
      apply IH in H. eapply gadgets_kept_trans; [| exact H].
      apply find_gadgets_in_data_kept.
  - injection H as <-. apply gadgets_kept_refl.
Qed.

Lemma find_gadgets_loop_spec (m : macho) (mh_addr : Z) :
  forall k n lc l fuel gadgets,
    commands_from n m lc = Some l -> (n <= fuel)%nat -> (length l < k)%nat ->
    find_gadgets_loop fuel k m mh_addr gadgets lc
    = Some (fold_left (search_segment m mh_addr)
              (filter (gadget_segment m) (segments_of m l)) gadgets).
Proof.
  induction k as [| k IH]; intros n lc l fuel gadgets H Hle Hk; [lia |].
  cbn [find_gadgets_loop]. rewrite (next_segment_spec m n lc l fuel H Hle).
  destruct (find (is_segment_command m) l) as [x |] eqn:Ef.
  - destruct (find_split _ _ _ Ef) as [l1 [l2 [-> [Hx Hn]]]].
    rewrite (segments_of_split m l1 l2 x Hn Hx). cbn [filter].
    destruct (commands_from_suffix m _ _ _ _ _ H) as [n' [Hn' Hs]].
    assert (Hk' : (length l2 < k)%nat)
      by (rewrite length_app in Hk; simpl in Hk; lia).
    unfold gadget_segment at 1. cbv zeta.
    destruct (Z.land (signed32 (load32 (mh m) (x + 60)))
                (Z.lor VM_PROT_READ VM_PROT_EXECUTE)
              =? Z.lor VM_PROT_READ VM_PROT_EXECUTE); cbn [negb orb andb].
    + destruct (Z.land (signed32 (load32 (mh m) (x + 56)))
                  (Z.lor VM_PROT_READ VM_PROT_EXECUTE)
                =? Z.lor VM_PROT_READ VM_PROT_EXECUTE); cbn [negb].
      * unfold macho_segment_data. cbv zeta. cbn [fold_left].
        fold (search_segment m mh_addr gadgets x).
        apply (IH n'); auto; lia.
      * apply (IH n'); auto; lia.
    + apply (IH n'); auto; lia.
  - unfold segments_of. rewrite (find_none_filter _ _ Ef). reflexivity.
Qed.

(** X22.  Whenever [find_gadgets] returns, and it returns when the
    load-command iteration ends, it returns the gadgets it was given, in the
    same order and number and with the same names and patterns, and it has
    not changed the address of a gadget that already had one: a gadget found
    in one segment keeps that address through the segments searched later. *)
Theorem find_gadgets_keeps_found (fuel : nat) (m : macho) (mh_addr : Z)
    (gadgets : list gadget) :
  (forall gadgets',
     find_gadgets fuel m mh_addr gadgets = Some gadgets' ->
     Forall2 gadget_kept gadgets gadgets'
     /\ length gadgets' = length gadgets)
  /\ (forall n l,
        commands_from n m None = Some l -> (n <= fuel)%nat ->
        exists gadgets',
          find_gadgets fuel m mh_addr gadgets = Some gadgets'
          /\ Forall2 gadget_kept gadgets gadgets'
          /\ length gadgets' = length gadgets).
Proof.
  assert (Hkept : forall gadgets',
            find_gadgets fuel m mh_addr gadgets = Some gadgets' ->
            Forall2 gadget_kept gadgets gadgets'
            /\ length gadgets' = length gadgets).
  { intros gadgets' Hres.
    pose proof (find_gadgets_loop_kept fuel m mh_addr fuel gadgets None
                  gadgets' Hres) as H.
    split; [exact H |]. symmetry. eapply Forall2_length. exact H. }
  split; [exact Hkept |].
  intros n l Hcmds Hfuel.
  assert (Hres : find_gadgets fuel m mh_addr gadgets
                 = Some (fold_left (search_segment m mh_addr)
                           (filter (gadget_segment m) (segments_of m l))
                           gadgets)).
  { unfold find_gadgets.
    apply (find_gadgets_loop_spec m mh_addr fuel n None l fuel gadgets
             Hcmds Hfuel).
    pose proof (commands_from_length m _ _ _ Hcmds). lia. }
  eexists. split; [exact Hres |]. apply Hkept. exact Hres.
Qed.

Lemma find_gadgets_keeps_found_witness :
  exists gadgets',
    find_gadgets 3 sample_image 0x10000
      [ {| g_name := [x62]; g_data := [x5f; x62; x00]; g_address := 0 |};
        {| g_name := [x61]; g_data := [x5f; x61; x00]; g_address := 7 |} ]
    = Some gadgets'
    /\ Forall2 gadget_kept
         [ {| g_name := [x62]; g_data := [x5f; x62; x00]; g_address := 0 |};
           {| g_name := [x61]; g_data := [x5f; x61; x00]; g_address := 7 |} ]
         gadgets'
    /\ length gadgets'
       = length
           [ {| g_name := [x62]; g_data := [x5f; x62; x00]; g_address := 0 |};
             {| g_name := [x61]; g_data := [x5f; x61; x00]; g_address := 7 |} ].
Proof.
  apply (proj2 (find_gadgets_keeps_found 3 sample_image 0x10000 _) 3%nat
           [32; 184]); [vm_compute; reflexivity | lia].
Defined.

(** X23.  With a terminating command iteration, [find_gadgets] searches, in
    command order, exactly the segments whose [initprot] and [maxprot] (read
    at their 64-bit offsets) both include read and execute, each time
    running [find_gadgets_in_data] over the [vmsize] bytes at the address
    [macho->mh + fileoff], mapped at the segment's [vmaddr]; the other
    segments are skipped. *)
Theorem find_gadgets_segments (m : macho) (mh_addr : Z)
    (gadgets : list gadget) (n : nat) (l : list Z) (fuel : nat)
    (Hcmds : commands_from n m None = Some l) (Hfuel : (n <= fuel)%nat) :
  find_gadgets fuel m mh_addr gadgets
  = Some (fold_left
            (fun gs sc =>
               find_gadgets_in_data (machine_memory m mh_addr)
                 (u64 (mh_addr + segment_fileoff m sc))
                 (segment_vmaddr m sc) (segment_vmsize m sc) gs)
            (filter (gadget_segment m) (segments_of m l)) gadgets).
Proof.
  unfold find_gadgets.
  apply (find_gadgets_loop_spec m mh_addr fuel n None l fuel gadgets
           Hcmds Hfuel).
  pose proof (commands_from_length m _ _ _ Hcmds). lia.
Qed.

Lemma find_gadgets_segments_witness :
  find_gadgets 3 sample_image 0x10000
    [ {| g_name := [x62]; g_data := [x5f; x62; x00]; g_address := 0 |} ]
  = Some [ {| g_name := [x62]; g_data := [x5f; x62; x00];
              g_address := 0x10f7 |} ].
Proof.
  rewrite (find_gadgets_segments sample_image 0x10000 _ 3 [32; 184] 3);
    [vm_compute; reflexivity | vm_compute; reflexivity | lia].
Defined.

(** ** Address resolution, on success *)

(** X24.  When [macho_resolve_address] returns [MACHO_SUCCESS], the outputs
    are those of a section-relative entry with a section whose address is at
    or below the queried one and is the greatest such address in the table:
    the name is the string at that entry's string index, and the offset is
    the distance from that entry's address to the queried address, so the
    entry's address plus the offset is the queried address. *)
Theorem resolve_address_success_entry (fuel : nat) (m : macho)
    (symtab addr : Z) (want_name want_size want_offset : bool)
    (r : address_resolution)
    (Haddr : addr < 2 ^ 64)
    (Hres : macho_resolve_address fuel m symtab addr want_name want_size
              want_offset = Some r)
    (Hok : ar_result r = MACHO_SUCCESS) :
  exists i,
    let nl := macho_get_nlist m symtab i in
    0 <= i < symtab_nsyms m symtab
    /\ Z.land (nlist_n_type m nl) N_TYPE = N_SECT
    /\ nlist_n_sect m nl <> NO_SECT
    /\ 0 <= nlist_n_value m nl <= addr
    /\ (forall j, 0 <= j < symtab_nsyms m symtab ->
          address_candidate m symtab addr j ->
          nlist_n_value m (macho_get_nlist m symtab j) <= nlist_n_value m nl)
    /\ ar_name r
       = (if want_name
          then Some (macho_symtab_string m symtab (nlist_n_strx m nl))
          else None)
    /\ ar_offset r
       = (if want_offset then Some (addr - nlist_n_value m nl) else None).
Proof.
  pose proof (symtab_nsyms_range m symtab) as Hn.
  pose proof (resolve_address_loop_state m symtab addr
                (Z.to_nat (symtab_nsyms m symtab)) 0 None ltac:(lia)) as H.
  rewrite Z2Nat.id in H by lia. simpl (0 + _) in H.
  specialize (H ltac:(intros j Hj; lia)).
  unfold macho_resolve_address in Hres.
  destruct (resolve_address_loop m symtab addr _ 0 None) as [[[sym idx] sa] |].
  2: { injection Hres as <-. discriminate. }
  destruct H as [-> [-> [Hr [[Ht Hle] [Hmax _]]]]].
  destruct (Z.eqb_spec (nlist_n_sect m (macho_get_nlist m symtab idx)) NO_SECT)
    as [E | E].
  { injection Hres as <-. discriminate. }
  assert (Hv : 0 <= nlist_n_value m (macho_get_nlist m symtab idx)).
  { pose proof (load64_range (mh m) (macho_get_nlist m symtab idx + 8)).
    pose proof (load32_range (mh m) (macho_get_nlist m symtab idx + 8)).
    unfold nlist_n_value. destruct (macho_is_64 m); lia. }
  exists idx. cbv zeta.
  split; [exact Hr |]. split; [exact Ht |]. split; [exact E |].
  split; [lia |]. split; [exact Hmax |].
  assert (Eoff : u64 (addr - nlist_n_value m (macho_get_nlist m symtab idx))
                 = addr - nlist_n_value m (macho_get_nlist m symtab idx))
    by (apply u64_small; lia).
  destruct want_size.
  - destruct (guess_symbol_size fuel m _ _); [| discriminate].
    injection Hres as <-. cbn [ar_name ar_offset]. rewrite Eoff. auto.
  - injection Hres as <-. cbn [ar_name ar_offset]. rewrite Eoff. auto.
Qed.

Lemma resolve_address_success_entry_witness :
  exists i,
    let nl := macho_get_nlist sample_image sample_symtab i in
    0 <= i < symtab_nsyms sample_image sample_symtab
    /\ Z.land (nlist_n_type sample_image nl) N_TYPE = N_SECT
    /\ nlist_n_sect sample_image nl <> NO_SECT
    /\ 0 <= nlist_n_value sample_image nl <= 0x1020
    /\ (forall j, 0 <= j < symtab_nsyms sample_image sample_symtab ->
          address_candidate sample_image sample_symtab 0x1020 j ->
          nlist_n_value sample_image (macho_get_nlist sample_image sample_symtab j)
          <= nlist_n_value sample_image nl)
    /\ Some (Some 244)
       = (if true
          then Some (macho_symtab_string sample_image sample_symtab
                       (nlist_n_strx sample_image nl))
          else None)
    /\ Some 0x20
       = (if true then Some (0x1020 - nlist_n_value sample_image nl) else None).
Proof.
  apply (resolve_address_success_entry 3 sample_image sample_symtab 0x1020
           true true true
           (Build_address_resolution MACHO_SUCCESS (Some (Some 244))
              (Some 0x50) (Some 0x20))).
  - lia.
  - vm_compute. reflexivity.
  - reflexivity.
Defined.
